(** * Schema IR utilities and emitter registry of tangen, verified

    A shallow embedding of
    - [packages/cli/src/generators/ir/types.ts] (the IR data model),
    - [packages/cli/src/generators/ir/utils.ts] (naming transforms,
      dependency extraction, topological sort, schema creation helpers),
    - [packages/cli/src/generators/emitters/index.ts] (the emitter registry),
    - [packages/cli/src/adapters/openapi/analysis.ts] (query parameter
      analysis),
    - [packages/cli/src/adapters/graphql/analysis.ts] (query argument
      analysis),
    together with the properties the specification states about them and
    further properties read off the code.

    Conventions of the embedding.
    - A JavaScript [string] is a [String.string], read as ASCII text.  Case
      mapping ([toUpperCase], [toLowerCase]) is modelled on ASCII letters;
      every other character is left unchanged.
    - A JavaScript [number] is an IEEE double ([spec_float]); no function below
      inspects one.
    - A JavaScript [Set<string>] that the code iterates is a duplicate-free
      list in insertion order ([JsSet]); sets that are only tested for
      membership are [gset string]; a [Map<string, V>] that is only read with
      [get]/[has] is a [gmap string V].
    - The own enumerable properties of an object literal are an association
      list in enumeration order; a property read [o[key]] finds an own
      property first and then a member of [Object.prototype]. *)

From Stdlib Require Import SpecFloat Ascii String.
From stdpp Require Import gmap strings list sets relations.

Set Warnings "-register-all".

(* ===================================================================== *)
(** * JavaScript [Set<string>] with insertion order *)
(* ===================================================================== *)

Module JsSet.

Abbreviation t := (list string).

Definition empty : t := [].

Definition has (x : string) (s : t) : bool := bool_decide (x ∈ s).

(** [s.add(x)]: appended at the end unless already present. *)
Definition add (x : string) (s : t) : t :=
  if has x s then s else s ++ [x].

(** [s.delete(x)]. *)
Definition delete (x : string) (s : t) : t :=
  filter (λ y, y ≠ x) s.

End JsSet.

(* ===================================================================== *)
(** * The IR type model ([ir/types.ts]) *)
(* ===================================================================== *)

Definition number := spec_float.

Inductive StringFormat :=
| FormatEmail | FormatUrl | FormatUuid | FormatDatetime
| FormatDate | FormatTime | FormatIpv4 | FormatIpv6.

(** [values: (string | number)[]] of an enum. *)
Inductive EnumValue :=
| EnumString (s : string)
| EnumNumber (n : number).

(** [value: string | number | boolean] of a literal. *)
Inductive LiteralValue :=
| LiteralString (s : string)
| LiteralNumber (n : number)
| LiteralBoolean (b : bool).

(** [SchemaIR]: one constructor per [kind]; the first argument of each is
    [SchemaIRBase.description]. *)
Inductive SchemaIR : Type :=
| StringSchema (description : option string) (format : option StringFormat)
    (minLength maxLength : option number) (pattern : option string)
| NumberSchema (description : option string) (integer : option bool)
    (min max : option number)
| BooleanSchema (description : option string)
| BigIntSchema (description : option string)
| NullSchema (description : option string)
| UndefinedSchema (description : option string)
| UnknownSchema (description : option string)
| NeverSchema (description : option string)
| DateSchema (description : option string)
| ObjectSchema (description : option string)
    (properties : list (string * ObjectPropertyIR))
    (additionalProperties : option AdditionalProperties)
| ArraySchema (description : option string) (items : SchemaIR)
| TupleSchema (description : option string) (items : list SchemaIR)
| RecordSchema (description : option string) (keyType valueType : SchemaIR)
| EnumSchema (description : option string) (values : list EnumValue)
| LiteralSchema (description : option string) (value : LiteralValue)
| UnionSchema (description : option string) (members : list SchemaIR)
| IntersectionSchema (description : option string) (members : list SchemaIR)
| RefSchema (description : option string) (name : string)
| RawSchema (description : option string) (code : string)
with ObjectPropertyIR : Type :=
| ObjectProperty (schema : SchemaIR) (required : bool)
    (description : option string)
(** [additionalProperties?: boolean | SchemaIR] *)
with AdditionalProperties : Type :=
| AdditionalBool (b : bool)
| AdditionalSchema (s : SchemaIR).

Definition prop_schema (p : ObjectPropertyIR) : SchemaIR :=
  match p with ObjectProperty s _ _ => s end.

Definition prop_required (p : ObjectPropertyIR) : bool :=
  match p with ObjectProperty _ r _ => r end.

Inductive SchemaCategory :=
| CategoryEnum | CategoryInput | CategoryResponse | CategoryParams
| CategoryFragment | CategoryComponent | CategoryVariables.

Record NamedSchemaIR := mkNamedSchemaIR {
  name : string;
  schema : SchemaIR;
  dependencies : JsSet.t;
  category : option SchemaCategory;
}.

(** Induction over a schema with the hypotheses for the schemas nested in
    lists, properties and [additionalProperties]. *)
Section SchemaIR_induction.

Variable P : SchemaIR → Prop.

Hypothesis Hstring : ∀ d f mn mx p, P (StringSchema d f mn mx p).
Hypothesis Hnumber : ∀ d i mn mx, P (NumberSchema d i mn mx).
Hypothesis Hboolean : ∀ d, P (BooleanSchema d).
Hypothesis Hbigint : ∀ d, P (BigIntSchema d).
Hypothesis Hnull : ∀ d, P (NullSchema d).
Hypothesis Hundefined : ∀ d, P (UndefinedSchema d).
Hypothesis Hunknown : ∀ d, P (UnknownSchema d).
Hypothesis Hnever : ∀ d, P (NeverSchema d).
Hypothesis Hdate : ∀ d, P (DateSchema d).
Hypothesis Hobject : ∀ d props ap,
  Forall (λ kp, P (prop_schema kp.2)) props →
  (∀ s, ap = Some (AdditionalSchema s) → P s) →
  P (ObjectSchema d props ap).
Hypothesis Harray : ∀ d s, P s → P (ArraySchema d s).
Hypothesis Htuple : ∀ d l, Forall P l → P (TupleSchema d l).
Hypothesis Hrecord : ∀ d k v, P k → P v → P (RecordSchema d k v).
Hypothesis Henum : ∀ d vs, P (EnumSchema d vs).
Hypothesis Hliteral : ∀ d v, P (LiteralSchema d v).
Hypothesis Hunion : ∀ d l, Forall P l → P (UnionSchema d l).
Hypothesis Hintersection : ∀ d l, Forall P l → P (IntersectionSchema d l).
Hypothesis Href : ∀ d n, P (RefSchema d n).
Hypothesis Hraw : ∀ d c, P (RawSchema d c).

Fixpoint SchemaIR_nested_ind (s : SchemaIR) : P s :=
  let fix all (l : list SchemaIR) : Forall P l :=
    match l with
    | [] => Forall_nil_2 P
    | x :: l' => Forall_cons_2 P x l' (SchemaIR_nested_ind x) (all l')
    end in
  let fix all_props (l : list (string * ObjectPropertyIR))
      : Forall (λ kp, P (prop_schema kp.2)) l :=
    match l with
    | [] => Forall_nil_2 _
    | (k, ObjectProperty x r d) :: l' =>
        Forall_cons_2 (λ kp, P (prop_schema kp.2))
          (k, ObjectProperty x r d) l' (SchemaIR_nested_ind x) (all_props l')
    end in
  match s with
  | StringSchema d f mn mx p => Hstring d f mn mx p
  | NumberSchema d i mn mx => Hnumber d i mn mx
  | BooleanSchema d => Hboolean d
  | BigIntSchema d => Hbigint d
  | NullSchema d => Hnull d
  | UndefinedSchema d => Hundefined d
  | UnknownSchema d => Hunknown d
  | NeverSchema d => Hnever d
  | DateSchema d => Hdate d
  | ObjectSchema d props ap =>
      Hobject d props ap (all_props props)
        (match ap return ∀ s, ap = Some (AdditionalSchema s) → P s with
         | Some (AdditionalSchema s') =>
             λ s E, match E in _ = o
                          return match o with
                                 | Some (AdditionalSchema s0) => P s0
                                 | _ => True
                                 end
                    with eq_refl => SchemaIR_nested_ind s' end
         | Some (AdditionalBool _) => λ s E, match E with end
         | None => λ s E, match E with end
         end)
  | ArraySchema d s' => Harray d s' (SchemaIR_nested_ind s')
  | TupleSchema d l => Htuple d l (all l)
  | RecordSchema d k v =>
      Hrecord d k v (SchemaIR_nested_ind k) (SchemaIR_nested_ind v)
  | EnumSchema d vs => Henum d vs
  | LiteralSchema d v => Hliteral d v
  | UnionSchema d l => Hunion d l (all l)
  | IntersectionSchema d l => Hintersection d l (all l)
  | RefSchema d n => Href d n
  | RawSchema d c => Hraw d c
  end.

End SchemaIR_induction.

(* ===================================================================== *)
(** * Naming utilities ([ir/utils.ts]) *)
(* ===================================================================== *)

Module Char.

Definition code (c : ascii) : nat := nat_of_ascii c.

(** [A-Z], [a-z], [0-9] *)
Definition isUpper (c : ascii) : bool :=
  (65 <=? code c) && (code c <=? 90).
Definition isLower (c : ascii) : bool :=
  (97 <=? code c) && (code c <=? 122).
Definition isDigit (c : ascii) : bool :=
  (48 <=? code c) && (code c <=? 57).
Definition isLetter (c : ascii) : bool := isUpper c || isLower c.

(** [c.toUpperCase()] and [c.toLowerCase()] of a one-character string,
    for the characters of ASCII.  Outside ASCII the JavaScript case maps
    change further characters and may lengthen the string; the definitions
    below leave such characters as they are, so a statement that depends on
    the case of arbitrary characters is made for ASCII strings only
    ([isAscii]). *)
Definition toUpperCase (c : ascii) : ascii :=
  if isLower c then ascii_of_nat (code c - 32) else c.
Definition toLowerCase (c : ascii) : ascii :=
  if isUpper c then ascii_of_nat (code c + 32) else c.

(** The characters that the regular expression [.] does not match. *)
Definition isLineTerminator (c : ascii) : bool :=
  (code c =? 10) || (code c =? 13).

(** The character class [[-_]]. *)
Definition isSeparator (c : ascii) : bool :=
  (code c =? 45) || (code c =? 95).

(** The character classes [[a-zA-Z_$]] and [[a-zA-Z0-9_$]]. *)
Definition isIdentifierStart (c : ascii) : bool :=
  isLower c || isUpper c || (code c =? 95) || (code c =? 36).
Definition isIdentifierPart (c : ascii) : bool :=
  isLower c || isUpper c || isDigit c || (code c =? 95) || (code c =? 36).

End Char.

(** [s.charAt(0)], [s.slice(1)], [s.toLowerCase()]. *)
Definition charAt0 (s : string) : string :=
  match s with
  | EmptyString => EmptyString
  | String c _ => String c EmptyString
  end.

Definition slice1 (s : string) : string :=
  match s with
  | EmptyString => EmptyString
  | String _ rest => rest
  end.

Fixpoint toLowerCase (s : string) : string :=
  match s with
  | EmptyString => EmptyString
  | String c rest => String (Char.toLowerCase c) (toLowerCase rest)
  end.

(** ["User" -> "userSchema"] *)
Definition toSchemaName (typeName : string) : string :=
  let camelCase := toLowerCase (charAt0 typeName) +:+ slice1 typeName in
  camelCase +:+ "Schema".

(** [.replace(/[-_](.)/g, (_, c) => c.toUpperCase())]: scanning from the
    left, a separator followed by a character other than a line terminator
    is replaced, together with that character, by the character in upper
    case; the scan resumes after the pair. *)
Fixpoint replaceSeparators (s : string) : string :=
  match s with
  | EmptyString => EmptyString
  | String c rest =>
      match rest with
      | String d rest' =>
          if Char.isSeparator c && negb (Char.isLineTerminator d)
          then String (Char.toUpperCase d) (replaceSeparators rest')
          else String c (replaceSeparators rest)
      | EmptyString => String c EmptyString
      end
  end.

(** [.replace(/^(.)/, (_, c) => c.toUpperCase())] *)
Definition capitalizeFirst (s : string) : string :=
  match s with
  | EmptyString => EmptyString
  | String c rest =>
      if Char.isLineTerminator c then s
      else String (Char.toUpperCase c) rest
  end.

(** ["create_user" -> "CreateUser"] *)
Definition toPascalCase (str : string) : string :=
  capitalizeFirst (replaceSeparators str).

Definition toCamelCase (str : string) : string :=
  let pascal := toPascalCase str in
  toLowerCase (charAt0 pascal) +:+ slice1 pascal.

Fixpoint allChars (p : ascii → bool) (s : string) : bool :=
  match s with
  | EmptyString => true
  | String c rest => p c && allChars p rest
  end.

(** [/^[a-zA-Z_$][a-zA-Z0-9_$]*$/.test(name)] *)
Definition isValidIdentifier (name : string) : bool :=
  match name with
  | EmptyString => false
  | String c rest =>
      Char.isIdentifierStart c && allChars Char.isIdentifierPart rest
  end.

Definition doubleQuote : string := String "034"%char EmptyString.

(** [isValidIdentifier(name) ? name : `"${name}"`] *)
Definition getSafePropertyName (name : string) : string :=
  if isValidIdentifier name then name
  else doubleQuote +:+ name +:+ doubleQuote.

(** ** GraphQL-specific naming utilities *)

(** ["GetPets" -> "getPetsQueryVariablesSchema"] *)
Definition toQueryVariablesSchemaName (operationName : string) : string :=
  toCamelCase operationName +:+ "QueryVariablesSchema".

(** ["CreatePet" -> "createPetMutationVariablesSchema"] *)
Definition toMutationVariablesSchemaName (operationName : string) : string :=
  toCamelCase operationName +:+ "MutationVariablesSchema".

(** ["GetPets" -> "getPetsQuerySchema"] *)
Definition toQueryResponseSchemaName (operationName : string) : string :=
  toCamelCase operationName +:+ "QuerySchema".

(** ["CreatePet" -> "createPetMutationSchema"] *)
Definition toMutationResponseSchemaName (operationName : string) : string :=
  toCamelCase operationName +:+ "MutationSchema".

(** ["PetFields" -> "petFieldsFragmentSchema"] *)
Definition toFragmentSchemaName (fragmentName : string) : string :=
  toCamelCase fragmentName +:+ "FragmentSchema".

(** ["GetPets" -> "GetPetsQueryVariables"] *)
Definition toQueryVariablesTypeName (operationName : string) : string :=
  toPascalCase operationName +:+ "QueryVariables".

(** ["CreatePet" -> "CreatePetMutationVariables"] *)
Definition toMutationVariablesTypeName (operationName : string) : string :=
  toPascalCase operationName +:+ "MutationVariables".

(** ["GetPets" -> "GetPetsQuery"] *)
Definition toQueryResponseTypeName (operationName : string) : string :=
  toPascalCase operationName +:+ "Query".

(** ["CreatePet" -> "CreatePetMutation"] *)
Definition toMutationResponseTypeName (operationName : string) : string :=
  toPascalCase operationName +:+ "Mutation".

(** ["PetFields" -> "PetFieldsFragment"] *)
Definition toFragmentTypeName (fragmentName : string) : string :=
  toPascalCase fragmentName +:+ "Fragment".

(** ** The specification's vocabulary for names *)

(** The identifier grammar [[A-Za-z_$][A-Za-z0-9_$]*], character by
    character. *)
Definition between (lo hi c : ascii) : Prop :=
  Char.code lo ≤ Char.code c ∧ Char.code c ≤ Char.code hi.

Definition IdentifierStart (c : ascii) : Prop :=
  between "A" "Z" c ∨ between "a" "z" c ∨ c = "_"%char ∨ c = "$"%char.

Definition IdentifierPart (c : ascii) : Prop :=
  IdentifierStart c ∨ between "0" "9" c.

Inductive IdentifierTail : string → Prop :=
| Tail_empty : IdentifierTail EmptyString
| Tail_more c rest :
    IdentifierPart c → IdentifierTail rest → IdentifierTail (String c rest).

Inductive Identifier : string → Prop :=
| Identifier_intro c rest :
    IdentifierStart c → IdentifierTail rest → Identifier (String c rest).

Definition startsWithLowercase (s : string) : bool :=
  match s with
  | EmptyString => false
  | String c _ => Char.isLower c
  end.

Definition startsWithLetter (s : string) : bool :=
  match s with
  | EmptyString => false
  | String c _ => Char.isLetter c
  end.

Definition endsWith (s suffix : string) : Prop :=
  ∃ prefix, s = prefix +:+ suffix.

(** "[toSchemaName(toPascalCase(s))] starts with lowercase and ends with
    [Schema]". *)
Definition roundTripNaming (s : string) : Prop :=
  startsWithLowercase (toSchemaName (toPascalCase s)) = true ∧
  endsWith (toSchemaName (toPascalCase s)) "Schema".

(* ===================================================================== *)
(** * Dependency extraction ([ir/utils.ts], [extractDependencies]) *)
(* ===================================================================== *)

(** The inner [visit] of [extractDependencies]; the set [deps] it mutates is
    threaded through.  [for ... of] loops are the local [fix]es. *)
Fixpoint extractDependencies_visit (s : SchemaIR) (deps : JsSet.t) : JsSet.t :=
  match s with
  | RefSchema _ name => JsSet.add name deps
  | ObjectSchema _ properties additionalProperties =>
      let deps :=
        (fix values (ps : list (string * ObjectPropertyIR)) (deps : JsSet.t) :=
           match ps with
           | [] => deps
           | (_, ObjectProperty schema _ _) :: ps' =>
               values ps' (extractDependencies_visit schema deps)
           end) properties deps in
      match additionalProperties with
      | Some (AdditionalSchema s') => extractDependencies_visit s' deps
      | _ => deps
      end
  | ArraySchema _ items => extractDependencies_visit items deps
  | TupleSchema _ items =>
      (fix each (l : list SchemaIR) (deps : JsSet.t) :=
         match l with
         | [] => deps
         | item :: l' => each l' (extractDependencies_visit item deps)
         end) items deps
  | RecordSchema _ keyType valueType =>
      extractDependencies_visit valueType
        (extractDependencies_visit keyType deps)
  | UnionSchema _ members
  | IntersectionSchema _ members =>
      (fix each (l : list SchemaIR) (deps : JsSet.t) :=
         match l with
         | [] => deps
         | member :: l' => each l' (extractDependencies_visit member deps)
         end) members deps
  | _ => deps
  end.

Definition extractDependencies (schema : SchemaIR) : JsSet.t :=
  extractDependencies_visit schema JsSet.empty.

(** [createNamedSchema]: the extracted set with the entry's own name
    deleted. *)
Definition createNamedSchema (name : string) (schema : SchemaIR)
    (category : option SchemaCategory) : NamedSchemaIR :=
  let dependencies := extractDependencies schema in
  let dependencies := JsSet.delete name dependencies in
  {| name := name; schema := schema;
     dependencies := dependencies; category := category |}.

Definition makeNullable (schema : SchemaIR) : SchemaIR :=
  UnionSchema None [schema; NullSchema None].

Definition makeNullish (schema : SchemaIR) : SchemaIR :=
  UnionSchema None [schema; NullSchema None; UndefinedSchema None].

(** The specification's reading of "a [ref] node structurally reachable
    within the schema": through object property schemas, a schema-valued
    [additionalProperties], array items, tuple items, record key and value
    types, and union / intersection members. *)
Inductive RefReachable : SchemaIR → string → Prop :=
| Reach_ref d n :
    RefReachable (RefSchema d n) n
| Reach_property d props ap k p n :
    (k, p) ∈ props → RefReachable (prop_schema p) n →
    RefReachable (ObjectSchema d props ap) n
| Reach_additional d props s n :
    RefReachable s n →
    RefReachable (ObjectSchema d props (Some (AdditionalSchema s))) n
| Reach_array d s n :
    RefReachable s n → RefReachable (ArraySchema d s) n
| Reach_tuple d l s n :
    s ∈ l → RefReachable s n → RefReachable (TupleSchema d l) n
| Reach_record_key d k v n :
    RefReachable k n → RefReachable (RecordSchema d k v) n
| Reach_record_value d k v n :
    RefReachable v n → RefReachable (RecordSchema d k v) n
| Reach_union d l s n :
    s ∈ l → RefReachable s n → RefReachable (UnionSchema d l) n
| Reach_intersection d l s n :
    s ∈ l → RefReachable s n → RefReachable (IntersectionSchema d l) n.

(** What one visit adds to the set. *)
Definition visit_adds (s : SchemaIR) : Prop :=
  ∀ (deps : JsSet.t) (n : string),
    n ∈ extractDependencies_visit s deps ↔ n ∈ deps ∨ RefReachable s n.

(** The set stays duplicate-free. *)
Definition visit_NoDup (s : SchemaIR) : Prop :=
  ∀ deps : JsSet.t, NoDup deps → NoDup (extractDependencies_visit s deps).

(* ===================================================================== *)
(** * Topological sort ([ir/utils.ts], [topologicalSortSchemas]) *)
(* ===================================================================== *)

(** The three mutable locals of [topologicalSortSchemas] that the inner
    [visit] closes over. *)
Record SortState := mkSortState {
  result : list NamedSchemaIR;
  visited : gset string;
  visiting : gset string;
}.

Definition initialState : SortState :=
  {| result := []; visited := ∅; visiting := ∅ |}.

(** [for (const schema of schemas) schemaMap.set(schema.name, schema)]:
    a later entry overwrites an earlier one of the same name. *)
Definition buildSchemaMap (schemas : list NamedSchemaIR)
    : gmap string NamedSchemaIR :=
  foldl (λ m s, <[name s := s]> m) ∅ schemas.

(** A [for ... of] loop over [l] whose body threads the state and may fail
    to return. *)
Fixpoint forOf {A S : Type} (body : A → S → option S) (l : list A) (st : S)
    : option S :=
  match l with
  | [] => Some st
  | x :: l' =>
      match body x st with
      | Some st' => forOf body l' st'
      | None => None
      end
  end.

(** The inner [visit].  The recursion of the source is not structural; [fuel]
    bounds its depth and [None] means the bound was hit (no result).  That a
    bound of [S (length schemas)] is never hit is proved below
    ([visit_total], [topologicalSortSchemas_total]). *)
Fixpoint visit (fuel : nat) (schemaMap : gmap string NamedSchemaIR)
    (name : string) (st : SortState) : option SortState :=
  match fuel with
  | 0 => None
  | S fuel =>
      if bool_decide (name ∈ visited st) then Some st
      else if bool_decide (name ∈ visiting st) then
        (* Cycle detected - just return *)
        Some st
      else
        match schemaMap !! name with
        | None => Some st
        | Some schema =>
            let st := {| result := result st;
                         visited := visited st;
                         visiting := {[name]} ∪ visiting st |} in
            match forOf (λ dep st,
                           if bool_decide (is_Some (schemaMap !! dep))
                           then visit fuel schemaMap dep st
                           else Some st)
                        (dependencies schema) st with
            | None => None
            | Some st =>
                Some {| result := result st ++ [schema];
                        visited := {[name]} ∪ visited st;
                        visiting := visiting st ∖ {[name]} |}
            end
        end
  end.

(** The final loop of [topologicalSortSchemas], from any state. *)
Definition visitAll (fuel : nat) (schemaMap : gmap string NamedSchemaIR)
    (names : list string) (st : SortState) : option SortState :=
  forOf (visit fuel schemaMap) names st.

Definition topologicalSortSchemas (schemas : list NamedSchemaIR)
    : option (list NamedSchemaIR) :=
  let schemaMap := buildSchemaMap schemas in
  result <$> visitAll (S (length schemas)) schemaMap (name <$> schemas)
               initialState.

(** ** Vocabulary for the ordering properties *)

(** [x] lists [y] among its dependencies and both are entries of the map:
    the edges that [visit] follows. *)
Definition dependsOn (schemaMap : gmap string NamedSchemaIR) (x y : string)
    : Prop :=
  ∃ e, schemaMap !! x = Some e ∧ y ∈ dependencies e ∧ is_Some (schemaMap !! y).

(** A dependency cycle through both names. *)
Definition cycleBetween (schemaMap : gmap string NamedSchemaIR) (x y : string)
    : Prop :=
  tc (dependsOn schemaMap) x y ∧ tc (dependsOn schemaMap) y x.

(** [a] occurs at an earlier position of [l] than [b]. *)
Definition before {A : Type} (l : list A) (a b : A) : Prop :=
  ∃ i j, i < j ∧ l !! i = Some a ∧ l !! j = Some b.

(** Every entry of [l] has each of its known dependencies either emitted
    earlier ([seen], or earlier in [l]) or on a dependency path back to it. *)
Fixpoint ordered (schemaMap : gmap string NamedSchemaIR) (seen : gset string)
    (l : list NamedSchemaIR) : Prop :=
  match l with
  | [] => True
  | a :: l' =>
      (∀ d, d ∈ dependencies a → is_Some (schemaMap !! d) →
            d ∈ seen ∨ rtc (dependsOn schemaMap) d (name a))
      ∧ ordered schemaMap ({[name a]} ∪ seen) l'
  end.

(** What a terminated call of [visit] (or a loop of such calls) has done to
    the state: appended [new] to the result, marked its names visited and
    left [visiting] as it was. *)
Record Extends (schemaMap : gmap string NamedSchemaIR) (root : string)
    (st st' : SortState) (new : list NamedSchemaIR) : Prop := {
  ext_result : result st' = result st ++ new;
  ext_visited : visited st' = visited st ∪ list_to_set (name <$> new);
  ext_visiting : visiting st' = visiting st;
  ext_entries :
    Forall (λ e, schemaMap !! name e = Some e ∧ (name e ∉ visited st) ∧
                 (name e ∉ visiting st) ∧
                 rtc (dependsOn schemaMap) root (name e)) new;
  ext_NoDup : NoDup (name <$> new);
  ext_ordered :
    (∀ v, v ∈ visiting st → rtc (dependsOn schemaMap) v root) →
    ordered schemaMap (visited st) new;
}.

(** What one call [visit fuel m name st] guarantees. *)
Definition visit_ok (m : gmap string NamedSchemaIR) (fuel : nat) : Prop :=
  ∀ (name : string) (st : SortState),
    size (dom m ∖ visiting st) < fuel →
    ∃ st' new,
      visit fuel m name st = Some st' ∧
      Extends m name st st' new ∧
      (is_Some (m !! name) → name ∉ visiting st → name ∈ visited st').

(** The state between two iterations of the final loop, after the names
    [roots] have been visited. *)
Record TopInv (schemaMap : gmap string NamedSchemaIR) (roots : list string)
    (st : SortState) : Prop := {
  top_visiting : visiting st = ∅;
  top_visited : visited st = list_to_set (name <$> result st);
  top_NoDup : NoDup (name <$> result st);
  top_entries :
    Forall (λ e, schemaMap !! name e = Some e ∧
                 ∃ r, r ∈ roots ∧ rtc (dependsOn schemaMap) r (name e))
           (result st);
  top_ordered : ordered schemaMap ∅ (result st);
  top_roots : ∀ r, r ∈ roots → is_Some (schemaMap !! r) → r ∈ visited st;
}.

(** ** The specification's statements about the sort, as predicates *)


(** ** Entries of the specification's scenarios *)

Definition plainString : SchemaIR := StringSchema None None None None None.

(** [A] referencing [B], and [B] with no dependencies. *)
Definition entryA : NamedSchemaIR :=
  createNamedSchema "A" (RefSchema None "B") None.
Definition entryB : NamedSchemaIR :=
  createNamedSchema "B" plainString None.

(** Mutually recursive [A → ref B] and [B → ref A]. *)
Definition mutualA : NamedSchemaIR :=
  createNamedSchema "A" (RefSchema None "B") None.
Definition mutualB : NamedSchemaIR :=
  createNamedSchema "B" (RefSchema None "A") None.

(** [User] depends on [Tag]; [Pet] and [Tag] are unrelated. *)
Definition entryUser : NamedSchemaIR :=
  createNamedSchema "User"
    (ObjectSchema None
       [("tags", ObjectProperty (ArraySchema None (RefSchema None "Tag"))
                   true None)] None) None.
Definition entryPet : NamedSchemaIR :=
  createNamedSchema "Pet" plainString None.
Definition entryTag : NamedSchemaIR :=
  createNamedSchema "Tag" plainString None.

(* ===================================================================== *)
(** * The emitter registry ([emitters/index.ts], [emitters/types.ts]) *)
(* ===================================================================== *)

(** The [Emitter] interface.  The registry stores emitter objects and reads
    none of their members; [emit], whose implementations are outside the
    sources at hand, is left out of the record. *)
Record Emitter := mkEmitter {
  library : string;
  getImportStatement : string;
  getTypeInference : string → string → string;
}.

(** What a call declared to return an [A] does: it returns an [A], it
    throws [new Error(message)], or it returns the member of
    [Object.prototype] named [key], which is no [A]. *)
Inductive Outcome (A : Type) : Type :=
| Returned (a : A)
| Thrown (message : string)
| ReturnedInherited (key : string).
Arguments Returned {A} a.
Arguments Thrown {A} message.
Arguments ReturnedInherited {A} key.

(** The own properties of an object literal, looked up by key, and
    [Object.keys(o)]. *)
Fixpoint getOwn {V : Type} (key : string) (o : list (string * V)) : option V :=
  match o with
  | [] => None
  | (k, v) :: o' => if String.eqb key k then Some v else getOwn key o'
  end.

Definition objectKeys {V : Type} (o : list (string * V)) : list string :=
  fst <$> o.

(** The string-keyed members of [Object.prototype], which an object
    literal inherits.  Every one of them is truthy: eleven are functions,
    and [__proto__] reads as [Object.prototype] itself. *)
Definition objectPrototypeKeys : list string :=
  ["constructor"; "__defineGetter__"; "__defineSetter__"; "hasOwnProperty";
   "__lookupGetter__"; "__lookupSetter__"; "isPrototypeOf";
   "propertyIsEnumerable"; "toString"; "valueOf"; "__proto__";
   "toLocaleString"].

(** What [o[key]] evaluates to on an object literal [o]: an own property,
    else a member of [Object.prototype], else [undefined]. *)
Inductive Property (V : Type) : Type :=
| OwnProperty (v : V)
| InheritedProperty (key : string)
| Undefined.
Arguments OwnProperty {V} v.
Arguments InheritedProperty {V} key.
Arguments Undefined {V}.

Definition getProperty {V : Type} (key : string) (o : list (string * V))
    : Property V :=
  match getOwn key o with
  | Some v => OwnProperty v
  | None =>
      if bool_decide (key ∈ objectPrototypeKeys) then InheritedProperty key
      else Undefined
  end.

(** The revision of [emitters/index.ts] with three validators, which goes
    with [ValidatorLibrary = "zod" | "valibot" | "arktype"] of
    [emitters/types.ts]. *)
Module Registry.

Section WithEmitters.

(** The emitter objects imported from [./zod], [./valibot],
    [./arktype]. *)
Variables zodEmitter valibotEmitter arktypeEmitter : Emitter.

Definition emitters : list (string * Emitter) :=
  [("zod", zodEmitter); ("valibot", valibotEmitter);
   ("arktype", arktypeEmitter)].

(** [emitters[library]] is falsy only when it is [undefined]: the emitter
    objects and the members of [Object.prototype] are all truthy. *)
Definition getEmitter (library : string) : Outcome Emitter :=
  match getProperty library emitters with
  | Undefined =>
      Thrown ("Unknown validator library: " +:+ library +:+
              ". Supported libraries: " +:+
              String.concat ", " (objectKeys emitters))
  | OwnProperty emitter => Returned emitter
  | InheritedProperty key => ReturnedInherited key
  end.

End WithEmitters.

Definition isValidatorLibrary (value : string) : bool :=
  String.eqb value "zod" || String.eqb value "valibot"
  || String.eqb value "arktype".

Definition supportedValidators : list string :=
  ["zod"; "valibot"; "arktype"].

End Registry.

(** The later revision of [emitters/index.ts], which adds [effect]. *)
Module RegistryWithEffect.

Section WithEmitters.

Variables zodEmitter valibotEmitter arktypeEmitter effectEmitter : Emitter.

Definition emitters : list (string * Emitter) :=
  [("zod", zodEmitter); ("valibot", valibotEmitter);
   ("arktype", arktypeEmitter); ("effect", effectEmitter)].

(** [emitters[library]] is falsy only when it is [undefined]: the emitter
    objects and the members of [Object.prototype] are all truthy. *)
Definition getEmitter (library : string) : Outcome Emitter :=
  match getProperty library emitters with
  | Undefined =>
      Thrown ("Unknown validator library: " +:+ library +:+
              ". Supported libraries: " +:+
              String.concat ", " (objectKeys emitters))
  | OwnProperty emitter => Returned emitter
  | InheritedProperty key => ReturnedInherited key
  end.

End WithEmitters.

Definition isValidatorLibrary (value : string) : bool :=
  String.eqb value "zod" || String.eqb value "valibot"
  || String.eqb value "arktype" || String.eqb value "effect".

Definition supportedValidators : list string :=
  ["zod"; "valibot"; "arktype"; "effect"].

End RegistryWithEffect.

(** "The set of supported validator-library identifiers is exactly [ids]":
    the predicate accepts precisely [ids], the list holds precisely [ids],
    and the lookup succeeds for each of them. *)
Definition supportsExactly (ids : list string) (isValid : string → bool)
    (supported : list string) (get : string → Outcome Emitter) : Prop :=
  (∀ v, isValid v = true ↔ v ∈ ids) ∧
  supported ≡ₚ ids ∧
  (∀ v, v ∈ ids → ∃ e, get v = Returned e).

(** Modelled from the spec: the emitter objects of [./zod], [./valibot] and
    [./arktype] are not among the sources; their [library] identifiers,
    import statements and type-inference lines are those the specification
    and the emitter tests give. *)
Definition zodEmitter : Emitter :=
  {| library := "zod";
     getImportStatement :=
       "import * as z from " +:+ doubleQuote +:+ "zod" +:+ doubleQuote;
     getTypeInference schemaVarName typeName :=
       "export type " +:+ typeName +:+ " = z.infer<typeof " +:+
       schemaVarName +:+ ">" |}.

Definition valibotEmitter : Emitter :=
  {| library := "valibot";
     getImportStatement :=
       "import * as v from " +:+ doubleQuote +:+ "valibot" +:+ doubleQuote;
     getTypeInference schemaVarName typeName :=
       "export type " +:+ typeName +:+ " = v.InferOutput<typeof " +:+
       schemaVarName +:+ ">" |}.

Definition arktypeEmitter : Emitter :=
  {| library := "arktype";
     getImportStatement :=
       "import { type } from " +:+ doubleQuote +:+ "arktype" +:+ doubleQuote;
     getTypeInference schemaVarName typeName :=
       "export type " +:+ typeName +:+ " = typeof " +:+
       schemaVarName +:+ ".infer" |}.

(** ** Inputs with colliding names *)

(** The last input entry bearing the name [n]. *)
Definition lastBearing (schemas : list NamedSchemaIR) (n : string)
    : option NamedSchemaIR :=
  last (filter (λ s, name s = n) schemas).

(** The names of [names] at their first occurrence, those in [seen]
    counting as met before. *)
Fixpoint firstOccurrences (seen : gset string) (names : list string)
    : list string :=
  match names with
  | [] => []
  | n :: ns =>
      if bool_decide (n ∈ seen) then firstOccurrences seen ns
      else n :: firstOccurrences ({[n]} ∪ seen) ns
  end.

(** The input with its collisions resolved: each name once, at the position
    of its first occurrence, carrying the last entry that bears it. *)
Definition collapse (schemas : list NamedSchemaIR) : list NamedSchemaIR :=
  omap (lastBearing schemas) (firstOccurrences ∅ (name <$> schemas)).

(** [A] twice, the second one with a different schema, around [B]. *)
Definition earlierA : NamedSchemaIR :=
  createNamedSchema "A" plainString None.
Definition laterA : NamedSchemaIR :=
  createNamedSchema "A" (BooleanSchema None) None.

(* ===================================================================== *)
(** * Optional and nullish, from the source formats to emitted Zod code *)
(* ===================================================================== *)

(** [ModifiedSchemaIR] ([ir/types.ts]); an absent flag is [false]. *)
Record ModifiedSchemaIR := mkModifiedSchemaIR {
  modified_schema : SchemaIR;
  nullable : bool;
  optional : bool;
  nullish : bool;
}.

(** Modelled from the spec: the GraphQL parser ([ir/graphql.ts]) is not among
    the sources.  "Absence of the non-null wrapper makes the field ...
    optional+nullish in operation-variable/input contexts." *)
Definition graphqlInputField (schema : SchemaIR) (nonNull : bool)
    : ModifiedSchemaIR :=
  {| modified_schema := schema; nullable := false;
     optional := negb nonNull; nullish := negb nonNull |}.

(** Modelled from the spec: the OpenAPI parser ([ir/openapi.ts]) is not among
    the sources.  "Path/query parameters with [required: false] become
    optional (not nullish) unless the parameter schema itself is separately
    nullable." *)
Definition openapiParameter (schema : SchemaIR) (required isNullable : bool)
    : ModifiedSchemaIR :=
  {| modified_schema := schema; nullable := isNullable;
     optional := negb required; nullish := false |}.

(** Modelled from the spec: the collapse of the wrapper into an object
    property, which is part of the absent parsers.  "Nullable → union with
    [null]; optional → consuming object property's [required: false];
    nullish → union with both [null] and [undefined]." *)
Definition resolveProperty (m : ModifiedSchemaIR) : ObjectPropertyIR :=
  ObjectProperty
    (if nullish m then makeNullish (modified_schema m)
     else if nullable m then makeNullable (modified_schema m)
     else modified_schema m)
    (negb (optional m))
    None.

(** Modelled from the spec: the Zod emitter ([emitters/zod.ts]) is not among
    the sources.  "Object optional prop: [.nullish()] suffix on value
    schema"; the emitter test expects [email: z.string().nullish()] for a
    property with [required: false]. *)
Definition zodPropertyWrapper (p : ObjectPropertyIR) : string :=
  if prop_required p then "" else ".nullish()".

(** Modelled from the spec: one property line of an emitted Zod object, the
    key quoted when it is no identifier, over the emitter's per-kind
    rendering [emitSchema] of the value schema. *)
Definition zodPropertyLine (emitSchema : SchemaIR → string) (key : string)
    (p : ObjectPropertyIR) : string :=
  getSafePropertyName key +:+ ": " +:+ emitSchema (prop_schema p) +:+
  zodPropertyWrapper p.

(** "A GraphQL input field without non-null wrapper emits as nullish; an
    OpenAPI parameter with [required: false] and no [nullable] emits as
    optional only (no null-accepting wrapper)." *)
Definition keepsOptionalDistinct : Prop :=
  (∀ schema,
     zodPropertyWrapper (resolveProperty (graphqlInputField schema false))
     = ".nullish()") ∧
  (∀ schema,
     zodPropertyWrapper
       (resolveProperty (openapiParameter schema false false))
     = "").

Definition integerSchema : SchemaIR :=
  NumberSchema None (Some true) None None.

(* ===================================================================== *)
(** * Vocabulary for the further properties *)
(* ===================================================================== *)

(** The string holds none of the separators [-] and [_]. *)
Definition separatorFree (s : string) : bool :=
  allChars (λ c, negb (Char.isSeparator c)) s.

(** Every character of the string is an ASCII character. *)
Definition isAscii (s : string) : bool :=
  allChars (λ c, Char.code c <? 128) s.

(** The identifier starts with an underscore followed by a digit. *)
Definition startsWithUnderscoreDigit (s : string) : bool :=
  match s with
  | String c (String d _) => (c =? "_")%char && Char.isDigit d
  | _ => false
  end.

(** The names of the [ref] nodes of a schema in the order in which the
    traversal of [extractDependencies] meets them, repetitions included. *)
Fixpoint refNames (s : SchemaIR) : list string :=
  match s with
  | RefSchema _ name => [name]
  | ObjectSchema _ properties additionalProperties =>
      (fix values (ps : list (string * ObjectPropertyIR)) : list string :=
         match ps with
         | [] => []
         | (_, ObjectProperty schema _ _) :: ps' =>
             refNames schema ++ values ps'
         end) properties
      ++ match additionalProperties with
         | Some (AdditionalSchema s') => refNames s'
         | _ => []
         end
  | ArraySchema _ items => refNames items
  | TupleSchema _ items =>
      (fix each (l : list SchemaIR) : list string :=
         match l with
         | [] => []
         | item :: l' => refNames item ++ each l'
         end) items
  | RecordSchema _ keyType valueType => refNames keyType ++ refNames valueType
  | UnionSchema _ members
  | IntersectionSchema _ members =>
      (fix each (l : list SchemaIR) : list string :=
         match l with
         | [] => []
         | member :: l' => refNames member ++ each l'
         end) members
  | _ => []
  end.

(** What one visit appends to the set. *)
Definition visit_appends (s : SchemaIR) : Prop :=
  ∀ deps : JsSet.t,
    extractDependencies_visit s deps
    = deps ++ firstOccurrences (list_to_set deps) (refNames s).

(** Every dependency that names an input entry stands earlier in the
    input than the entry that lists it. *)
Definition dependencyOrdered (schemas : list NamedSchemaIR) : Prop :=
  ∀ i a d,
    schemas !! i = Some a → d ∈ dependencies a → d ∈ name <$> schemas →
    d ∈ name <$> take i schemas.

(** No entry depends, directly or transitively, on itself. *)
Definition acyclic (schemaMap : gmap string NamedSchemaIR) : Prop :=
  ∀ x, ¬ tc (dependsOn schemaMap) x x.

(* ===================================================================== *)
(** * JavaScript string methods used by the parameter analysis *)
(* ===================================================================== *)

Module Js.

(** The first [n] characters, and the string without them. *)
Fixpoint take (n : nat) (s : string) : string :=
  match n, s with
  | S n', String c rest => String c (take n' rest)
  | _, _ => EmptyString
  end.

Fixpoint drop (n : nat) (s : string) : string :=
  match n, s with
  | S n', String _ rest => drop n' rest
  | _, _ => s
  end.

(** [s.startsWith(prefix)] *)
Fixpoint startsWith (s prefix : string) : bool :=
  match prefix, s with
  | EmptyString, _ => true
  | String p prefix', String c rest => (c =? p)%char && startsWith rest prefix'
  | String _ _, EmptyString => false
  end.

(** [s.endsWith(suffix)] *)
Definition endsWith (s suffix : string) : bool :=
  (String.length suffix <=? String.length s)
  && String.eqb (drop (String.length s - String.length suffix) s) suffix.

(** [s.includes(sub)] *)
Fixpoint includes (s sub : string) : bool :=
  startsWith s sub
  || match s with
     | EmptyString => false
     | String _ rest => includes rest sub
     end.

(** [s.slice(0, -k)] *)
Definition sliceFromEnd (s : string) (k : nat) : string :=
  match k with
  | 0 => EmptyString
  | S _ => take (String.length s - k) s
  end.

(** [array.includes(x)] and [set.has(x)] on strings. *)
Definition has (x : string) (l : list string) : bool :=
  existsb (String.eqb x) l.

(** Truthiness of a [string | undefined]. *)
Definition truthy (o : option string) : bool :=
  match o with
  | Some (String _ _) => true
  | _ => false
  end.

End Js.

(* ===================================================================== *)
(** * OpenAPI parameter analysis ([adapters/openapi/analysis.ts]) *)
(* ===================================================================== *)

Module OpenApiAnalysis.

(** The part of an OpenAPI [ParameterObject] that the analysis reads. *)
Record ParameterObject := mkParameterObject {
  name : string;
  in_ : string;
}.

Definition restSimpleOperatorSuffixes : list string :=
  ["_eq"; "_ne"; "_lt"; "_lte"; "_gt"; "_gte"; "_in"; "_nin"; "_like";
   "_contains"].

Definition sortParamNames : list string :=
  ["sort"; "sortBy"; "sort_by"; "orderBy"; "order_by"; "$orderby"; "order"].

Definition limitParamNames : list string :=
  ["limit"; "$top"; "per_page"; "perPage"; "pageSize"].

Definition offsetParamNames : list string := ["offset"; "$skip"; "start"].

Definition pageParamNames : list string :=
  ["page"; "pageNumber"; "page_number"].

Definition cursorParamNames : list string := ["cursor"; "after"; "before"].

Record FilterCapabilities := mkFilterCapabilities {
  hasFiltering : bool;
  filterStyle : option string;
  filterParams : option (list string);
}.

Record SortCapabilities := mkSortCapabilities {
  hasSorting : bool;
  sortParam : option string;
}.

Record PaginationCapabilities := mkPaginationCapabilities {
  style : string;
  limitParam : option string;
  offsetParam : option string;
  pageParam : option string;
  perPageParam : option string;
}.

(** [[...sortParamNames, ...limitParamNames, ...offsetParamNames,
    ...pageParamNames, ...cursorParamNames]] *)
Definition knownNonFilterParams : list string :=
  sortParamNames ++ limitParamNames ++ offsetParamNames ++ pageParamNames
  ++ cursorParamNames.

Definition isJsonApiFilterParam (name : string) : bool :=
  Js.startsWith name "filter[" && Js.endsWith name "]".

Definition hasOperatorSuffix (name : string) : bool :=
  existsb (λ suffix, Js.endsWith name suffix) restSimpleOperatorSuffixes.

Definition isPotentialFilterParam (name : string) : bool :=
  negb (Js.has (toLowerCase name) knownNonFilterParams)
  && negb (Js.startsWith name "$")
  && negb (Js.includes name "[").

Definition analyzeFilterCapabilities (queryParams : list ParameterObject)
    : FilterCapabilities :=
  let paramNames := name <$> queryParams in
  let jsonApiFilterParams :=
    base.filter (λ name, isJsonApiFilterParam name = true) paramNames in
  if 0 <? length jsonApiFilterParams then
    {| hasFiltering := true; filterStyle := Some "jsonapi";
       filterParams := Some jsonApiFilterParams |}
  else
    let restSimpleFilterParams :=
      base.filter (λ name, hasOperatorSuffix name = true) paramNames in
    if 0 <? length restSimpleFilterParams then
      {| hasFiltering := true; filterStyle := Some "rest-simple";
         filterParams := Some restSimpleFilterParams |}
    else
      let potentialFilterParams :=
        base.filter (λ name, isPotentialFilterParam name = true) paramNames in
      if 0 <? length potentialFilterParams then
        {| hasFiltering := true; filterStyle := Some "rest-simple";
           filterParams := Some potentialFilterParams |}
      else
        {| hasFiltering := false; filterStyle := None;
           filterParams := None |}.

Definition detectFilterStyle (paramNames : list string) : option string :=
  if existsb (λ name, Js.startsWith name "filter[") paramNames then
    Some "jsonapi"
  else if existsb hasOperatorSuffix paramNames then Some "rest-simple"
  else if existsb isPotentialFilterParam paramNames then Some "rest-simple"
  else None.

(** The [for (const sortName of sortParamNames)] loop. *)
Fixpoint analyzeSortCapabilities_loop (queryParams : list ParameterObject)
    (paramNames : list string) (sortNames : list string) : SortCapabilities :=
  match sortNames with
  | [] => {| hasSorting := false; sortParam := None |}
  | sortName :: sortNames' =>
      if Js.has (toLowerCase sortName) paramNames then
        let originalParam :=
          List.find (λ p, String.eqb (toLowerCase (name p))
                                     (toLowerCase sortName)) queryParams in
        {| hasSorting := true;
           sortParam :=
             Some (if Js.truthy (name <$> originalParam)
                   then default sortName (name <$> originalParam)
                   else sortName) |}
      else analyzeSortCapabilities_loop queryParams paramNames sortNames'
  end.

Definition analyzeSortCapabilities (queryParams : list ParameterObject)
    : SortCapabilities :=
  let paramNames := (λ p, toLowerCase (name p)) <$> queryParams in
  analyzeSortCapabilities_loop queryParams paramNames sortParamNames.

(** [new Map(pairs)]: a later pair overwrites an earlier one of its key. *)
Definition newMap (pairs : list (string * string)) : gmap string string :=
  foldl (λ m kv, <[kv.1 := kv.2]> m) ∅ pairs.

Fixpoint findParam (lowerCaseNames : list string)
    (originalNames : gmap string string) (possibleNames : list string)
    : option string :=
  match possibleNames with
  | [] => None
  | name :: possibleNames' =>
      let lowerName := toLowerCase name in
      if Js.has lowerName lowerCaseNames then originalNames !! lowerName
      else findParam lowerCaseNames originalNames possibleNames'
  end.

Definition analyzePaginationCapabilities (queryParams : list ParameterObject)
    : PaginationCapabilities :=
  let paramNames := (λ p, toLowerCase (name p)) <$> queryParams in
  let originalNames :=
    newMap ((λ p, (toLowerCase (name p), name p)) <$> queryParams) in
  if existsb (λ cursorName, Js.has (toLowerCase cursorName) paramNames)
       cursorParamNames
  then
    {| style := "cursor";
       limitParam := findParam paramNames originalNames limitParamNames;
       offsetParam := None; pageParam := None; perPageParam := None |}
  else
    let pageParam := findParam paramNames originalNames pageParamNames in
    if Js.truthy pageParam then
      {| style := "page";
         limitParam := None; offsetParam := None;
         pageParam := pageParam;
         perPageParam :=
           findParam paramNames originalNames
             ["per_page"; "perPage"; "pageSize"; "limit"] |}
    else
      let limitParam := findParam paramNames originalNames limitParamNames in
      let offsetParam :=
        findParam paramNames originalNames offsetParamNames in
      if Js.truthy limitParam || Js.truthy offsetParam then
        {| style := "offset";
           limitParam := limitParam; offsetParam := offsetParam;
           pageParam := None; perPageParam := None |}
      else
        {| style := "none";
           limitParam := None; offsetParam := None;
           pageParam := None; perPageParam := None |}.

(** Some parameter is named, up to case, like one of [names]. *)
Definition namedAmong (queryParams : list ParameterObject)
    (names : list string) : Prop :=
  ∃ p s, p ∈ queryParams ∧ s ∈ names
         ∧ toLowerCase (name p) = toLowerCase s.

(** [v] is the name of a parameter, and no parameter before it has the
    same name up to case. *)
Definition firstOfItsName (queryParams : list ParameterObject)
    (v : string) : Prop :=
  ∃ l1 p l2, queryParams = l1 ++ p :: l2 ∧ name p = v
             ∧ Forall (λ q, toLowerCase (name q) ≠ toLowerCase v) l1.

(** [v] is the name of a parameter, and no parameter after it has the
    same name up to case. *)
Definition lastOfItsName (queryParams : list ParameterObject)
    (v : string) : Prop :=
  ∃ l1 p l2, queryParams = l1 ++ p :: l2 ∧ name p = v
             ∧ Forall (λ q, toLowerCase (name q) ≠ toLowerCase v) l2.

(** The maximal run of characters other than []] at the start of [s]
    (the greedy [[^\]]+]), and what follows it. *)
Fixpoint untilBracket (s : string) : string * string :=
  match s with
  | EmptyString => (EmptyString, EmptyString)
  | String c rest =>
      if (c =? "]")%char then (EmptyString, s)
      else let '(run, after) := untilBracket rest in (String c run, after)
  end.

(** One bracketed group [X([^\]]+)\]] after the opening text [X]: the
    captured text and the rest of the string. *)
Definition bracketGroup (opening s : string) : option (string * string) :=
  if Js.startsWith s opening then
    let '(run, after) := untilBracket (Js.drop (String.length opening) s) in
    match run, after with
    | String _ _, String _ after' => Some (run, after')
    | _, _ => None
    end
  else None.

(** [paramName.match(/^filter\[([^\]]+)\]/)?.[1] ?? null] *)
Definition extractJsonApiFilterField (paramName : string) : option string :=
  fst <$> bracketGroup "filter[" paramName.

(** [paramName.match(/^filter\[[^\]]+\]\[([^\]]+)\]/)?.[1] ?? null] *)
Definition extractJsonApiFilterOperator (paramName : string)
    : option string :=
  match bracketGroup "filter[" paramName with
  | Some (_, after) => fst <$> bracketGroup "[" after
  | None => None
  end.

(** The [for (const suffix of restSimpleOperatorSuffixes)] loop. *)
Fixpoint extractRestSimpleFilter_loop (paramName : string)
    (suffixes : list string) : string * string :=
  match suffixes with
  | [] => (paramName, "eq")
  | suffix :: suffixes' =>
      if Js.endsWith paramName suffix then
        (Js.sliceFromEnd paramName (String.length suffix), Js.drop 1 suffix)
      else extractRestSimpleFilter_loop paramName suffixes'
  end.

(** The result as the pair [(field, operator)]. *)
Definition extractRestSimpleFilter (paramName : string) : string * string :=
  extractRestSimpleFilter_loop paramName restSimpleOperatorSuffixes.

Record QueryCapabilities := mkQueryCapabilities {
  filter : FilterCapabilities;
  sort : SortCapabilities;
  pagination : PaginationCapabilities;
}.

Definition analyzeQueryParameters (queryParams : list ParameterObject)
    : QueryCapabilities :=
  {| filter := analyzeFilterCapabilities queryParams;
     sort := analyzeSortCapabilities queryParams;
     pagination := analyzePaginationCapabilities queryParams |}.

Definition hasQueryCapabilities (capabilities : QueryCapabilities) : bool :=
  hasFiltering (filter capabilities)
  || hasSorting (sort capabilities)
  || negb (String.eqb (style (pagination capabilities)) "none").

End OpenApiAnalysis.


(** * GraphQL argument analysis ([adapters/graphql/analysis.ts]) *)

Module GraphQLAnalysis.

(** The part of graphql-js's input types that the analysis reads: the two
    wrappers, input object types with their name and the keys of
    [getFields()], and the other named types (scalars and enums). *)
Inductive GraphQLInputType :=
| GraphQLNonNull (ofType : GraphQLInputType)
| GraphQLList (ofType : GraphQLInputType)
| GraphQLInputObjectType (typeName : string) (fieldNames : list string)
| GraphQLNamedType (typeName : string).

Record GraphQLArgument := mkGraphQLArgument {
  name : string;
  type : GraphQLInputType;
}.

(** Each pattern [/suffix$/] is kept as its suffix; [pattern.test] is
    then [endsWith]. *)
Definition hasuraFilterPatterns : list string := ["_bool_exp"; "_where"].

Definition hasuraFilterFields : list string :=
  ["_eq"; "_neq"; "_lt"; "_lte"; "_gt"; "_gte"; "_in"; "_nin"; "_and"; "_or";
   "_not"].

Definition prismaFilterPatterns : list string :=
  ["WhereInput"; "WhereUniqueInput"].

Definition prismaFilterFields : list string :=
  ["equals"; "not"; "in"; "notIn"; "lt"; "lte"; "gt"; "gte"; "contains";
   "startsWith"; "endsWith"].

Definition hasuraOrderByPatterns : list string := ["_order_by"].

Definition prismaOrderByPatterns : list string :=
  ["OrderByInput"; "OrderByWithRelationInput"].

Definition filterArgNames : list string := ["where"; "filter"; "filters"].

Definition sortArgNames : list string :=
  ["order_by"; "orderBy"; "sort"; "sortBy"].

Definition limitArgNames : list string := ["limit"; "first"; "take"].

Definition offsetArgNames : list string := ["offset"; "skip"].

Record FilterCapabilities := mkFilterCapabilities {
  hasFiltering : bool;
  filterStyle : option string;
  filterInputType : option string;
}.

Record SortCapabilities := mkSortCapabilities {
  hasSorting : bool;
  sortParam : option string;
  orderByInputType : option string;
}.

Record PaginationCapabilities := mkPaginationCapabilities {
  style : string;
  limitParam : option string;
  offsetParam : option string;
}.

(** [patterns.some((pattern) => pattern.test(typeName))] *)
Definition somePatternTests (patterns : list string) (typeName : string)
    : bool :=
  existsb (λ pattern, Js.endsWith typeName pattern) patterns.

Fixpoint unwrapType (type : GraphQLInputType) : GraphQLInputType :=
  match type with
  | GraphQLNonNull ofType => unwrapType ofType
  | GraphQLList ofType => unwrapType ofType
  | _ => type
  end.

(** [detectFilterStyle] of the input object type with this name and these
    field names. *)
Definition detectFilterStyle (typeName : string) (fieldNames : list string)
    : string :=
  if somePatternTests hasuraFilterPatterns typeName then "hasura"
  else if existsb (λ field, Js.has field fieldNames) hasuraFilterFields
  then "hasura"
  else if somePatternTests prismaFilterPatterns typeName then "prisma"
  else if existsb (λ field, Js.has field fieldNames) prismaFilterFields
  then "prisma"
  else "custom".

Definition detectFilterStyleFromTypeName (typeName : string)
    : option string :=
  if somePatternTests hasuraFilterPatterns typeName then Some "hasura"
  else if somePatternTests prismaFilterPatterns typeName then Some "prisma"
  else None.

Definition detectOrderByStyle (typeName : string) : option string :=
  if somePatternTests hasuraOrderByPatterns typeName then Some "hasura"
  else if somePatternTests prismaOrderByPatterns typeName then Some "prisma"
  else None.

(** [args.find((a) => a.name.toLowerCase() === argName.toLowerCase())] *)
Definition findArg (args : list GraphQLArgument) (argName : string)
    : option GraphQLArgument :=
  List.find (λ a, String.eqb (toLowerCase (name a)) (toLowerCase argName))
    args.

(** The [for (const argName of filterArgNames)] loop. *)
Fixpoint analyzeFilterCapabilities_loop (args : list GraphQLArgument)
    (argNames : list string) : FilterCapabilities :=
  match argNames with
  | [] => {| hasFiltering := false; filterStyle := None;
             filterInputType := None |}
  | argName :: argNames' =>
      match findArg args argName with
      | Some filterArg =>
          match unwrapType (type filterArg) with
          | GraphQLInputObjectType typeName fieldNames =>
              {| hasFiltering := true;
                 filterStyle := Some (detectFilterStyle typeName fieldNames);
                 filterInputType := Some typeName |}
          | _ => analyzeFilterCapabilities_loop args argNames'
          end
      | None => analyzeFilterCapabilities_loop args argNames'
      end
  end.

Definition analyzeFilterCapabilities (args : list GraphQLArgument)
    : FilterCapabilities :=
  analyzeFilterCapabilities_loop args filterArgNames.

(** The [for (const argName of sortArgNames)] loop. *)
Fixpoint analyzeSortCapabilities_loop (args : list GraphQLArgument)
    (argNames : list string) : SortCapabilities :=
  match argNames with
  | [] => {| hasSorting := false; sortParam := None;
             orderByInputType := None |}
  | argName :: argNames' =>
      match findArg args argName with
      | Some sortArg =>
          {| hasSorting := true;
             sortParam := Some (name sortArg);
             orderByInputType :=
               match unwrapType (type sortArg) with
               | GraphQLInputObjectType typeName _ => Some typeName
               | _ => None
               end |}
      | None => analyzeSortCapabilities_loop args argNames'
      end
  end.

Definition analyzeSortCapabilities (args : list GraphQLArgument)
    : SortCapabilities :=
  analyzeSortCapabilities_loop args sortArgNames.

Definition findArgName (args : list GraphQLArgument) (argName : string)
    : option string :=
  name <$> findArg args argName.

Fixpoint findArgNameFromList_loop (args : list GraphQLArgument)
    (argNames : list string) (possibleNames : list string) : option string :=
  match possibleNames with
  | [] => None
  | possibleName :: possibleNames' =>
      let lowerName := toLowerCase possibleName in
      if Js.has lowerName argNames then
        name <$> List.find (λ a, String.eqb (toLowerCase (name a)) lowerName)
                   args
      else findArgNameFromList_loop args argNames possibleNames'
  end.

Definition findArgNameFromList (args : list GraphQLArgument)
    (possibleNames : list string) : option string :=
  let argNames := (λ a, toLowerCase (name a)) <$> args in
  findArgNameFromList_loop args argNames possibleNames.

Definition analyzePaginationCapabilities (args : list GraphQLArgument)
    : PaginationCapabilities :=
  let argNames := (λ a, toLowerCase (name a)) <$> args in
  let hasFirst := Js.has "first" argNames in
  let hasLast := Js.has "last" argNames in
  let hasAfter := Js.has "after" argNames in
  let hasBefore := Js.has "before" argNames in
  if (hasFirst || hasLast) && (hasAfter || hasBefore) then
    {| style := "relay";
       limitParam := if hasFirst then findArgName args "first"
                     else findArgName args "last";
       offsetParam := None |}
  else
    let hasTake := Js.has "take" argNames in
    let hasSkip := Js.has "skip" argNames in
    if hasTake || hasSkip then
      {| style := "offset";
         limitParam := findArgName args "take";
         offsetParam := findArgName args "skip" |}
    else
      let hasLimit :=
        existsb (λ n, Js.has (toLowerCase n) argNames) limitArgNames in
      let hasOffset :=
        existsb (λ n, Js.has (toLowerCase n) argNames) offsetArgNames in
      if hasLimit || hasOffset then
        {| style := "offset";
           limitParam := findArgNameFromList args limitArgNames;
           offsetParam := findArgNameFromList args offsetArgNames |}
      else
        {| style := "none"; limitParam := None; offsetParam := None |}.

(** Some argument is named, up to case, like one of [names]. *)
Definition namedAmong (args : list GraphQLArgument) (names : list string)
    : Prop :=
  ∃ a s, a ∈ args ∧ s ∈ names ∧ toLowerCase (name a) = toLowerCase s.

(** [v] is the name of an argument, and no argument before it has the
    same name up to case. *)
Definition firstOfItsName (args : list GraphQLArgument) (v : string) : Prop :=
  ∃ l1 a l2, args = l1 ++ a :: l2 ∧ name a = v
             ∧ Forall (λ b, toLowerCase (name b) ≠ toLowerCase v) l1.

(** Two argument lists that differ only in the [NonNull] and [List]
    wrappers of the argument types. *)
Definition sameUpToWrappers (args args' : list GraphQLArgument) : Prop :=
  Forall2 (λ a b, name a = name b
                  ∧ unwrapType (type a) = unwrapType (type b)) args args'.

Record QueryCapabilities := mkQueryCapabilities {
  filter : FilterCapabilities;
  sort : SortCapabilities;
  pagination : PaginationCapabilities;
}.

(** [analyzeGraphQLQueryCapabilities(field)] with [args = field.args]. *)
Definition analyzeGraphQLQueryCapabilities (args : list GraphQLArgument)
    : QueryCapabilities :=
  {| filter := analyzeFilterCapabilities args;
     sort := analyzeSortCapabilities args;
     pagination := analyzePaginationCapabilities args |}.

Definition hasQueryCapabilities (capabilities : QueryCapabilities) : bool :=
  hasFiltering (filter capabilities)
  || hasSorting (sort capabilities)
  || negb (String.eqb (style (pagination capabilities)) "none").

Definition inferPredicateMappingPreset (capabilities : QueryCapabilities)
    : option string :=
  if hasFiltering (filter capabilities)
     && Js.truthy (filterStyle (filter capabilities))
     && negb (bool_decide (filterStyle (filter capabilities) = Some "custom"))
  then filterStyle (filter capabilities)
  else if Js.truthy (orderByInputType (sort capabilities)) then
    let style :=
      detectOrderByStyle
        (default EmptyString (orderByInputType (sort capabilities))) in
    if Js.truthy style then style else None
  else None.

End GraphQLAnalysis.
(* ===================================================================== *)
(** * Facts about [JsSet] *)
(* ===================================================================== *)

Module JsSetFacts.

Lemma elem_of_add x y s : y ∈ JsSet.add x s ↔ y = x ∨ y ∈ s.
Proof.
  unfold JsSet.add, JsSet.has. case_bool_decide as Hx.
  - split; [auto | intros [-> | ?]; auto].
  - rewrite elem_of_app, list_elem_of_singleton. tauto.
Qed.

Lemma NoDup_add x s : NoDup s → NoDup (JsSet.add x s).
Proof.
  intros Hs. unfold JsSet.add, JsSet.has. case_bool_decide as Hx; [done |].
  apply NoDup_app. split_and!; [done | | apply NoDup_singleton].
  intros y Hy ->%list_elem_of_singleton. done.
Qed.

Lemma elem_of_delete x y s : y ∈ JsSet.delete x s ↔ y ∈ s ∧ y ≠ x.
Proof. unfold JsSet.delete. rewrite list_elem_of_filter. tauto. Qed.

Lemma NoDup_delete x s : NoDup s → NoDup (JsSet.delete x s).
Proof. apply NoDup_filter. Qed.

End JsSetFacts.

(** ** Facts about the traversal *)

Section ExtractDependencies_facts.

(** The two loops of the traversal, as folds. *)
Lemma visit_items_foldl (l : list SchemaIR) (deps : JsSet.t) :
  (fix each (l : list SchemaIR) (deps : JsSet.t) :=
     match l with
     | [] => deps
     | item :: l' => each l' (extractDependencies_visit item deps)
     end) l deps
  = foldl (λ d s, extractDependencies_visit s d) deps l.
Proof. revert deps. induction l as [|x l IH]; intros deps; simpl; auto. Qed.

Lemma visit_values_foldl (ps : list (string * ObjectPropertyIR))
    (deps : JsSet.t) :
  (fix values (ps : list (string * ObjectPropertyIR)) (deps : JsSet.t) :=
     match ps with
     | [] => deps
     | (_, ObjectProperty schema _ _) :: ps' =>
         values ps' (extractDependencies_visit schema deps)
     end) ps deps
  = foldl (λ d kp, extractDependencies_visit (prop_schema kp.2) d) deps ps.
Proof.
  revert deps. induction ps as [|[k [x r d]] ps IH]; intros deps; simpl; auto.
Qed.

Lemma foldl_visit_adds {A} (f : A → SchemaIR) (l : list A) :
  Forall (λ a, visit_adds (f a)) l →
  ∀ (deps : JsSet.t) (n : string),
    n ∈ foldl (λ d a, extractDependencies_visit (f a) d) deps l
    ↔ n ∈ deps ∨ ∃ a, a ∈ l ∧ RefReachable (f a) n.
Proof.
  induction 1 as [|a l Ha Hl IH]; intros deps n; simpl.
  - split; [auto | intros [? | (a & Ha & _)]; [done | inversion Ha]].
  - rewrite IH, (Ha deps n). split.
    + intros [[? | ?] | (b & Hb & ?)]; eauto using list_elem_of_here,
        list_elem_of_further.
    + intros [? | (b & Hb & ?)]; [auto |].
      apply elem_of_cons in Hb as [-> | Hb]; eauto.
Qed.

Lemma extractDependencies_visit_adds (s : SchemaIR) : visit_adds s.
Proof.
  induction s using SchemaIR_nested_ind; intros deps x; simpl;
    try (split; [auto | intros [? | Hr]; [done | inversion Hr]]; fail).
  - (* object *)
    rewrite visit_values_foldl.
    pose proof (foldl_visit_adds (λ kp : string * ObjectPropertyIR,
                                    prop_schema kp.2) props H) as Hprops.
    destruct ap as [[b | s'] |].
    + rewrite Hprops. split.
      * intros [? | ([k p] & Hin & Hr)]; [auto | right].
        eapply Reach_property; eauto.
      * intros [? | Hr]; [auto | right]. inversion Hr; subst. eauto.
    + rewrite (H0 s' eq_refl _ _), Hprops. split.
      * intros [[? | ([k p] & Hin & Hr)] | Hr]; [auto | right | right].
        -- eapply Reach_property; eauto.
        -- by apply Reach_additional.
      * intros [? | Hr]; [auto |]. inversion Hr; subst; eauto.
    + rewrite Hprops. split.
      * intros [? | ([k p] & Hin & Hr)]; [auto | right].
        eapply Reach_property; eauto.
      * intros [? | Hr]; [auto | right]. inversion Hr; subst. eauto.
  - (* array *)
    rewrite (IHs _ _). split.
    + intros [? | ?]; [auto | right; by constructor].
    + intros [? | Hr]; [auto | right; by inversion Hr].
  - (* tuple *)
    rewrite visit_items_foldl, (foldl_visit_adds id l H). split.
    + intros [? | (s & Hin & Hr)]; [auto | right].
      eapply Reach_tuple; eauto.
    + intros [? | Hr]; [auto | right]. inversion Hr; subst. eauto.
  - (* record *)
    rewrite (IHs2 _ _), (IHs1 _ _). split.
    + intros [[? | ?] | ?]; [auto | right | right].
      * by apply Reach_record_key.
      * by apply Reach_record_value.
    + intros [? | Hr]; [auto |]. inversion Hr; subst; auto.
  - (* union *)
    rewrite visit_items_foldl, (foldl_visit_adds id l H). split.
    + intros [? | (s & Hin & Hr)]; [auto | right].
      eapply Reach_union; eauto.
    + intros [? | Hr]; [auto | right]. inversion Hr; subst. eauto.
  - (* intersection *)
    rewrite visit_items_foldl, (foldl_visit_adds id l H). split.
    + intros [? | (s & Hin & Hr)]; [auto | right].
      eapply Reach_intersection; eauto.
    + intros [? | Hr]; [auto | right]. inversion Hr; subst. eauto.
  - (* ref *)
    rewrite JsSetFacts.elem_of_add. split.
    + intros [-> | ?]; [right; constructor | auto].
    + intros [? | Hr]; [auto | left; by inversion Hr].
Qed.

Lemma foldl_visit_NoDup {A} (f : A → SchemaIR) (l : list A) :
  Forall (λ a, visit_NoDup (f a)) l →
  ∀ deps : JsSet.t, NoDup deps →
    NoDup (foldl (λ d a, extractDependencies_visit (f a) d) deps l).
Proof. induction 1 as [|a l Ha Hl IH]; intros deps Hd; simpl; auto. Qed.

Lemma extractDependencies_visit_NoDup (s : SchemaIR) : visit_NoDup s.
Proof.
  induction s using SchemaIR_nested_ind; intros deps Hd; simpl; auto.
  - rewrite visit_values_foldl.
    pose proof (foldl_visit_NoDup (λ kp : string * ObjectPropertyIR,
                                     prop_schema kp.2) props H deps Hd).
    destruct ap as [[b | s'] |]; auto. by apply (H0 s' eq_refl).
  - rewrite visit_items_foldl. by apply (foldl_visit_NoDup id).
  - rewrite visit_items_foldl. by apply (foldl_visit_NoDup id).
  - rewrite visit_items_foldl. by apply (foldl_visit_NoDup id).
  - by apply JsSetFacts.NoDup_add.
Qed.

End ExtractDependencies_facts.

(* ===================================================================== *)
(** * Facts about the topological sort *)
(* ===================================================================== *)

(** ** Loops and first occurrences *)

Lemma forOf_impl {A S : Type} (body1 body2 : A → S → option S) (l : list A) :
  (∀ x st r, x ∈ l → body1 x st = Some r → body2 x st = Some r) →
  ∀ st r, forOf body1 l st = Some r → forOf body2 l st = Some r.
Proof.
  induction l as [|x l IH]; intros Himpl st r; simpl; [done |].
  destruct (body1 x st) as [st1 |] eqn:H1; [| done].
  rewrite (Himpl x st st1 (list_elem_of_here _ _) H1).
  apply IH. intros y st' r' Hy. apply Himpl. by apply list_elem_of_further.
Qed.

Lemma elem_of_firstOccurrences (seen : gset string) (ns : list string)
    (n : string) :
  n ∈ firstOccurrences seen ns ↔ n ∈ ns ∧ n ∉ seen.
Proof.
  revert seen. induction ns as [|x ns IH]; intros seen; simpl.
  - rewrite elem_of_nil. tauto.
  - case_bool_decide as Hx.
    + rewrite IH, elem_of_cons. split; [tauto |].
      intros [[-> | ?] ?]; [done | tauto].
    + rewrite !elem_of_cons, IH, elem_of_union, elem_of_singleton.
      destruct (decide (n = x)) as [-> | ?]; tauto.
Qed.

Lemma NoDup_firstOccurrences (seen : gset string) (ns : list string) :
  NoDup (firstOccurrences seen ns).
Proof.
  revert seen. induction ns as [|x ns IH]; intros seen; simpl.
  - constructor.
  - case_bool_decide; [apply IH |]. apply NoDup_cons. split; [| apply IH].
    rewrite elem_of_firstOccurrences. set_solver.
Qed.

Lemma length_firstOccurrences (seen : gset string) (ns : list string) :
  length (firstOccurrences seen ns) ≤ length ns.
Proof.
  revert seen. induction ns as [|x ns IH]; intros seen; simpl; [done |].
  case_bool_decide; simpl; [specialize (IH seen) | specialize (IH ({[x]} ∪ seen))];
    lia.
Qed.

Section Sort_facts.

Variable m : gmap string NamedSchemaIR.

(** Every entry is stored under its own name. *)
Hypothesis m_wf : ∀ k e, m !! k = Some e → name e = k.

Lemma ordered_mono (seen seen' : gset string) (l : list NamedSchemaIR) :
  seen ⊆ seen' → ordered m seen l → ordered m seen' l.
Proof.
  revert seen seen'. induction l as [|a l IH]; intros seen seen' Hsub; simpl.
  - done.
  - intros [Ha Hl]. split.
    + intros d Hd Hm. destruct (Ha d Hd Hm); [left; set_solver | by right].
    + eapply IH; [| exact Hl]. set_solver.
Qed.

Lemma ordered_app (seen : gset string) (l1 l2 : list NamedSchemaIR) :
  ordered m seen (l1 ++ l2) ↔
  ordered m seen l1 ∧ ordered m (seen ∪ list_to_set (name <$> l1)) l2.
Proof.
  revert seen. induction l1 as [|a l1 IH]; intros seen; simpl.
  - split.
    + intros H. split; [done |]. eapply ordered_mono; [| exact H]. set_solver.
    + intros [_ H]. eapply ordered_mono; [| exact H]. set_solver.
  - rewrite IH. split.
    + intros (Ha & Hl1 & Hl2). split_and!; [done .. |].
      eapply ordered_mono; [| exact Hl2]. set_solver.
    + intros ((Ha & Hl1) & Hl2). split_and!; [done .. |].
      eapply ordered_mono; [| exact Hl2]. set_solver.
Qed.

Lemma Extends_refl (root : string) (st : SortState) : Extends m root st st [].
Proof.
  split; simpl; try done.
  - by rewrite app_nil_r.
  - set_solver.
  - constructor.
Qed.

(** A call made for a dependency of [parent] extends the state on behalf
    of [parent] as well. *)
Lemma Extends_reroot (parent dep : string) (st st' : SortState)
    (new : list NamedSchemaIR) :
  dependsOn m parent dep →
  Extends m dep st st' new → Extends m parent st st' new.
Proof.
  intros Hedge [Hr Hv Hg He Hn Ho]. split; try done.
  - eapply Forall_impl; [exact He |]. intros e (? & ? & ? & Hreach).
    split_and!; try done. by eapply rtc_l.
  - intros Hstack. apply Ho. intros v Hv'.
    eapply rtc_r; [by apply Hstack | done].
Qed.

Lemma Extends_trans (root : string) (st st1 st2 : SortState)
    (new1 new2 : list NamedSchemaIR) :
  Extends m root st st1 new1 → Extends m root st1 st2 new2 →
  Extends m root st st2 (new1 ++ new2).
Proof.
  intros [Hr1 Hv1 Hg1 He1 Hn1 Ho1] [Hr2 Hv2 Hg2 He2 Hn2 Ho2].
  split.
  - by rewrite Hr2, Hr1, app_assoc.
  - rewrite Hv2, Hv1, fmap_app, list_to_set_app_L. set_solver.
  - congruence.
  - apply Forall_app. split; [done |].
    eapply Forall_impl; [exact He2 |]. intros e (? & Hnv & Hng & ?).
    split_and!; try done.
    + rewrite Hv1 in Hnv. set_solver.
    + by rewrite Hg1 in Hng.
  - rewrite fmap_app. apply NoDup_app. split_and!; try done.
    intros x Hx1 Hx2. apply list_elem_of_fmap in Hx2 as (e & -> & He).
    rewrite Forall_forall in He2. destruct (He2 e He) as (_ & Hnv & _).
    apply Hnv. rewrite Hv1. set_solver.
  - intros Hstack. apply ordered_app. split; [by apply Ho1 |].
    rewrite <- Hv1. apply Ho2. by rewrite Hg1.
Qed.

(** The loop over the dependencies of [parent]. *)
Lemma visit_dependencies_ok (fuel : nat) (parent : string) :
  visit_ok m fuel →
  ∀ (ds : list string) (st : SortState),
    size (dom m ∖ visiting st) < fuel →
    (∀ d, d ∈ ds → is_Some (m !! d) → dependsOn m parent d) →
    ∃ st' new,
      forOf (λ dep st, if bool_decide (is_Some (m !! dep))
                       then visit fuel m dep st else Some st) ds st
        = Some st' ∧
      Extends m parent st st' new ∧
      (∀ d, d ∈ ds → is_Some (m !! d) → d ∈ visited st' ∨ d ∈ visiting st).
Proof.
  intros Hvisit. induction ds as [|d ds IH]; intros st Hfuel Hedges; simpl.
  - exists st, []. split_and!; [done | apply Extends_refl |].
    intros d Hd. inversion Hd.
  - case_bool_decide as Hd.
    + destruct (Hvisit d st Hfuel) as (st1 & new1 & -> & Hext1 & Hdone1).
      destruct (IH st1) as (st2 & new2 & -> & Hext2 & Hdone2).
      { by rewrite (ext_visiting _ _ _ _ _ Hext1). }
      { intros d' Hd'. apply Hedges. by right. }
      exists st2, (new1 ++ new2). split_and!; [done | |].
      * eapply Extends_trans; [| exact Hext2].
        eapply Extends_reroot; [| exact Hext1].
        apply Hedges; [left | done].
      * intros d' Hd' Hm'. apply elem_of_cons in Hd' as [-> | Hd'].
        -- destruct (decide (d ∈ visiting st)) as [? | Hng]; [by right |].
           left. rewrite (ext_visited _ _ _ _ _ Hext2). set_solver.
        -- destruct (Hdone2 d' Hd' Hm') as [? | Hin]; [by left | right].
           by rewrite (ext_visiting _ _ _ _ _ Hext1) in Hin.
    + destruct (IH st) as (st2 & new2 & -> & Hext2 & Hdone2); [done | |].
      { intros d' Hd'. apply Hedges. by right. }
      exists st2, new2. split_and!; [done .. |].
      intros d' Hd' Hm'. apply elem_of_cons in Hd' as [-> | Hd']; [done |].
      by apply Hdone2.
Qed.

Lemma size_without_visiting (n : string) (V : gset string) :
  is_Some (m !! n) → n ∉ V →
  S (size (dom m ∖ ({[n]} ∪ V))) = size (dom m ∖ V).
Proof.
  intros Hn HV.
  assert (dom m ∖ V = {[n]} ∪ dom m ∖ ({[n]} ∪ V)) as ->.
  { apply set_eq. intros x. rewrite elem_of_union, !elem_of_difference,
      elem_of_union, elem_of_singleton.
    destruct (decide (x = n)) as [-> | ?].
    - split; [auto |]. intros _. split; [by apply elem_of_dom | done].
    - tauto. }
  rewrite (size_union (C:=gset string) {[n]} (dom m ∖ ({[n]} ∪ V)))
    by set_solver.
  by rewrite size_singleton.
Qed.

(** [visit] returns whenever its fuel exceeds the number of map entries
    that are not in progress, and then satisfies [Extends]. *)
Lemma visit_total (fuel : nat) : visit_ok m fuel.
Proof.
  induction fuel as [|fuel IH]; intros n st Hfuel; [lia |].
  simpl. case_bool_decide as Hvisited.
  { exists st, []. split_and!; [done | apply Extends_refl | done]. }
  case_bool_decide as Hvisiting.
  { exists st, []. split_and!; [done | apply Extends_refl | done]. }
  destruct (m !! n) as [e |] eqn:Hlookup.
  2:{ exists st, []. split_and!; [done | apply Extends_refl |].
      by intros [? ?]. }
  pose proof (m_wf _ _ Hlookup) as Hname.
  set (st1 := {| result := result st; visited := visited st;
                 visiting := {[n]} ∪ visiting st |}).
  destruct (visit_dependencies_ok fuel n IH (dependencies e) st1)
    as (st2 & new & -> & [Hr Hv Hg He Hn Ho] & Hdone).
  { simpl. pose proof (size_without_visiting n (visiting st)
                         (mk_is_Some _ _ Hlookup) Hvisiting). lia. }
  { intros d Hd Hm. by exists e. }
  simpl in *.
  eexists _, (new ++ [e]). split_and!; [done | | intros _ _; set_solver].
  split; simpl.
  - by rewrite Hr, app_assoc.
  - rewrite Hv, fmap_app, list_to_set_app_L. simpl. rewrite Hname.
    set_solver.
  - rewrite Hg. set_solver.
  - apply Forall_app. split.
    + eapply Forall_impl; [exact He |]. intros x (? & ? & Hng & ?).
      split_and!; try done. set_solver.
    + apply Forall_singleton. rewrite Hname. split_and!; done.
  - rewrite fmap_app. apply NoDup_app. split_and!; [done | |].
    + intros x Hx Hx'. simpl in Hx'. rewrite Hname in Hx'.
      apply list_elem_of_singleton in Hx' as ->.
      apply list_elem_of_fmap in Hx as (x & Hx & Hin).
      rewrite Forall_forall in He. destruct (He x Hin) as (_ & _ & Hng & _).
      apply Hng. rewrite <- Hx. set_solver.
    + simpl. apply NoDup_singleton.
  - intros Hstack. apply ordered_app. split.
    + apply Ho. intros v [->%elem_of_singleton | Hv']%elem_of_union;
        [done | by apply Hstack].
    + simpl. split; [| done]. intros d Hd Hm. rewrite Hname.
      destruct (Hdone d Hd Hm) as [Hin | Hin].
      * left. rewrite Hv in Hin. set_solver.
      * apply elem_of_union in Hin as [->%elem_of_singleton | Hin];
          [by right | right; by apply Hstack].
Qed.

Lemma TopInv_initial : TopInv m [] initialState.
Proof.
  split; simpl; try done.
  - constructor.
  - intros r Hr. inversion Hr.
Qed.

Lemma TopInv_step (roots : list string) (n : string) (st st' : SortState)
    (new : list NamedSchemaIR) :
  TopInv m roots st →
  Extends m n st st' new →
  (is_Some (m !! n) → n ∉ visiting st → n ∈ visited st') →
  TopInv m (roots ++ [n]) st'.
Proof.
  intros [Hg Hv Hn He Ho Hr] [Hr' Hv' Hg' He' Hn' Ho'] Hdone. split.
  - congruence.
  - rewrite Hv', Hr', Hv, fmap_app, list_to_set_app_L. done.
  - rewrite Hr', fmap_app. apply NoDup_app. split_and!; try done.
    intros x Hx Hx'. apply list_elem_of_fmap in Hx' as (e & -> & Hin).
    rewrite Forall_forall in He'. destruct (He' e Hin) as (_ & Hnv & _).
    apply Hnv. rewrite Hv. by apply elem_of_list_to_set.
  - rewrite Hr'. apply Forall_app. split.
    + eapply Forall_impl; [exact He |]. intros e (? & r & ? & ?).
      split; [done |]. exists r. split; [| done]. apply elem_of_app. auto.
    + eapply Forall_impl; [exact He' |]. intros e (? & _ & _ & ?).
      split; [done |]. exists n. split; [| done].
      apply elem_of_app. right. by apply list_elem_of_singleton.
  - rewrite Hr'. apply ordered_app. split; [done |].
    eapply ordered_mono; [| apply Ho'].
    + rewrite Hv. set_solver.
    + intros v. rewrite Hg. set_solver.
  - intros r [Hin | ->%list_elem_of_singleton]%elem_of_app Hm.
    + rewrite Hv'. apply elem_of_union. left. by apply Hr.
    + apply Hdone; [done |]. rewrite Hg. set_solver.
Qed.

(** The final loop returns and keeps the invariant. *)
Lemma visitAll_ok (fuel : nat) :
  size (dom m) < fuel →
  ∀ (ns roots : list string) (st : SortState),
    TopInv m roots st →
    ∃ st' new,
      visitAll fuel m ns st = Some st' ∧
      TopInv m (roots ++ ns) st' ∧
      result st' = result st ++ new.
Proof.
  intros Hfuel. unfold visitAll.
  induction ns as [|n ns IH]; intros roots st Hinv; simpl.
  - exists st, []. by rewrite !app_nil_r.
  - destruct (visit_total fuel n st) as (st1 & new1 & -> & Hext & Hdone).
    { eapply Nat.le_lt_trans; [| exact Hfuel].
      apply subseteq_size. set_solver. }
    pose proof (TopInv_step _ _ _ _ _ Hinv Hext Hdone) as Hinv1.
    destruct (IH _ _ Hinv1) as (st2 & new2 & -> & Hinv2 & Hres).
    exists st2, (new1 ++ new2). split_and!; [done | |].
    + by rewrite <- app_assoc in Hinv2.
    + by rewrite Hres, (ext_result _ _ _ _ _ Hext), app_assoc.
Qed.


Lemma ordered_lookup (seen : gset string) (l : list NamedSchemaIR)
    (i : nat) (a : NamedSchemaIR) (d : string) :
  ordered m seen l → l !! i = Some a →
  d ∈ dependencies a → is_Some (m !! d) →
  d ∈ seen ∨ d ∈ name <$> take i l ∨ rtc (dependsOn m) d (name a).
Proof.
  revert seen i. induction l as [|x l IH]; intros seen i Ho Hi Hd Hm.
  - by rewrite lookup_nil in Hi.
  - destruct Ho as [Hx Hl]. destruct i as [|i]; simpl in *.
    + injection Hi as ->. destruct (Hx d Hd Hm); auto.
    + destruct (IH _ _ Hl Hi Hd Hm) as [Hin | [Hin | Hreach]]; auto.
      * apply elem_of_union in Hin as [->%elem_of_singleton | Hin];
          [right; left; apply list_elem_of_here | by left].
      * right. left. by apply list_elem_of_further.
Qed.

(** More fuel does not change a result. *)
Lemma visit_fuel_mono (fuel fuel' : nat) (n : string) (st r : SortState) :
  fuel ≤ fuel' → visit fuel m n st = Some r → visit fuel' m n st = Some r.
Proof.
  revert fuel' n st r.
  induction fuel as [|fuel IH]; intros fuel' n st r Hle; [done |].
  destruct fuel' as [|fuel']; [lia |]. simpl.
  repeat case_bool_decide; try done.
  destruct (m !! n) as [e |]; [| done].
  match goal with
  | |- context [forOf ?b1 ?l ?s] =>
      destruct (forOf b1 l s) as [st2 |] eqn:Hloop; [| done]
  end.
  erewrite forOf_impl; [done | | exact Hloop].
  intros d st' r' _. simpl. case_bool_decide; [| done].
  apply IH. lia.
Qed.

Lemma visitAll_fuel_mono (fuel fuel' : nat) (ns : list string)
    (st r : SortState) :
  fuel ≤ fuel' →
  visitAll fuel m ns st = Some r → visitAll fuel' m ns st = Some r.
Proof.
  intros Hle. unfold visitAll. apply forOf_impl.
  intros n st' r' _. by apply visit_fuel_mono.
Qed.

(** Visiting a name again changes nothing. *)
Lemma visit_again (fuel : nat) (n : string) (st : SortState) :
  n ∈ visited st ∨ m !! n = None →
  visit (S fuel) m n st = Some st.
Proof.
  intros Hinert. simpl. repeat case_bool_decide; try done.
  destruct Hinert as [? | ->]; done.
Qed.

(** The final loop does the same over the first occurrences only. *)
Lemma visitAll_firstOccurrences (fuel : nat) :
  size (dom m) < fuel →
  ∀ (ns roots : list string) (seen : gset string) (st : SortState),
    TopInv m roots st →
    (∀ n, n ∈ seen → n ∈ roots) →
    visitAll fuel m (firstOccurrences seen ns) st = visitAll fuel m ns st.
Proof.
  intros Hfuel. destruct fuel as [|fuel]; [lia |].
  induction ns as [|n ns IH]; intros roots seen st Hinv Hseen; [done |].
  cbn [firstOccurrences]. case_bool_decide as Hn.
  - change (visitAll (S fuel) m (n :: ns) st)
      with (match visit (S fuel) m n st with
            | Some st' => visitAll (S fuel) m ns st'
            | None => None
            end).
    rewrite visit_again; [by eapply IH |].
    destruct (m !! n) as [e |] eqn:Hm; [left | by right].
    apply (top_roots _ _ _ Hinv); [by apply Hseen | by rewrite Hm].
  - change (visitAll (S fuel) m (n :: ns) st)
      with (match visit (S fuel) m n st with
            | Some st' => visitAll (S fuel) m ns st'
            | None => None
            end).
    change (visitAll (S fuel) m (n :: firstOccurrences ({[n]} ∪ seen) ns) st)
      with (match visit (S fuel) m n st with
            | Some st' =>
                visitAll (S fuel) m (firstOccurrences ({[n]} ∪ seen) ns) st'
            | None => None
            end).
    destruct (visit_total (S fuel) n st) as (st1 & new1 & -> & Hext & Hdone).
    { eapply Nat.le_lt_trans; [| exact Hfuel].
      apply subseteq_size. set_solver. }
    eapply IH; [by eapply TopInv_step |].
    intros x [->%elem_of_singleton | Hx]%elem_of_union; apply elem_of_app.
    + right. by apply list_elem_of_singleton.
    + left. by apply Hseen.
Qed.

End Sort_facts.

(** ** The name map and the sort as a whole *)

Section BuildSchemaMap_facts.

Lemma buildSchemaMap_nil : buildSchemaMap [] = ∅.
Proof. done. Qed.

Lemma buildSchemaMap_snoc (l : list NamedSchemaIR) (x : NamedSchemaIR) :
  buildSchemaMap (l ++ [x]) = <[name x := x]> (buildSchemaMap l).
Proof. unfold buildSchemaMap. by rewrite foldl_app. Qed.

(** The map holds, for each name, the last input entry bearing it. *)
Lemma lookup_buildSchemaMap (schemas : list NamedSchemaIR) (k : string)
    (e : NamedSchemaIR) :
  buildSchemaMap schemas !! k = Some e ↔
  ∃ l1 l2, schemas = l1 ++ e :: l2 ∧ name e = k ∧ k ∉ name <$> l2.
Proof.
  induction schemas as [|x l IH] using rev_ind.
  - rewrite buildSchemaMap_nil, lookup_empty. split; [done |].
    intros (l1 & l2 & Heq & _). by destruct l1.
  - rewrite buildSchemaMap_snoc, lookup_insert. case_decide as Hk.
    + split.
      * intros [= <-]. exists l, []. split_and!; [done .. |]. apply not_elem_of_nil.
      * intros (l1 & l2 & Heq & Hn & Hnot).
        destruct l2 as [|z l2 _] using rev_ind.
        -- apply app_inj_tail in Heq as [_ ->]. done.
        -- rewrite app_comm_cons, app_assoc in Heq.
           apply app_inj_tail in Heq as [_ ->].
           exfalso. apply Hnot. rewrite fmap_app, elem_of_app. right.
           rewrite <- Hk. apply list_elem_of_here.
    + rewrite IH. split.
      * intros (l1 & l2 & -> & Hn & Hnot). exists l1, (l2 ++ [x]).
        split_and!; [by rewrite <- app_assoc | done |].
        rewrite fmap_app, elem_of_app. intros [? | Hx]; [done |].
        apply list_elem_of_singleton in Hx. done.
      * intros (l1 & l2 & Heq & Hn & Hnot).
        destruct l2 as [|z l2 _] using rev_ind.
        -- apply app_inj_tail in Heq as [_ ->]. done.
        -- rewrite app_comm_cons, app_assoc in Heq.
           apply app_inj_tail in Heq as [-> ->].
           exists l1, l2. split_and!; [done .. |].
           intros Hin. apply Hnot. rewrite fmap_app, elem_of_app. by left.
Qed.

Lemma buildSchemaMap_name (schemas : list NamedSchemaIR) (k : string)
    (e : NamedSchemaIR) :
  buildSchemaMap schemas !! k = Some e → name e = k.
Proof. intros (_ & _ & _ & ? & _)%lookup_buildSchemaMap. done. Qed.

Lemma buildSchemaMap_elem_of (schemas : list NamedSchemaIR) (k : string)
    (e : NamedSchemaIR) :
  buildSchemaMap schemas !! k = Some e → e ∈ schemas.
Proof.
  intros (l1 & l2 & -> & _)%lookup_buildSchemaMap.
  apply elem_of_app. right. apply list_elem_of_here.
Qed.

Lemma dom_buildSchemaMap (schemas : list NamedSchemaIR) :
  dom (buildSchemaMap schemas) = list_to_set (name <$> schemas).
Proof.
  induction schemas as [|x l IH] using rev_ind;
    [by rewrite buildSchemaMap_nil, dom_empty_L |].
  rewrite buildSchemaMap_snoc, dom_insert_L, IH, fmap_app,
    list_to_set_app_L. simpl. set_solver.
Qed.

Lemma buildSchemaMap_is_Some (schemas : list NamedSchemaIR) (k : string) :
  is_Some (buildSchemaMap schemas !! k) ↔ k ∈ name <$> schemas.
Proof.
  by rewrite <- elem_of_dom, dom_buildSchemaMap, elem_of_list_to_set.
Qed.

Lemma size_buildSchemaMap (schemas : list NamedSchemaIR) :
  size (dom (buildSchemaMap schemas)) ≤ length schemas.
Proof.
  rewrite size_dom.
  induction schemas as [|x l IH] using rev_ind;
    [by rewrite buildSchemaMap_nil, map_size_empty |].
  rewrite buildSchemaMap_snoc, length_app. simpl.
  destruct (buildSchemaMap l !! name x) eqn:Hx.
  - rewrite map_size_insert_Some by done. lia.
  - rewrite map_size_insert_None by done. lia.
Qed.

(** With pairwise-distinct names the map holds exactly the input. *)
Lemma lookup_buildSchemaMap_NoDup (schemas : list NamedSchemaIR)
    (e : NamedSchemaIR) :
  NoDup (name <$> schemas) →
  e ∈ schemas ↔ buildSchemaMap schemas !! name e = Some e.
Proof.
  intros Hnd. split; [| apply buildSchemaMap_elem_of].
  intros (l1 & l2 & ->)%list_elem_of_split.
  apply lookup_buildSchemaMap. exists l1, l2. split_and!; [done .. |].
  rewrite fmap_app, fmap_cons in Hnd.
  apply NoDup_app in Hnd as (_ & _ & Hnd). by apply NoDup_cons in Hnd as [? _].
Qed.

End BuildSchemaMap_facts.

Section Sort_results.

Variable schemas : list NamedSchemaIR.

(** The sort returns, and its final state satisfies the loop invariant. *)
Lemma topologicalSortSchemas_run :
  ∃ st,
    visitAll (S (length schemas)) (buildSchemaMap schemas)
      (name <$> schemas) initialState = Some st ∧
    TopInv (buildSchemaMap schemas) (name <$> schemas) st ∧
    topologicalSortSchemas schemas = Some (result st).
Proof.
  destruct (visitAll_ok (buildSchemaMap schemas)
              (buildSchemaMap_name schemas) (S (length schemas)))
    with (ns := name <$> schemas) (roots := @nil string)
         (st := initialState)
    as (st & new & Hrun & Hinv & _).
  - pose proof (size_buildSchemaMap schemas). lia.
  - apply TopInv_initial.
  - exists st. split_and!; [done .. |].
    unfold topologicalSortSchemas. simpl. by rewrite Hrun.
Qed.

Lemma topologicalSortSchemas_total :
  ∃ out, topologicalSortSchemas schemas = Some out.
Proof. destruct topologicalSortSchemas_run as (st & _ & _ & ?). eauto. Qed.

Variable out : list NamedSchemaIR.
Hypothesis Hout : topologicalSortSchemas schemas = Some out.

Lemma topologicalSortSchemas_NoDup : NoDup (name <$> out).
Proof.
  destruct topologicalSortSchemas_run as (st & _ & Hinv & Hres).
  rewrite Hout in Hres. injection Hres as ->. apply Hinv.
Qed.

Lemma topologicalSortSchemas_ordered :
  ordered (buildSchemaMap schemas) ∅ out.
Proof.
  destruct topologicalSortSchemas_run as (st & _ & Hinv & Hres).
  rewrite Hout in Hres. injection Hres as ->. apply Hinv.
Qed.

(** The output holds exactly the entries of the name map. *)
Lemma elem_of_topologicalSortSchemas (e : NamedSchemaIR) :
  e ∈ out ↔ buildSchemaMap schemas !! name e = Some e.
Proof.
  destruct topologicalSortSchemas_run as (st & _ & Hinv & Hres).
  rewrite Hout in Hres. injection Hres as ->.
  destruct Hinv as [_ Hv _ He _ Hr]. split.
  - intros Hin. rewrite Forall_forall in He. by destruct (He e Hin).
  - intros Hm.
    assert (name e ∈ visited st) as Hin.
    { apply Hr; [| by rewrite Hm].
      apply buildSchemaMap_is_Some. by rewrite Hm. }
    rewrite Hv, elem_of_list_to_set in Hin.
    apply list_elem_of_fmap in Hin as (e' & Hname & Hin).
    rewrite Forall_forall in He. destruct (He e' Hin) as [Hm' _].
    rewrite <- Hname, Hm in Hm'. by injection Hm' as ->.
Qed.

Lemma topologicalSortSchemas_names :
  ∀ k, k ∈ name <$> out ↔ k ∈ name <$> schemas.
Proof.
  intros k. rewrite <- (buildSchemaMap_is_Some schemas). split.
  - intros (e & -> & Hin)%list_elem_of_fmap.
    apply elem_of_topologicalSortSchemas in Hin. by rewrite Hin.
  - intros [e He]. pose proof (buildSchemaMap_name _ _ _ He) as <-.
    apply list_elem_of_fmap. exists e. split; [done |].
    by apply elem_of_topologicalSortSchemas.
Qed.

Lemma topologicalSortSchemas_Permutation :
  NoDup (name <$> schemas) → out ≡ₚ schemas.
Proof.
  intros Hnd. apply NoDup_Permutation.
  - eapply NoDup_fmap_1, topologicalSortSchemas_NoDup.
  - by eapply NoDup_fmap_1.
  - intros e. rewrite elem_of_topologicalSortSchemas.
    symmetry. by apply lookup_buildSchemaMap_NoDup.
Qed.

(** Whatever precedes one of its dependencies is on a cycle with it. *)
Lemma topologicalSortSchemas_before (a b : NamedSchemaIR) :
  before out a b → name b ∈ dependencies a →
  cycleBetween (buildSchemaMap schemas) (name a) (name b).
Proof.
  intros (i & j & Hij & Hi & Hj) Hdep.
  pose proof (list_elem_of_lookup_2 _ _ _ Hi) as Ha.
  pose proof (list_elem_of_lookup_2 _ _ _ Hj) as Hb.
  apply elem_of_topologicalSortSchemas in Ha, Hb.
  assert (name a ≠ name b) as Hne.
  { intros Heq.
    assert (i = j); [| lia].
    eapply NoDup_lookup; [apply topologicalSortSchemas_NoDup | |].
    - by rewrite list_lookup_fmap, Hi.
    - by rewrite list_lookup_fmap, Hj, Heq. }
  assert (dependsOn (buildSchemaMap schemas) (name a) (name b)) as Hedge.
  { exists a. split_and!; [done .. |]. by rewrite Hb. }
  split; [by apply tc_once |].
  destruct Hedge as (_ & _ & _ & Hsome).
  destruct (ordered_lookup _ _ _ _ _ _ topologicalSortSchemas_ordered
              Hi Hdep Hsome) as [Hin | [Hin | Hreach]].
  - set_solver.
  - exfalso.
    apply list_elem_of_fmap in Hin as (b' & Hname & Hin).
    apply elem_of_take in Hin as (k & Hk & Hki).
    assert (k = j); [| lia].
    eapply NoDup_lookup; [apply topologicalSortSchemas_NoDup | |].
    + by rewrite list_lookup_fmap, Hk.
    + rewrite list_lookup_fmap, Hj. simpl. by rewrite Hname.
  - apply rtc_tc in Hreach as [? | ?]; [congruence | done].
Qed.

End Sort_results.

(** An entry without dependencies starts no dependency path. *)
Lemma no_dependencies_no_path (m : gmap string NamedSchemaIR) (x y : string)
    (e : NamedSchemaIR) :
  m !! x = Some e → dependencies e = [] → ¬ tc (dependsOn m) x y.
Proof.
  intros Hx Hnil Hpath.
  assert (∃ z, dependsOn m x z) as (z & e' & He' & Hin & _).
  { destruct Hpath; eauto. }
  rewrite Hx in He'. injection He' as <-. rewrite Hnil in Hin.
  by apply not_elem_of_nil in Hin.
Qed.

(* ===================================================================== *)
(** * The claims about dependency extraction and the sort *)
(* ===================================================================== *)

(** C4.  For every name and every schema, the [dependencies] of the entry
    returned by [createNamedSchema] are, as a set, exactly the names of the
    [ref] nodes structurally reachable within the schema, minus the entry's
    own name. *)
Theorem createNamedSchema_dependencies_exact (n : string) (s : SchemaIR)
    (c : option SchemaCategory) :
  NoDup (dependencies (createNamedSchema n s c)) ∧
  ∀ r, r ∈ dependencies (createNamedSchema n s c) ↔ RefReachable s r ∧ r ≠ n.
Proof.
  unfold createNamedSchema, extractDependencies. simpl. split.
  - apply JsSetFacts.NoDup_delete, extractDependencies_visit_NoDup.
    apply NoDup_nil_2.
  - intros r. rewrite JsSetFacts.elem_of_delete,
      (extractDependencies_visit_adds s JsSet.empty r).
    unfold JsSet.empty. split.
    + intros [[Hin | ?] ?]; [by apply not_elem_of_nil in Hin | done].
    + intros [? ?]. auto.
Qed.

(** C2.  For every input with pairwise-distinct names the sort terminates
    (the recursion bound is not hit) and returns a list holding each input
    entry exactly once, whatever the dependency graph, cycles included. *)
Theorem topologicalSortSchemas_terminates_with_each_entry_once
    (schemas : list NamedSchemaIR) :
  NoDup (name <$> schemas) →
  ∃ out, topologicalSortSchemas schemas = Some out ∧ out ≡ₚ schemas.
Proof.
  intros Hnd. destruct (topologicalSortSchemas_total schemas) as [out Hout].
  exists out. split; [done |].
  by apply topologicalSortSchemas_Permutation.
Qed.

(** The mutually recursive pair of the specification's scenario. *)
Lemma topologicalSortSchemas_mutual_recursion :
  NoDup (name <$> [mutualA; mutualB]) ∧
  ∃ out, topologicalSortSchemas [mutualA; mutualB] = Some out ∧
         out ≡ₚ [mutualA; mutualB].
Proof.
  assert (NoDup (name <$> [mutualA; mutualB])) as Hnd.
  { apply (bool_decide_unpack _). vm_compute. exact I. }
  split; [exact Hnd |].
  exact (topologicalSortSchemas_terminates_with_each_entry_once
           [mutualA; mutualB] Hnd).
Defined.

(** C1.  With pairwise-distinct names, whenever [a] precedes [b] in the
    output, either [b] is not a dependency of [a] or [a] and [b] lie on a
    dependency cycle; and for [A] referencing [B] with [B] free of
    dependencies the output is [[B; A]], in whichever order they are given. *)
Theorem topologicalSortSchemas_dependencies_first :
  (∀ (schemas out : list NamedSchemaIR) (a b : NamedSchemaIR),
     NoDup (name <$> schemas) →
     topologicalSortSchemas schemas = Some out →
     before out a b →
     name b ∉ dependencies a ∨
     cycleBetween (buildSchemaMap schemas) (name a) (name b)) ∧
  (∀ A B : NamedSchemaIR,
     name A ≠ name B →
     name B ∈ dependencies A →
     dependencies B = [] →
     topologicalSortSchemas [A; B] = Some [B; A] ∧
     topologicalSortSchemas [B; A] = Some [B; A]).
Proof.
  split.
  - intros schemas out a b _ Hout Hbefore.
    destruct (decide (name b ∈ dependencies a)) as [Hdep | ?]; [right | by left].
    by eapply topologicalSortSchemas_before.
  - intros A B Hne Hdep Hnil.
    assert (∀ l, l ≡ₚ [A; B] → NoDup (name <$> l) →
                 topologicalSortSchemas l = Some [B; A]) as Hboth.
    { intros l Hl Hnd.
      destruct (topologicalSortSchemas_total l) as [out Hout].
      pose proof (topologicalSortSchemas_Permutation l out Hout Hnd) as Hperm.
      rewrite Hl in Hperm. symmetry in Hperm.
      apply Permutation.Permutation_length_2_inv in Hperm as [-> | ->];
        [exfalso | done].
      assert (before [A; B] A B) as Hbefore by (exists 0, 1; auto).
      destruct (topologicalSortSchemas_before l [A; B] Hout A B Hbefore Hdep)
        as [_ Hback].
      eapply no_dependencies_no_path; [| exact Hnil | exact Hback].
      apply lookup_buildSchemaMap_NoDup; [done |].
      rewrite Hl. set_solver. }
    split; apply Hboth.
    + done.
    + simpl. apply NoDup_cons. split; [set_solver | apply NoDup_singleton].
    + apply Permutation_swap.
    + simpl. apply NoDup_cons. split; [set_solver | apply NoDup_singleton].
Qed.

(** The scenario of the specification, and the ordering property on it. *)
Lemma topologicalSortSchemas_scenario_B_then_A :
  topologicalSortSchemas [entryA; entryB] = Some [entryB; entryA] ∧
  ∀ a b, before [entryB; entryA] a b →
         name b ∉ dependencies a ∨
         cycleBetween (buildSchemaMap [entryA; entryB]) (name a) (name b).
Proof.
  split.
  - apply (proj2 topologicalSortSchemas_dependencies_first entryA entryB).
    + vm_compute. discriminate.
    + vm_compute. apply list_elem_of_here.
    + vm_compute. reflexivity.
  - intros a b.
    apply (proj1 topologicalSortSchemas_dependencies_first
             [entryA; entryB] [entryB; entryA]).
    + apply (bool_decide_unpack _). vm_compute. exact I.
    + vm_compute. reflexivity.
Defined.




(** ** Colliding names *)

Section Collisions.

Lemma lastBearing_lookup (schemas : list NamedSchemaIR) (n : string) :
  lastBearing schemas n = buildSchemaMap schemas !! n.
Proof.
  unfold lastBearing.
  induction schemas as [|x l IH] using rev_ind.
  - by rewrite buildSchemaMap_nil, lookup_empty.
  - rewrite buildSchemaMap_snoc, lookup_insert, filter_app.
    case_decide as Hx.
    + rewrite filter_cons_True, filter_nil by done. apply last_snoc.
    + rewrite filter_cons_False, filter_nil, app_nil_r by done. apply IH.
Qed.

Lemma size_buildSchemaMap_app (p q : list NamedSchemaIR) :
  size (buildSchemaMap (p ++ q)) ≤ size (buildSchemaMap p) + length q.
Proof.
  induction q as [|x q IH] using rev_ind.
  - rewrite app_nil_r. simpl. lia.
  - rewrite app_assoc, buildSchemaMap_snoc, length_app, map_size_insert.
    simpl. destruct (buildSchemaMap (p ++ q) !! name x); simpl; lia.
Qed.

(** Two entries of one name leave the map smaller than the input. *)
Lemma size_buildSchemaMap_collision (schemas : list NamedSchemaIR)
    (i j : nat) (x y : NamedSchemaIR) :
  i < j → schemas !! i = Some x → schemas !! j = Some y → name x = name y →
  size (buildSchemaMap schemas) < length schemas.
Proof.
  intros Hij Hi Hj Hname.
  rewrite <- (take_drop_middle schemas j y Hj).
  replace (take j schemas ++ y :: drop (S j) schemas)
    with ((take j schemas ++ [y]) ++ drop (S j) schemas)
    by (by rewrite <- app_assoc).
  pose proof (size_buildSchemaMap_app (take j schemas ++ [y])
                (drop (S j) schemas)) as Hle.
  rewrite buildSchemaMap_snoc, map_size_insert_Some in Hle.
  - pose proof (size_buildSchemaMap (take j schemas)) as Hle'.
    rewrite size_dom in Hle'.
    rewrite !length_app. simpl. lia.
  - apply buildSchemaMap_is_Some. rewrite <- Hname.
    apply list_elem_of_fmap. exists x. split; [done |].
    apply elem_of_take. eauto.
Qed.

Lemma name_omap_lookup (m : gmap string NamedSchemaIR) (ns : list string) :
  (∀ k e, m !! k = Some e → name e = k) →
  (∀ n, n ∈ ns → is_Some (m !! n)) →
  name <$> omap (m !!.) ns = ns.
Proof.
  intros Hwf. induction ns as [|n ns IH]; intros Hall; [done |].
  destruct (Hall n (list_elem_of_here _ _)) as [e He].
  cbn [omap list_omap]. rewrite He. cbn [fmap list_fmap].
  rewrite (Hwf _ _ He). f_equal. apply IH.
  intros n' Hn'. apply Hall. by apply list_elem_of_further.
Qed.

Lemma collapse_lookup (schemas : list NamedSchemaIR) :
  collapse schemas
  = omap (buildSchemaMap schemas !!.) (firstOccurrences ∅ (name <$> schemas)).
Proof.
  unfold collapse. generalize (firstOccurrences ∅ (name <$> schemas)).
  intros ns. induction ns as [|n ns IH]; [done |].
  csimpl. by rewrite IH, lastBearing_lookup.
Qed.

Lemma names_collapse (schemas : list NamedSchemaIR) :
  name <$> collapse schemas = firstOccurrences ∅ (name <$> schemas).
Proof.
  rewrite collapse_lookup. apply name_omap_lookup.
  - apply buildSchemaMap_name.
  - intros n [Hn _]%elem_of_firstOccurrences.
    by apply buildSchemaMap_is_Some.
Qed.

Lemma elem_of_collapse (schemas : list NamedSchemaIR) (e : NamedSchemaIR) :
  e ∈ collapse schemas ↔ buildSchemaMap schemas !! name e = Some e.
Proof.
  rewrite collapse_lookup, list_elem_of_omap. split.
  - intros (n & _ & He).
    by rewrite (buildSchemaMap_name _ _ _ He).
  - intros He. exists (name e). split; [| done].
    apply elem_of_firstOccurrences. split; [| set_solver].
    apply buildSchemaMap_is_Some. by rewrite He.
Qed.

Lemma buildSchemaMap_collapse (schemas : list NamedSchemaIR) :
  buildSchemaMap (collapse schemas) = buildSchemaMap schemas.
Proof.
  apply map_eq. intros k. apply option_eq. intros e.
  assert (NoDup (name <$> collapse schemas)) as Hnd.
  { rewrite names_collapse. apply NoDup_firstOccurrences. }
  split.
  - intros He. pose proof (buildSchemaMap_name _ _ _ He) as <-.
    apply elem_of_collapse. exact (buildSchemaMap_elem_of _ _ _ He).
  - intros He. pose proof (buildSchemaMap_name _ _ _ He) as <-.
    apply lookup_buildSchemaMap_NoDup; [done |].
    by apply elem_of_collapse.
Qed.

Lemma length_collapse (schemas : list NamedSchemaIR) :
  length (collapse schemas) ≤ length schemas.
Proof.
  rewrite <- (length_fmap name (collapse schemas)), names_collapse.
  etrans; [apply length_firstOccurrences |]. by rewrite length_fmap.
Qed.

(** Sorting the collapsed input gives the same output. *)
Lemma topologicalSortSchemas_collapse (schemas : list NamedSchemaIR) :
  topologicalSortSchemas (collapse schemas) = topologicalSortSchemas schemas.
Proof.
  destruct (topologicalSortSchemas_run (collapse schemas))
    as (st & Hrun & _ & ->).
  rewrite buildSchemaMap_collapse, names_collapse in Hrun.
  apply (visitAll_fuel_mono _ _ (S (length schemas))) in Hrun;
    [| pose proof (length_collapse schemas); lia].
  rewrite (visitAll_firstOccurrences (buildSchemaMap schemas)
             (buildSchemaMap_name schemas) (S (length schemas)))
    with (roots := []) in Hrun.
  - unfold topologicalSortSchemas. simpl. by rewrite Hrun.
  - pose proof (size_buildSchemaMap schemas). lia.
  - apply TopInv_initial.
  - set_solver.
Qed.

End Collisions.

(** C10.  When two input entries share a name, the sort still returns; its
    output has one entry per input name, namely the last input entry bearing
    that name; it is strictly shorter than the input; and it is the output
    for the input in which every name occurs once, at its first position,
    with that last entry. *)
Theorem topologicalSortSchemas_collisions_keep_last
    (schemas : list NamedSchemaIR) (i j : nat) (x y : NamedSchemaIR) :
  i < j →
  schemas !! i = Some x →
  schemas !! j = Some y →
  name x = name y →
  ∃ out,
    topologicalSortSchemas schemas = Some out ∧
    NoDup (name <$> out) ∧
    (∀ n, n ∈ name <$> out ↔ n ∈ name <$> schemas) ∧
    (∀ e, e ∈ out ↔ lastBearing schemas (name e) = Some e) ∧
    length out < length schemas ∧
    topologicalSortSchemas (collapse schemas) = Some out.
Proof.
  intros Hij Hi Hj Hname.
  destruct (topologicalSortSchemas_total schemas) as [out Hout].
  pose proof (topologicalSortSchemas_NoDup schemas out Hout) as Hnd.
  pose proof (topologicalSortSchemas_names schemas out Hout) as Hnames.
  exists out. split_and!; try done.
  - intros e. rewrite lastBearing_lookup.
    by apply elem_of_topologicalSortSchemas.
  - rewrite <- (length_fmap name out).
    rewrite <- (size_list_to_set (C:=gset string)) by done.
    replace (list_to_set (name <$> out) : gset string)
      with (dom (buildSchemaMap schemas)).
    + rewrite size_dom. by eapply size_buildSchemaMap_collision.
    + rewrite dom_buildSchemaMap. apply set_eq. intros n.
      by rewrite !elem_of_list_to_set.
  - by rewrite topologicalSortSchemas_collapse.
Qed.

(** Two entries named [A] around [B]: the later [A] is kept, in the place
    of the earlier one. *)
Lemma topologicalSortSchemas_duplicate_A :
  topologicalSortSchemas [earlierA; entryB; laterA] = Some [laterA; entryB] ∧
  collapse [earlierA; entryB; laterA] = [laterA; entryB] ∧
  ∃ out,
    topologicalSortSchemas [earlierA; entryB; laterA] = Some out ∧
    NoDup (name <$> out) ∧
    (∀ n, n ∈ name <$> out ↔ n ∈ name <$> [earlierA; entryB; laterA]) ∧
    (∀ e, e ∈ out ↔
          lastBearing [earlierA; entryB; laterA] (name e) = Some e) ∧
    length out < length [earlierA; entryB; laterA] ∧
    topologicalSortSchemas (collapse [earlierA; entryB; laterA]) = Some out.
Proof.
  split; [vm_compute; reflexivity |].
  split; [vm_compute; reflexivity |].
  apply (topologicalSortSchemas_collisions_keep_last
           [earlierA; entryB; laterA] 0 2 earlierA laterA).
  - lia.
  - reflexivity.
  - reflexivity.
  - reflexivity.
Defined.

(* ===================================================================== *)
(** * Facts about the naming utilities *)
(* ===================================================================== *)

(** The examples of the source's doc comments. *)
Example toSchemaName_User : toSchemaName "User" = "userSchema".
Proof. reflexivity. Qed.

Example toSchemaName_CreateUserRequest :
  toSchemaName "CreateUserRequest" = "createUserRequestSchema".
Proof. reflexivity. Qed.

Example toPascalCase_snake : toPascalCase "create_user" = "CreateUser".
Proof. reflexivity. Qed.

Example toPascalCase_kebab : toPascalCase "create-user" = "CreateUser".
Proof. reflexivity. Qed.

Example toCamelCase_pascal : toCamelCase "CreateUser" = "createUser".
Proof. reflexivity. Qed.

Example toCamelCase_snake : toCamelCase "create_user" = "createUser".
Proof. reflexivity. Qed.

Section Char_facts.

Lemma code_inj (c d : ascii) : Char.code c = Char.code d ↔ c = d.
Proof.
  split; [| by intros ->]. unfold Char.code. intros H.
  by rewrite <- (ascii_nat_embedding c), <- (ascii_nat_embedding d), H.
Qed.

Lemma code_bounded (c : ascii) : Char.code c < 256.
Proof. apply nat_ascii_bounded. Qed.

Lemma isUpper_between (c : ascii) :
  Char.isUpper c = true ↔ between "A" "Z" c.
Proof.
  unfold Char.isUpper, between.
  rewrite andb_true_iff, !Nat.leb_le. done.
Qed.

Lemma isLower_between (c : ascii) :
  Char.isLower c = true ↔ between "a" "z" c.
Proof.
  unfold Char.isLower, between.
  rewrite andb_true_iff, !Nat.leb_le. done.
Qed.

Lemma isDigit_between (c : ascii) :
  Char.isDigit c = true ↔ between "0" "9" c.
Proof.
  unfold Char.isDigit, between.
  rewrite andb_true_iff, !Nat.leb_le. done.
Qed.

Lemma isIdentifierStart_spec (c : ascii) :
  Char.isIdentifierStart c = true ↔ IdentifierStart c.
Proof.
  unfold Char.isIdentifierStart, IdentifierStart.
  rewrite !orb_true_iff, isLower_between, isUpper_between, !Nat.eqb_eq.
  change 95 with (Char.code "_"). change 36 with (Char.code "$").
  rewrite !code_inj. tauto.
Qed.

Lemma isIdentifierPart_spec (c : ascii) :
  Char.isIdentifierPart c = true ↔ IdentifierPart c.
Proof.
  unfold Char.isIdentifierPart, IdentifierPart, IdentifierStart.
  rewrite !orb_true_iff, isLower_between, isUpper_between,
    isDigit_between, !Nat.eqb_eq.
  change 95 with (Char.code "_"). change 36 with (Char.code "$").
  rewrite !code_inj. tauto.
Qed.

Lemma allChars_IdentifierTail (s : string) :
  allChars Char.isIdentifierPart s = true ↔ IdentifierTail s.
Proof.
  induction s as [|c s IH]; simpl.
  - split; [constructor | done].
  - rewrite andb_true_iff, isIdentifierPart_spec, IH. split.
    + intros [? ?]. by constructor.
    + inversion 1; subst. done.
Qed.

Lemma isValidIdentifier_spec (s : string) :
  isValidIdentifier s = true ↔ Identifier s.
Proof.
  destruct s as [|c s]; simpl.
  - split; [done | inversion 1].
  - rewrite andb_true_iff, isIdentifierStart_spec, allChars_IdentifierTail.
    split.
    + intros [? ?]. by constructor.
    + inversion 1; subst. done.
Qed.

Lemma string_length_app (s t : string) :
  String.length (s +:+ t) = String.length s + String.length t.
Proof. induction s as [|c s IH]; simpl; [done | by rewrite IH]. Qed.

End Char_facts.

(** C7.  [getSafePropertyName] returns the name unchanged exactly when it
    matches the identifier grammar; otherwise it returns the name between
    one pair of double quotes (two characters longer, so not quoted twice);
    [special-name] comes out quoted once. *)
Theorem getSafePropertyName_quotes_once (name : string) :
  (getSafePropertyName name = name ↔ Identifier name) ∧
  (¬ Identifier name →
   getSafePropertyName name = doubleQuote +:+ name +:+ doubleQuote ∧
   String.length (getSafePropertyName name) = 2 + String.length name) ∧
  getSafePropertyName "special-name"
    = doubleQuote +:+ "special-name" +:+ doubleQuote.
Proof.
  assert (String.length (doubleQuote +:+ name +:+ doubleQuote)
          = 2 + String.length name) as Hlen.
  { rewrite !string_length_app. simpl. lia. }
  unfold getSafePropertyName. split_and!; [| | reflexivity].
  - destruct (isValidIdentifier name) eqn:Hvalid.
    + split; [| done]. intros _. by apply isValidIdentifier_spec.
    + split.
      * intros Heq. rewrite Heq in Hlen. lia.
      * intros Hid%isValidIdentifier_spec. congruence.
  - intros Hnot. destruct (isValidIdentifier name) eqn:Hvalid.
    + exfalso. by apply Hnot, isValidIdentifier_spec.
    + done.
Qed.

(** A name that needs quoting, run through the theorem. *)
Lemma getSafePropertyName_special_name :
  ¬ Identifier "special-name" ∧
  getSafePropertyName "special-name"
    = doubleQuote +:+ "special-name" +:+ doubleQuote ∧
  String.length (getSafePropertyName "special-name") = 14.
Proof.
  assert (¬ Identifier "special-name") as Hnot.
  { intros H%isValidIdentifier_spec. vm_compute in H. discriminate. }
  split; [exact Hnot |].
  exact (proj1 (proj2 (getSafePropertyName_quotes_once "special-name")) Hnot).
Defined.

Section RoundTrip_facts.

(** Case mapping on the characters an identifier may contain. *)
Lemma identifier_char_cases (c : ascii) :
  Char.isIdentifierPart c = true →
  Char.isLineTerminator c = false ∧
  Char.isLineTerminator (Char.toUpperCase c) = false ∧
  Char.isLower (Char.toLowerCase (Char.toUpperCase c)) = Char.isLetter c ∧
  Char.isLower (Char.toLowerCase (Char.toUpperCase (Char.toUpperCase c)))
    = Char.isLetter c ∧
  Char.isUpper (Char.toLowerCase (Char.toUpperCase c)) = false ∧
  Char.isUpper (Char.toLowerCase (Char.toUpperCase (Char.toUpperCase c)))
    = false.
Proof.
  destruct c as [[] [] [] [] [] [] [] []]; vm_compute;
    intros; try discriminate; repeat split.
Qed.

Lemma identifier_start_cases (c : ascii) :
  Char.isIdentifierStart c = true →
  Char.isIdentifierPart c = true ∧
  Char.isSeparator c = (c =? "_")%char ∧
  ((c =? "_")%char = true → Char.isLetter c = false).
Proof.
  destruct c as [[] [] [] [] [] [] [] []]; vm_compute;
    intros; try discriminate; repeat split; done.
Qed.

(** The first character of [toPascalCase s] for an identifier [s]. *)
Lemma toPascalCase_first (c : ascii) (rest : string) :
  Char.isIdentifierStart c = true →
  allChars Char.isIdentifierPart rest = true →
  ∃ c' rest',
    toPascalCase (String c rest) = String c' rest' ∧
    Char.isUpper (Char.toLowerCase c') = false ∧
    Char.isLower (Char.toLowerCase c')
      = Char.isLetter c || ((c =? "_")%char && startsWithLetter rest).
Proof.
  intros Hc Hrest.
  destruct (identifier_start_cases c Hc) as (Hpart & Hsep & Hunder).
  destruct (identifier_char_cases c Hpart) as (Hlt & _ & Hlow & _ & Hup & _).
  unfold toPascalCase. destruct rest as [|d rest']; simpl.
  - rewrite Hlt. eexists _, _. split_and!; [done | done |].
    rewrite Hlow. by rewrite andb_false_r, orb_false_r.
  - simpl in Hrest. apply andb_true_iff in Hrest as [Hd _].
    destruct (identifier_char_cases d Hd)
      as (Hdlt & Hdult & _ & Hdlow & _ & Hdup).
    rewrite Hsep, Hdlt. simpl. destruct (c =? "_")%char eqn:Hunderscore.
    + simpl. rewrite Hdult. eexists _, _. split_and!; [done | done |].
      rewrite Hdlow, (Hunder eq_refl). done.
    + simpl. rewrite Hlt. eexists _, _. split_and!; [done | done |].
      rewrite Hlow. by rewrite orb_false_r.
Qed.

End RoundTrip_facts.

(** C6, as the specification states it, fails: an identifier may start with
    [$] (or [_]), which no case mapping turns into a lowercase letter. *)
Lemma roundTripNaming_fails :
  isValidIdentifier "$ref" = true ∧
  toSchemaName (toPascalCase "$ref") = "$refSchema" ∧
  ¬ roundTripNaming "$ref".
Proof.
  split_and!; [reflexivity | reflexivity |].
  intros [Hlower _]. vm_compute in Hlower. discriminate.
Qed.

(** C6, amended.  For every identifier [s], [toSchemaName (toPascalCase s)]
    ends with [Schema] and never starts with an uppercase letter; it starts
    with a lowercase letter exactly when [s] starts with a letter, or with
    an underscore followed by a letter. *)
Theorem toSchemaName_toPascalCase_shape (s : string) :
  isValidIdentifier s = true →
  endsWith (toSchemaName (toPascalCase s)) "Schema" ∧
  (∃ c rest, toSchemaName (toPascalCase s) = String c rest ∧
             Char.isUpper c = false) ∧
  (startsWithLowercase (toSchemaName (toPascalCase s)) = true ↔
   startsWithLetter s = true ∨
   ∃ rest, s = String "_" rest ∧ startsWithLetter rest = true).
Proof.
  intros Hvalid. split; [by eexists |].
  destruct s as [|c rest]; [done |]. simpl in Hvalid.
  apply andb_true_iff in Hvalid as [Hc Hrest].
  destruct (toPascalCase_first c rest Hc Hrest)
    as (c' & rest' & -> & Hup & Hlow).
  split.
  - eexists _, _. split; [reflexivity | exact Hup].
  - simpl. rewrite Hlow, orb_true_iff, andb_true_iff. split.
    + intros [? | [Hunderscore ?]]; [by left | right].
      apply Ascii.eqb_eq in Hunderscore as ->. eauto.
    + intros [? | (rest0 & [= -> ->] & ?)]; [by left | right]. done.
Qed.

(** The doc comment's [create_user], run through the theorem. *)
Lemma toSchemaName_toPascalCase_create_user :
  toSchemaName (toPascalCase "create_user") = "createUserSchema" ∧
  endsWith (toSchemaName (toPascalCase "create_user")) "Schema" ∧
  startsWithLowercase (toSchemaName (toPascalCase "create_user")) = true.
Proof.
  split; [reflexivity |].
  destruct (toSchemaName_toPascalCase_shape "create_user" eq_refl)
    as (Hends & _ & Hstarts).
  split; [exact Hends |]. apply Hstarts. left. reflexivity.
Defined.

(* ===================================================================== *)
(** * The claims about the emitter registry *)
(* ===================================================================== *)

Section Registry_facts.

Lemma elem_of_three (a b c v : string) :
  v ∈ [a; b; c] ↔ v = a ∨ v = b ∨ v = c.
Proof. rewrite !elem_of_cons, elem_of_nil. tauto. Qed.

Lemma elem_of_four (a b c d v : string) :
  v ∈ [a; b; c; d] ↔ v = a ∨ v = b ∨ v = c ∨ v = d.
Proof. rewrite !elem_of_cons, elem_of_nil. tauto. Qed.

Lemma isValidatorLibrary_three (v : string) :
  Registry.isValidatorLibrary v = true ↔ v ∈ ["zod"; "valibot"; "arktype"].
Proof.
  unfold Registry.isValidatorLibrary.
  rewrite !orb_true_iff, !String.eqb_eq, elem_of_three. tauto.
Qed.

Lemma isValidatorLibrary_four (v : string) :
  RegistryWithEffect.isValidatorLibrary v = true
  ↔ v ∈ ["zod"; "valibot"; "arktype"; "effect"].
Proof.
  unfold RegistryWithEffect.isValidatorLibrary.
  rewrite !orb_true_iff, !String.eqb_eq, elem_of_four. tauto.
Qed.

End Registry_facts.

Section GetEmitter_facts.

Variables zodE valibotE arktypeE effectE : Emitter.

Lemma supportedValidators_not_inherited (lib : string) :
  lib ∈ objectPrototypeKeys →
  (lib ∉ Registry.supportedValidators)
  ∧ (lib ∉ RegistryWithEffect.supportedValidators).
Proof.
  unfold objectPrototypeKeys. intros Hin.
  repeat (apply elem_of_cons in Hin as [-> | Hin]);
    [.. | by apply elem_of_nil in Hin];
    (split; apply (bool_decide_unpack _); vm_compute; exact I).
Qed.

(** What [getEmitter] does, for every string: a registered identifier gets
    its emitter, an inherited key gets the inherited member, and only the
    remaining strings get the error that lists the supported set. *)
Lemma getEmitter_cases (lib : string) :
  (lib ∈ Registry.supportedValidators →
   ∃ e, Registry.getEmitter zodE valibotE arktypeE lib = Returned e
        ∧ (lib, e) ∈ Registry.emitters zodE valibotE arktypeE) ∧
  (lib ∈ objectPrototypeKeys →
   Registry.getEmitter zodE valibotE arktypeE lib = ReturnedInherited lib) ∧
  (lib ∉ Registry.supportedValidators → lib ∉ objectPrototypeKeys →
   Registry.getEmitter zodE valibotE arktypeE lib
   = Thrown ("Unknown validator library: " +:+ lib +:+
             ". Supported libraries: zod, valibot, arktype")).
Proof.
  unfold Registry.supportedValidators, Registry.getEmitter, Registry.emitters.
  split_and!.
  - intros [-> | [-> | ->]]%elem_of_three; eexists;
      (split; [reflexivity | set_solver]).
  - unfold objectPrototypeKeys. intros Hin.
    repeat (apply elem_of_cons in Hin as [-> | Hin]);
      [.. | by apply elem_of_nil in Hin]; vm_compute; reflexivity.
  - rewrite elem_of_three. intros Hnot Hinherited.
    unfold getProperty. cbn [getOwn].
    destruct (String.eqb_spec lib "zod"); [tauto |].
    destruct (String.eqb_spec lib "valibot"); [tauto |].
    destruct (String.eqb_spec lib "arktype"); [tauto |].
    by rewrite bool_decide_eq_false_2.
Qed.

(** The later revision answers in the same way, with [effect] in the
    registry and in the message. *)
Lemma getEmitter_with_effect (lib : string) :
  (lib ∈ RegistryWithEffect.supportedValidators →
   ∃ e, RegistryWithEffect.getEmitter zodE valibotE arktypeE effectE lib
        = Returned e ∧
        (lib, e) ∈ RegistryWithEffect.emitters zodE valibotE arktypeE effectE) ∧
  (lib ∈ objectPrototypeKeys →
   RegistryWithEffect.getEmitter zodE valibotE arktypeE effectE lib
   = ReturnedInherited lib) ∧
  (lib ∉ RegistryWithEffect.supportedValidators →
   lib ∉ objectPrototypeKeys →
   RegistryWithEffect.getEmitter zodE valibotE arktypeE effectE lib
   = Thrown ("Unknown validator library: " +:+ lib +:+
             ". Supported libraries: zod, valibot, arktype, effect")).
Proof.
  unfold RegistryWithEffect.supportedValidators, RegistryWithEffect.getEmitter,
    RegistryWithEffect.emitters.
  split_and!.
  - intros [-> | [-> | [-> | ->]]]%elem_of_four; eexists;
      (split; [reflexivity | set_solver]).
  - unfold objectPrototypeKeys. intros Hin.
    repeat (apply elem_of_cons in Hin as [-> | Hin]);
      [.. | by apply elem_of_nil in Hin]; vm_compute; reflexivity.
  - rewrite elem_of_four. intros Hnot Hinherited.
    unfold getProperty. cbn [getOwn].
    destruct (String.eqb_spec lib "zod"); [tauto |].
    destruct (String.eqb_spec lib "valibot"); [tauto |].
    destruct (String.eqb_spec lib "arktype"); [tauto |].
    destruct (String.eqb_spec lib "effect"); [tauto |].
    by rewrite bool_decide_eq_false_2.
Qed.

End GetEmitter_facts.

(** With the emitter objects as the specification and the emitter tests
    describe them, a supported identifier gets the emitter whose [library]
    is that identifier. *)
Lemma getEmitter_registered_library (lib : string) :
  lib ∈ Registry.supportedValidators →
  ∃ e, Registry.getEmitter zodEmitter valibotEmitter arktypeEmitter lib
       = Returned e ∧ library e = lib.
Proof.
  intros [-> | [-> | ->]]%elem_of_three; by eexists.
Qed.

(** The calls of the registry tests. *)
Example getEmitter_zod_valibot_arktype_unknown :
  Registry.getEmitter zodEmitter valibotEmitter arktypeEmitter "zod"
  = Returned zodEmitter ∧
  Registry.getEmitter zodEmitter valibotEmitter arktypeEmitter "valibot"
  = Returned valibotEmitter ∧
  Registry.getEmitter zodEmitter valibotEmitter arktypeEmitter "arktype"
  = Returned arktypeEmitter ∧
  Registry.getEmitter zodEmitter valibotEmitter arktypeEmitter "unknown"
  = Thrown "Unknown validator library: unknown. Supported libraries: zod, valibot, arktype".
Proof. split_and!; reflexivity. Qed.

(** C8.  [getEmitter] does not reject every unknown identifier.  Asked for
    [constructor], which is no supported identifier, it throws nothing and
    returns the member that the registry object inherits from
    [Object.prototype], which is no emitter; so it does for every key of
    [Object.prototype], in both revisions of the registry. *)
Theorem getEmitter_inherited_key_not_rejected
    (zodE valibotE arktypeE effectE : Emitter) :
  ("constructor" ∉ Registry.supportedValidators) ∧
  Registry.isValidatorLibrary "constructor" = false ∧
  Registry.getEmitter zodE valibotE arktypeE "constructor"
  = ReturnedInherited "constructor" ∧
  (∀ message,
     Registry.getEmitter zodE valibotE arktypeE "constructor"
     ≠ Thrown message) ∧
  (∀ lib, lib ∈ objectPrototypeKeys →
          (lib ∉ Registry.supportedValidators)
          ∧ Registry.getEmitter zodE valibotE arktypeE lib
            = ReturnedInherited lib
          ∧ (lib ∉ RegistryWithEffect.supportedValidators)
          ∧ RegistryWithEffect.getEmitter zodE valibotE arktypeE effectE lib
            = ReturnedInherited lib).
Proof.
  split_and!.
  - apply (bool_decide_unpack _). vm_compute. exact I.
  - reflexivity.
  - reflexivity.
  - intros message. discriminate.
  - intros lib Hlib.
    destruct (supportedValidators_not_inherited lib Hlib) as [? ?].
    destruct (getEmitter_cases zodE valibotE arktypeE lib) as (_ & H3 & _).
    destruct (getEmitter_with_effect zodE valibotE arktypeE effectE lib)
      as (_ & H4 & _).
    split_and!; [done | by apply H3 | done | by apply H4].
Qed.

(** C9, as the specification states it, fails on the registry it cites:
    [effect] is neither accepted, nor listed, nor registered there. *)
Lemma supportsExactly_four_fails :
  Registry.isValidatorLibrary "effect" = false ∧
  ¬ supportsExactly ["zod"; "valibot"; "arktype"; "effect"]
      Registry.isValidatorLibrary Registry.supportedValidators
      (Registry.getEmitter zodEmitter valibotEmitter arktypeEmitter).
Proof.
  split; [reflexivity |]. intros (Hvalid & _ & _).
  assert (Registry.isValidatorLibrary "effect" = true) as H.
  { apply Hvalid. set_solver. }
  vm_compute in H. discriminate.
Qed.

(** C9, amended.  The registry that goes with
    [ValidatorLibrary = "zod" | "valibot" | "arktype"] supports exactly
    these three identifiers; the later revision, which registers
    [effectEmitter], supports exactly [zod], [valibot], [arktype] and
    [effect].  In each, [isValidatorLibrary], [supportedValidators] and
    [getEmitter] agree on the set. *)
Theorem supported_validators_per_revision :
  (∀ zodE valibotE arktypeE : Emitter,
     supportsExactly ["zod"; "valibot"; "arktype"]
       Registry.isValidatorLibrary Registry.supportedValidators
       (Registry.getEmitter zodE valibotE arktypeE)) ∧
  (∀ zodE valibotE arktypeE effectE : Emitter,
     supportsExactly ["zod"; "valibot"; "arktype"; "effect"]
       RegistryWithEffect.isValidatorLibrary
       RegistryWithEffect.supportedValidators
       (RegistryWithEffect.getEmitter zodE valibotE arktypeE effectE)).
Proof.
  split.
  - intros zodE valibotE arktypeE. split_and!.
    + apply isValidatorLibrary_three.
    + reflexivity.
    + intros v [-> | [-> | ->]]%elem_of_three; by eexists.
  - intros zodE valibotE arktypeE effectE. split_and!.
    + apply isValidatorLibrary_four.
    + reflexivity.
    + intros v [-> | [-> | [-> | ->]]]%elem_of_four; by eexists.
Qed.

(* ===================================================================== *)
(** * The claim about optional and nullish *)
(* ===================================================================== *)

(** The scenario of the specification: [email], an optional string. *)
Example zodPropertyLine_email :
  zodPropertyLine (λ _, "z.string()") "email"
    (ObjectProperty plainString false None)
  = "email: z.string().nullish()".
Proof. reflexivity. Qed.

(** C5, as the specification states it, fails: an optional OpenAPI parameter
    is an object property with [required: false], and the Zod emitter gives
    every such property the [.nullish()] suffix. *)
Lemma keepsOptionalDistinct_fails :
  zodPropertyWrapper
    (resolveProperty (openapiParameter integerSchema false false))
  = ".nullish()" ∧
  ¬ keepsOptionalDistinct.
Proof.
  split; [reflexivity |]. intros [_ Hopenapi].
  specialize (Hopenapi integerSchema). vm_compute in Hopenapi. discriminate.
Qed.

(** C5, amended.  Optional and nullish stay distinct in the IR: the GraphQL
    input field without non-null wrapper carries a union with [null] and
    [undefined], the OpenAPI parameter with [required: false] and no
    [nullable] carries its schema unchanged, and both are properties with
    [required: false].  In emitted Zod code both property lines end in
    [.nullish()]. *)
Theorem optional_and_nullish_in_zod (emitSchema : SchemaIR → string)
    (key : string) (schema : SchemaIR) :
  resolveProperty (graphqlInputField schema false)
  = ObjectProperty (makeNullish schema) false None ∧
  resolveProperty (openapiParameter schema false false)
  = ObjectProperty schema false None ∧
  zodPropertyLine emitSchema key
    (resolveProperty (graphqlInputField schema false))
  = getSafePropertyName key +:+ ": " +:+ emitSchema (makeNullish schema) +:+
    ".nullish()" ∧
  zodPropertyLine emitSchema key
    (resolveProperty (openapiParameter schema false false))
  = getSafePropertyName key +:+ ": " +:+ emitSchema schema +:+ ".nullish()".
Proof. split_and!; reflexivity. Qed.

(* ===================================================================== *)
(** * Further properties of the topological sort *)
(* ===================================================================== *)

Section Sort_further.

Lemma forOf_unchanged {A S : Type} (body : A → S → option S) (l : list A)
    (st : S) :
  (∀ x, x ∈ l → body x st = Some st) → forOf body l st = Some st.
Proof.
  induction l as [|x l IH]; intros Hbody; simpl; [done |].
  rewrite (Hbody x (list_elem_of_here _ _)). apply IH.
  intros y Hy. apply Hbody. by apply list_elem_of_further.
Qed.

(** An entry whose known dependencies are all visited is emitted at once. *)
Lemma visit_ready (m : gmap string NamedSchemaIR) (fuel : nat) (n : string)
    (e : NamedSchemaIR) (st : SortState) :
  m !! n = Some e → n ∉ visited st → n ∉ visiting st →
  (∀ d, d ∈ dependencies e → is_Some (m !! d) → d ∈ visited st) →
  visit (S (S fuel)) m n st
  = Some {| result := result st ++ [e];
            visited := {[n]} ∪ visited st;
            visiting := ({[n]} ∪ visiting st) ∖ {[n]} |}.
Proof.
  intros Hm Hvisited Hvisiting Hdeps.
  cbn [visit]. rewrite !bool_decide_eq_false_2 by done. rewrite Hm.
  rewrite forOf_unchanged; [done |].
  intros d Hd. case_bool_decide as Hknown; [| done].
  cbn [visit visited]. by rewrite bool_decide_eq_true_2 by auto.
Qed.

Lemma visitAll_ordered_input (schemas : list NamedSchemaIR) (fuel : nat) :
  NoDup (name <$> schemas) → dependencyOrdered schemas →
  ∀ suf pre, pre ++ suf = schemas →
    visitAll (S (S fuel)) (buildSchemaMap schemas) (name <$> suf)
      {| result := pre; visited := list_to_set (name <$> pre);
         visiting := ∅ |}
    = Some {| result := schemas;
              visited := list_to_set (name <$> schemas);
              visiting := ∅ |}.
Proof.
  intros Hnd Hordered. unfold visitAll.
  induction suf as [|x suf IH]; intros pre Hsplit.
  - rewrite app_nil_r in Hsplit. by subst.
  - cbn [fmap list_fmap forOf].
    assert (schemas !! length pre = Some x) as Hx.
    { rewrite <- Hsplit. by rewrite list_lookup_middle. }
    rewrite (visit_ready _ _ _ x).
    + cbn [result visited visiting].
      replace ({[name x]} ∪ list_to_set (name <$> pre) : gset string)
        with (list_to_set (C:=gset string) (name <$> (pre ++ [x])))
        by (rewrite fmap_app, list_to_set_app_L; set_solver).
      replace (({[name x]} ∪ ∅) ∖ {[name x]} : gset string)
        with (∅ : gset string) by set_solver.
      apply IH. by rewrite <- app_assoc.
    + apply lookup_buildSchemaMap_NoDup; [done |].
      by eapply list_elem_of_lookup_2.
    + cbn [visited]. rewrite elem_of_list_to_set.
      rewrite <- Hsplit, fmap_app, fmap_cons in Hnd.
      apply NoDup_app in Hnd as (_ & Hdisj & _).
      intros Hin. apply (Hdisj _ Hin). apply list_elem_of_here.
    + cbn [visiting]. set_solver.
    + intros d Hd Hknown. cbn [visited]. rewrite elem_of_list_to_set.
      apply buildSchemaMap_is_Some in Hknown.
      pose proof (Hordered _ _ _ Hx Hd Hknown) as Hin.
      by rewrite <- Hsplit, take_app_length in Hin.
Qed.

(** An input already in dependency order comes back unchanged. *)
Lemma topologicalSortSchemas_ordered_input (schemas : list NamedSchemaIR) :
  NoDup (name <$> schemas) → dependencyOrdered schemas →
  topologicalSortSchemas schemas = Some schemas.
Proof.
  intros Hnd Hordered. unfold topologicalSortSchemas.
  destruct schemas as [|x schemas]; [done |]. cbv zeta.
  replace (visitAll (S (length (x :: schemas))) (buildSchemaMap (x :: schemas))
             (name <$> x :: schemas) initialState)
    with (Some {| result := x :: schemas;
                  visited := list_to_set (name <$> x :: schemas);
                  visiting := ∅ |}); [done |].
  symmetry.
  exact (visitAll_ordered_input (x :: schemas) (length schemas) Hnd
           Hordered (x :: schemas) [] eq_refl).
Qed.

(** Two entries of the output stand in one order or the other. *)
Lemma before_total {A : Type} (l : list A) (a b : A) (i j : nat) :
  l !! i = Some a → l !! j = Some b → i ≠ j → before l a b ∨ before l b a.
Proof.
  intros Hi Hj Hne. destruct (decide (i < j)).
  - left. exists i, j. auto.
  - right. exists j, i. split_and!; [lia | done | done].
Qed.

(** A dependency that has no path back to its dependent is emitted first. *)
Lemma topologicalSortSchemas_dependency_before
    (schemas out : list NamedSchemaIR) (a b : NamedSchemaIR) :
  topologicalSortSchemas schemas = Some out →
  a ∈ out → b ∈ out →
  name b ∈ dependencies a →
  ¬ tc (dependsOn (buildSchemaMap schemas)) (name b) (name a) →
  before out b a.
Proof.
  intros Hout Ha Hb Hdep Hback.
  pose proof (proj1 (elem_of_topologicalSortSchemas _ _ Hout a) Ha) as Hma.
  pose proof (proj1 (elem_of_topologicalSortSchemas _ _ Hout b) Hb) as Hmb.
  apply list_elem_of_lookup in Ha as (i & Hi).
  apply list_elem_of_lookup in Hb as (j & Hj).
  assert (dependsOn (buildSchemaMap schemas) (name a) (name b)) as Hedge.
  { exists a. split_and!; [done .. |]. by rewrite Hmb. }
  destruct (decide (i = j)) as [-> | Hne].
  - exfalso. apply Hback. rewrite Hi in Hj. injection Hj as ->.
    by apply tc_once.
  - destruct (before_total out a b i j Hi Hj Hne) as [Hbefore | ?]; [| done].
    exfalso. apply Hback.
    by destruct (topologicalSortSchemas_before _ _ Hout a b Hbefore Hdep).
Qed.

(** On an acyclic graph the output is in dependency order. *)
Lemma topologicalSortSchemas_dependencyOrdered
    (schemas out : list NamedSchemaIR) :
  NoDup (name <$> schemas) →
  acyclic (buildSchemaMap schemas) →
  topologicalSortSchemas schemas = Some out →
  dependencyOrdered out.
Proof.
  intros Hnd Hacyclic Hout i a d Hi Hd Hknown.
  apply list_elem_of_fmap in Hknown as (b & -> & Hb).
  pose proof (list_elem_of_lookup_2 _ _ _ Hi) as Ha.
  assert (before out b a) as (j & i' & Hji & Hj & Hi').
  { eapply topologicalSortSchemas_dependency_before; try done.
    intros Hback.
    apply (Hacyclic (name a)).
    eapply tc_l; [| exact Hback].
    exists a. split_and!; [| done |].
    - by apply (elem_of_topologicalSortSchemas _ _ Hout).
    - apply (elem_of_topologicalSortSchemas _ _ Hout) in Hb. by rewrite Hb. }
  assert (i' = i) as ->.
  { eapply NoDup_lookup;
      [apply (NoDup_fmap_1 name), (topologicalSortSchemas_NoDup _ _ Hout)
      | done | done]. }
  apply list_elem_of_fmap. exists b. split; [done |].
  apply elem_of_take. eauto.
Qed.

Lemma buildSchemaMap_Permutation (l k : list NamedSchemaIR) :
  NoDup (name <$> l) → l ≡ₚ k → buildSchemaMap l = buildSchemaMap k.
Proof.
  intros Hnd Hperm.
  assert (NoDup (name <$> k)) as Hnd' by (by rewrite <- Hperm).
  apply map_eq. intros n. apply option_eq. intros e. split; intros He.
  - pose proof (buildSchemaMap_name _ _ _ He) as <-.
    apply lookup_buildSchemaMap_NoDup; [done |].
    rewrite <- Hperm. by eapply buildSchemaMap_elem_of.
  - pose proof (buildSchemaMap_name _ _ _ He) as <-.
    apply lookup_buildSchemaMap_NoDup; [done |].
    rewrite Hperm. by eapply buildSchemaMap_elem_of.
Qed.

End Sort_further.

(** X1.  With pairwise-distinct names, an input entry [b] that [a] lists as
    a dependency, and from which no dependency path leads back to [a], is
    emitted before [a]. *)
Theorem topologicalSortSchemas_emits_dependency_first
    (schemas out : list NamedSchemaIR) (a b : NamedSchemaIR) :
  NoDup (name <$> schemas) →
  topologicalSortSchemas schemas = Some out →
  a ∈ schemas → b ∈ schemas →
  name b ∈ dependencies a →
  ¬ tc (dependsOn (buildSchemaMap schemas)) (name b) (name a) →
  before out b a.
Proof.
  intros Hnd Hout Ha Hb Hdep Hback.
  pose proof (topologicalSortSchemas_Permutation _ _ Hout Hnd) as Hperm.
  eapply topologicalSortSchemas_dependency_before; try done.
  - by rewrite Hperm.
  - by rewrite Hperm.
Qed.

(** [Tag] is emitted before [User], which depends on it. *)
Lemma topologicalSortSchemas_Tag_before_User :
  before [entryTag; entryUser; entryPet] entryTag entryUser.
Proof.
  apply (topologicalSortSchemas_emits_dependency_first
           [entryUser; entryPet; entryTag] _ entryUser entryTag).
  - apply (bool_decide_unpack _). vm_compute. exact I.
  - vm_compute. reflexivity.
  - set_solver.
  - set_solver.
  - vm_compute. apply list_elem_of_here.
  - apply (no_dependencies_no_path _ _ _ entryTag); vm_compute; reflexivity.
Defined.

(** X2.  With pairwise-distinct names, an input in which every dependency
    that names an input entry stands before the entry listing it is returned
    unchanged. *)
Theorem topologicalSortSchemas_identity_on_ordered
    (schemas : list NamedSchemaIR) :
  NoDup (name <$> schemas) →
  dependencyOrdered schemas →
  topologicalSortSchemas schemas = Some schemas.
Proof. apply topologicalSortSchemas_ordered_input. Qed.

Lemma dependencyOrdered_Tag_User_Pet :
  dependencyOrdered [entryTag; entryUser; entryPet].
Proof.
  intros i a d Hi Hd _.
  destruct i as [|[|[|i]]]; simpl in Hi; try discriminate;
    injection Hi as <-; vm_compute in Hd.
  - by apply not_elem_of_nil in Hd.
  - apply list_elem_of_singleton in Hd as ->. vm_compute.
    apply list_elem_of_here.
  - by apply not_elem_of_nil in Hd.
Qed.

(** [Tag; User; Pet] is in dependency order and stays as it is. *)
Lemma topologicalSortSchemas_Tag_User_Pet :
  topologicalSortSchemas [entryTag; entryUser; entryPet]
  = Some [entryTag; entryUser; entryPet].
Proof.
  apply topologicalSortSchemas_identity_on_ordered.
  - apply (bool_decide_unpack _). vm_compute. exact I.
  - exact dependencyOrdered_Tag_User_Pet.
Defined.

(** X3.  With pairwise-distinct names and no dependency cycle, sorting the
    output again returns it unchanged. *)
Theorem topologicalSortSchemas_idempotent_when_acyclic
    (schemas out : list NamedSchemaIR) :
  NoDup (name <$> schemas) →
  acyclic (buildSchemaMap schemas) →
  topologicalSortSchemas schemas = Some out →
  topologicalSortSchemas out = Some out.
Proof.
  intros Hnd Hacyclic Hout.
  apply topologicalSortSchemas_ordered_input.
  - by eapply topologicalSortSchemas_NoDup.
  - by eapply topologicalSortSchemas_dependencyOrdered.
Qed.

Lemma acyclic_User_Pet_Tag :
  acyclic (buildSchemaMap [entryUser; entryPet; entryTag]).
Proof.
  assert (∀ x y, dependsOn (buildSchemaMap [entryUser; entryPet; entryTag])
                   x y → x = "User" ∧ y = "Tag") as Hedges.
  { intros x y (e & He & Hin & _).
    pose proof (buildSchemaMap_name _ _ _ He) as <-.
    apply buildSchemaMap_elem_of in He.
    apply elem_of_cons in He as [-> | He];
      [vm_compute in Hin; apply list_elem_of_singleton in Hin as ->; done |].
    apply elem_of_cons in He as [-> | He];
      [vm_compute in Hin; by apply not_elem_of_nil in Hin |].
    apply list_elem_of_singleton in He as ->.
    vm_compute in Hin. by apply not_elem_of_nil in Hin. }
  intros x Hcycle.
  inversion Hcycle as [? ? Hedge | ? y ? Hedge Hrest]; subst.
  - by destruct (Hedges _ _ Hedge) as [-> ?].
  - destruct (Hedges _ _ Hedge) as [-> ->].
    apply (no_dependencies_no_path _ _ _ entryTag) in Hrest; [done | |];
      vm_compute; reflexivity.
Qed.

(** Sorting [User; Pet; Tag] twice gives what sorting it once gives. *)
Lemma topologicalSortSchemas_twice_User_Pet_Tag :
  topologicalSortSchemas [entryUser; entryPet; entryTag]
    = Some [entryTag; entryUser; entryPet] ∧
  topologicalSortSchemas [entryTag; entryUser; entryPet]
    = Some [entryTag; entryUser; entryPet].
Proof.
  split; [vm_compute; reflexivity |].
  apply (topologicalSortSchemas_idempotent_when_acyclic
           [entryUser; entryPet; entryTag]).
  - apply (bool_decide_unpack _). vm_compute. exact I.
  - exact acyclic_User_Pet_Tag.
  - vm_compute. reflexivity.
Defined.

(* ===================================================================== *)
(** * Further properties of dependency extraction *)
(* ===================================================================== *)

Section ExtractDependencies_order.

Lemma firstOccurrences_app (seen : gset string) (l1 l2 : list string) :
  firstOccurrences seen (l1 ++ l2)
  = firstOccurrences seen l1
    ++ firstOccurrences (list_to_set l1 ∪ seen) l2.
Proof.
  revert seen. induction l1 as [|x l1 IH]; intros seen; simpl.
  - f_equal. set_solver.
  - case_bool_decide as Hx.
    + rewrite IH. do 2 f_equal. set_solver.
    + rewrite IH. simpl. do 3 f_equal. set_solver.
Qed.

Lemma list_to_set_firstOccurrences (deps l : list string) :
  list_to_set (C:=gset string)
    (deps ++ firstOccurrences (list_to_set deps) l)
  = list_to_set l ∪ list_to_set deps.
Proof.
  apply set_eq. intros x.
  rewrite list_to_set_app_L, !elem_of_union, !elem_of_list_to_set,
    elem_of_firstOccurrences, elem_of_list_to_set.
  destruct (decide (x ∈ deps)); tauto.
Qed.

Lemma add_appends (n : string) (deps : list string) :
  JsSet.add n deps = deps ++ firstOccurrences (list_to_set deps) [n].
Proof.
  unfold JsSet.add, JsSet.has. simpl.
  case_bool_decide as Hn.
  - rewrite bool_decide_eq_true_2 by (by apply elem_of_list_to_set).
    by rewrite app_nil_r.
  - rewrite bool_decide_eq_false_2; [done |].
    by rewrite elem_of_list_to_set.
Qed.

(** Two visits in a row append what one visit of both would. *)
Lemma visit_appends_seq (deps r1 r2 : list string) :
  (deps ++ firstOccurrences (list_to_set deps) r1)
  ++ firstOccurrences
       (list_to_set (deps ++ firstOccurrences (list_to_set deps) r1)) r2
  = deps ++ firstOccurrences (list_to_set deps) (r1 ++ r2).
Proof.
  by rewrite firstOccurrences_app, list_to_set_firstOccurrences, app_assoc.
Qed.

Lemma refNames_items_foldr (l : list SchemaIR) :
  (fix each (l : list SchemaIR) : list string :=
     match l with
     | [] => []
     | item :: l' => refNames item ++ each l'
     end) l
  = foldr (λ s acc, refNames s ++ acc) [] l.
Proof. induction l as [|x l IH]; simpl; [done | by rewrite IH]. Qed.

Lemma refNames_values_foldr (ps : list (string * ObjectPropertyIR)) :
  (fix values (ps : list (string * ObjectPropertyIR)) : list string :=
     match ps with
     | [] => []
     | (_, ObjectProperty schema _ _) :: ps' => refNames schema ++ values ps'
     end) ps
  = foldr (λ kp acc, refNames (prop_schema kp.2) ++ acc) [] ps.
Proof.
  induction ps as [|[k [x r d]] ps IH]; simpl; [done | by rewrite IH].
Qed.

Lemma foldl_visit_appends {A} (f : A → SchemaIR) (l : list A) :
  Forall (λ a, visit_appends (f a)) l →
  ∀ deps : list string,
    foldl (λ d a, extractDependencies_visit (f a) d) deps l
    = deps ++ firstOccurrences (list_to_set deps)
                (foldr (λ a acc, refNames (f a) ++ acc) [] l).
Proof.
  induction 1 as [|a l Ha Hl IH]; intros deps; simpl.
  - by rewrite app_nil_r.
  - rewrite IH, (Ha deps). apply visit_appends_seq.
Qed.

Lemma extractDependencies_visit_appends (s : SchemaIR) : visit_appends s.
Proof.
  induction s using SchemaIR_nested_ind; intros deps; simpl;
    try (by rewrite app_nil_r).
  - (* object *)
    rewrite visit_values_foldl, refNames_values_foldr.
    rewrite (foldl_visit_appends (λ kp : string * ObjectPropertyIR,
                                    prop_schema kp.2) props H).
    destruct ap as [[b | s'] |].
    + by rewrite app_nil_r.
    + rewrite (H0 s' eq_refl _). apply visit_appends_seq.
    + by rewrite app_nil_r.
  - (* array *) apply IHs.
  - (* tuple *)
    rewrite visit_items_foldl, refNames_items_foldr.
    apply (foldl_visit_appends id l H).
  - (* record *)
    rewrite (IHs1 deps), (IHs2 _). apply visit_appends_seq.
  - (* union *)
    rewrite visit_items_foldl, refNames_items_foldr.
    apply (foldl_visit_appends id l H).
  - (* intersection *)
    rewrite visit_items_foldl, refNames_items_foldr.
    apply (foldl_visit_appends id l H).
  - (* ref *) apply add_appends.
Qed.

End ExtractDependencies_order.

Lemma extractDependencies_refNames (s : SchemaIR) :
  extractDependencies s = firstOccurrences ∅ (refNames s).
Proof.
  unfold extractDependencies, JsSet.empty.
  by rewrite (extractDependencies_visit_appends s []).
Qed.

(** X4.  [extractDependencies] lists the referenced names in the order in
    which the traversal first meets them: properties in order, then
    [additionalProperties]; key before value; members and items from left
    to right. *)
Theorem extractDependencies_first_occurrence_order (s : SchemaIR) :
  extractDependencies s = firstOccurrences ∅ (refNames s).
Proof. apply extractDependencies_refNames. Qed.

(** X5.  Wrapping a schema with [makeNullable] or [makeNullish] changes
    neither the extracted dependencies nor those of the entry that
    [createNamedSchema] builds from it. *)
Theorem nullable_wrappers_keep_dependencies (n : string) (s : SchemaIR)
    (c : option SchemaCategory) :
  extractDependencies (makeNullable s) = extractDependencies s ∧
  extractDependencies (makeNullish s) = extractDependencies s ∧
  dependencies (createNamedSchema n (makeNullable s) c)
    = dependencies (createNamedSchema n s c) ∧
  dependencies (createNamedSchema n (makeNullish s) c)
    = dependencies (createNamedSchema n s c).
Proof.
  assert (refNames (makeNullable s) = refNames s) as Hnullable.
  { simpl. by rewrite !app_nil_r. }
  assert (refNames (makeNullish s) = refNames s) as Hnullish.
  { simpl. by rewrite !app_nil_r. }
  unfold createNamedSchema. cbn [dependencies].
  by rewrite !extractDependencies_refNames,
    Hnullable, Hnullish.
Qed.

(* ===================================================================== *)
(** * Further properties of the naming utilities *)
(* ===================================================================== *)

Section Naming_further.

Lemma string_app_nil (t : string) : EmptyString +:+ t = t.
Proof. reflexivity. Qed.

Lemma string_app_cons (c : ascii) (s t : string) :
  String c s +:+ t = String c (s +:+ t).
Proof. reflexivity. Qed.

Lemma string_app_assoc (a b c : string) :
  (a +:+ b) +:+ c = a +:+ (b +:+ c).
Proof.
  induction a as [|x a IH]; rewrite ?string_app_nil, ?string_app_cons;
    [done | by f_equal].
Qed.

Lemma string_app_inj_r (s1 s2 t : string) :
  s1 +:+ t = s2 +:+ t → s1 = s2.
Proof.
  revert s2. induction s1 as [|c s1 IH]; intros s2 Heq.
  - destruct s2 as [|d s2]; [done |].
    apply (f_equal String.length) in Heq.
    rewrite !string_length_app in Heq. simpl in Heq. lia.
  - destruct s2 as [|d s2].
    + apply (f_equal String.length) in Heq.
      rewrite !string_length_app in Heq. simpl in Heq. lia.
    + rewrite !string_app_cons in Heq. injection Heq as -> Heq.
      f_equal. by apply IH.
Qed.

Lemma allChars_app (p : ascii → bool) (s t : string) :
  allChars p (s +:+ t) = allChars p s && allChars p t.
Proof.
  induction s as [|c s IH]; rewrite ?string_app_nil, ?string_app_cons;
    simpl; [done |].
  rewrite IH. apply Bool.andb_assoc.
Qed.

(** Induction over a string two characters at a time. *)
Lemma string_pair_ind (P : string → Prop) :
  P EmptyString →
  (∀ c, P (String c EmptyString)) →
  (∀ c d s, P s → P (String d s) → P (String c (String d s))) →
  ∀ s, P s.
Proof.
  intros Hnil Hone Hstep s.
  assert (P s ∧ ∀ c, P (String c s)) as [? _]; [| done].
  induction s as [|d s [IH1 IH2]]; [by split |].
  split; [apply IH2 |]. intros c. apply Hstep; [done | apply IH2].
Qed.

Lemma replaceSeparators_pair (c d : ascii) (s : string) :
  replaceSeparators (String c (String d s))
  = if Char.isSeparator c && negb (Char.isLineTerminator d)
    then String (Char.toUpperCase d) (replaceSeparators s)
    else String c (replaceSeparators (String d s)).
Proof. reflexivity. Qed.

Lemma replaceSeparators_nonempty (c : ascii) (s : string) :
  ∃ c' s', replaceSeparators (String c s) = String c' s'.
Proof.
  destruct s as [|d s]; [by eexists _, _ |].
  rewrite replaceSeparators_pair. destruct (_ && _); by eexists _, _.
Qed.

Lemma capitalizeFirst_nonempty (c : ascii) (s : string) :
  ∃ c' s', capitalizeFirst (String c s) = String c' s'.
Proof. simpl. destruct (Char.isLineTerminator c); by eexists _, _. Qed.

Lemma toPascalCase_nonempty (s : string) :
  s ≠ EmptyString → ∃ c r, toPascalCase s = String c r.
Proof.
  intros Hs. destruct s as [|c s]; [done |]. unfold toPascalCase.
  destruct (replaceSeparators_nonempty c s) as (c' & s' & ->).
  apply capitalizeFirst_nonempty.
Qed.

Lemma length_replaceSeparators (s : string) :
  String.length (replaceSeparators s) ≤ String.length s.
Proof.
  induction s as [| c | c d s IH1 IH2] using string_pair_ind; [done .. |].
  rewrite replaceSeparators_pair. destruct (_ && _); simpl in *; lia.
Qed.

Lemma length_capitalizeFirst (s : string) :
  String.length (capitalizeFirst s) = String.length s.
Proof.
  destruct s as [|c s]; [done |]. simpl.
  by destruct (Char.isLineTerminator c).
Qed.

Lemma replaceSeparators_separatorFree (s : string) :
  separatorFree s = true → replaceSeparators s = s.
Proof.
  unfold separatorFree.
  induction s as [| c | c d s IH1 IH2] using string_pair_ind; [done .. |].
  intros Hfree. rewrite replaceSeparators_pair.
  simpl in Hfree. apply andb_true_iff in Hfree as [Hc Hrest].
  apply negb_true_iff in Hc. rewrite Hc. simpl. f_equal. by apply IH2.
Qed.

(** Case mapping, on every character. *)
Lemma toUpperCase_cases (c : ascii) :
  Char.toUpperCase (Char.toUpperCase c) = Char.toUpperCase c ∧
  Char.isLineTerminator (Char.toUpperCase c) = Char.isLineTerminator c ∧
  Char.isIdentifierPart (Char.toUpperCase c) = Char.isIdentifierPart c ∧
  Char.isIdentifierStart (Char.toUpperCase c) = Char.isIdentifierStart c ∧
  Char.isIdentifierStart (Char.toLowerCase c) = Char.isIdentifierStart c ∧
  Char.isDigit (Char.toUpperCase c) = Char.isDigit c ∧
  (Char.isLower c = false → Char.toUpperCase c = c).
Proof.
  destruct c as [[] [] [] [] [] [] [] []]; vm_compute; repeat split; done.
Qed.

Lemma identifier_part_cases (c : ascii) :
  Char.isIdentifierPart c = true →
  Char.isIdentifierStart c = negb (Char.isDigit c).
Proof.
  destruct c as [[] [] [] [] [] [] [] []]; vm_compute; done.
Qed.

Lemma capitalizeFirst_idempotent (s : string) :
  capitalizeFirst (capitalizeFirst s) = capitalizeFirst s.
Proof.
  destruct s as [|c s]; [done |].
  destruct (toUpperCase_cases c) as (Htwice & Hlt & _).
  unfold capitalizeFirst.
  destruct (Char.isLineTerminator c) eqn:Hc; simpl;
    rewrite ?Hlt, ?Hc, ?Htwice; done.
Qed.

Lemma allChars_replaceSeparators (s : string) :
  allChars Char.isIdentifierPart s = true →
  allChars Char.isIdentifierPart (replaceSeparators s) = true.
Proof.
  induction s as [| c | c d s IH1 IH2] using string_pair_ind; [done .. |].
  intros Hall. rewrite replaceSeparators_pair.
  pose proof Hall as Hall'. simpl in Hall'.
  apply andb_true_iff in Hall' as [Hc Hrest].
  pose proof Hrest as Hrest'.
  apply andb_true_iff in Hrest' as [Hd Hs].
  destruct (toUpperCase_cases d) as (_ & _ & Hpart & _).
  destruct (Char.isSeparator c && negb (Char.isLineTerminator d));
    cbn [allChars].
  - by rewrite Hpart, Hd, IH1.
  - rewrite Hc. by apply IH2.
Qed.

Lemma isValidIdentifier_quoted (n : string) :
  isValidIdentifier (doubleQuote +:+ n +:+ doubleQuote) = false.
Proof. reflexivity. Qed.

End Naming_further.

(** X6.  For every non-empty operation or fragment name, the schema-variable
    name of each GraphQL naming family is [toSchemaName] of the family's
    type name; for the empty name the two differ. *)
Theorem graphql_schema_name_is_toSchemaName_of_type_name (op : string) :
  (op ≠ EmptyString →
   toSchemaName (toQueryVariablesTypeName op) = toQueryVariablesSchemaName op ∧
   toSchemaName (toMutationVariablesTypeName op)
     = toMutationVariablesSchemaName op ∧
   toSchemaName (toQueryResponseTypeName op) = toQueryResponseSchemaName op ∧
   toSchemaName (toMutationResponseTypeName op)
     = toMutationResponseSchemaName op ∧
   toSchemaName (toFragmentTypeName op) = toFragmentSchemaName op) ∧
  (op = EmptyString →
   toSchemaName (toQueryVariablesTypeName op) ≠ toQueryVariablesSchemaName op ∧
   toSchemaName (toMutationVariablesTypeName op)
     ≠ toMutationVariablesSchemaName op ∧
   toSchemaName (toQueryResponseTypeName op) ≠ toQueryResponseSchemaName op ∧
   toSchemaName (toMutationResponseTypeName op)
     ≠ toMutationResponseSchemaName op ∧
   toSchemaName (toFragmentTypeName op) ≠ toFragmentSchemaName op).
Proof.
  split.
  - intros Hop.
    destruct (toPascalCase_nonempty op Hop) as (c & r & Hpascal).
    unfold toQueryVariablesTypeName, toMutationVariablesTypeName,
      toQueryResponseTypeName, toMutationResponseTypeName, toFragmentTypeName,
      toQueryVariablesSchemaName, toMutationVariablesSchemaName,
      toQueryResponseSchemaName, toMutationResponseSchemaName,
      toFragmentSchemaName, toCamelCase, toSchemaName.
    rewrite Hpascal, !string_app_cons. simpl.
    rewrite !string_app_cons, !string_app_nil.
    split_and!; f_equal; rewrite string_app_assoc; reflexivity.
  - intros ->. split_and!; vm_compute; discriminate.
Qed.

(** The doc comments' [GetPets]. *)
Lemma graphql_names_GetPets :
  toQueryVariablesSchemaName "GetPets" = "getPetsQueryVariablesSchema" ∧
  toSchemaName (toQueryVariablesTypeName "GetPets")
    = toQueryVariablesSchemaName "GetPets".
Proof.
  split; [reflexivity |].
  apply (proj1 (graphql_schema_name_is_toSchemaName_of_type_name "GetPets")).
  discriminate.
Defined.

Lemma getSafePropertyName_inj (n1 n2 : string) :
  getSafePropertyName n1 = getSafePropertyName n2 → n1 = n2.
Proof.
  unfold getSafePropertyName.
  destruct (isValidIdentifier n1) eqn:H1, (isValidIdentifier n2) eqn:H2;
    intros Heq.
  - done.
  - rewrite Heq, isValidIdentifier_quoted in H1. discriminate.
  - rewrite <- Heq, isValidIdentifier_quoted in H2. discriminate.
  - unfold doubleQuote in Heq. rewrite !string_app_cons, !string_app_nil in Heq.
    injection Heq as Heq. by apply string_app_inj_r in Heq.
Qed.

(** X7.  [getSafePropertyName] is injective: two different property names
    never come out as the same key. *)
Theorem getSafePropertyName_injective (n1 n2 : string) :
  n1 ≠ n2 → getSafePropertyName n1 ≠ getSafePropertyName n2.
Proof. intros Hne Heq. by apply Hne, getSafePropertyName_inj. Qed.

Lemma getSafePropertyName_distinct_keys :
  getSafePropertyName "special-name" ≠ getSafePropertyName "special_name".
Proof.
  apply getSafePropertyName_injective. discriminate.
Defined.

(** X8.  Applying [getSafePropertyName] to its own result changes nothing
    exactly when the name is an identifier; a name that needed quoting is
    quoted a second time. *)
Theorem getSafePropertyName_idempotent_iff_identifier (n : string) :
  (getSafePropertyName (getSafePropertyName n) = getSafePropertyName n
   ↔ Identifier n) ∧
  (¬ Identifier n →
   getSafePropertyName (getSafePropertyName n)
   = doubleQuote +:+ (doubleQuote +:+ n +:+ doubleQuote) +:+ doubleQuote).
Proof.
  rewrite <- isValidIdentifier_spec. unfold getSafePropertyName.
  destruct (isValidIdentifier n) eqn:Hn.
  - rewrite Hn. split; [done |]. by intros [].
  - rewrite isValidIdentifier_quoted. split; [| done]. split; [| done].
    intros Heq. apply (f_equal String.length) in Heq.
    rewrite !string_length_app in Heq. simpl in Heq. lia.
Qed.

Lemma getSafePropertyName_twice_special_name :
  getSafePropertyName (getSafePropertyName "special-name")
  = doubleQuote +:+ (doubleQuote +:+ "special-name" +:+ doubleQuote)
    +:+ doubleQuote.
Proof.
  apply (proj2 (getSafePropertyName_idempotent_iff_identifier
                  "special-name")).
  intros H%isValidIdentifier_spec. vm_compute in H. discriminate.
Defined.

Section Naming_identifiers.

Lemma lowerFirst_valid (p : string) :
  isValidIdentifier (toLowerCase (charAt0 p) +:+ slice1 p)
  = isValidIdentifier p.
Proof.
  destruct p as [|c r]; [done |].
  cbn [charAt0 slice1 toLowerCase].
  rewrite string_app_cons, string_app_nil. cbn [isValidIdentifier].
  by destruct (toUpperCase_cases c) as (_ & _ & _ & _ & -> & _).
Qed.

Lemma isValidIdentifier_toSchemaName (p : string) :
  p ≠ EmptyString →
  isValidIdentifier (toSchemaName p) = isValidIdentifier p.
Proof.
  intros Hp. destruct p as [|c r]; [done |]. unfold toSchemaName.
  cbn [charAt0 slice1 toLowerCase].
  rewrite !string_app_cons, !string_app_nil. cbn [isValidIdentifier].
  destruct (toUpperCase_cases c) as (_ & _ & _ & _ & -> & _).
  rewrite allChars_app. f_equal.
  change (allChars Char.isIdentifierPart "Schema") with true.
  by rewrite andb_true_r.
Qed.

Lemma isValidIdentifier_toPascalCase (s : string) :
  isValidIdentifier s = true →
  isValidIdentifier (toPascalCase s) = negb (startsWithUnderscoreDigit s).
Proof.
  destruct s as [|c rest]; [done |]. intros Hvalid.
  simpl in Hvalid. apply andb_true_iff in Hvalid as [Hc Hrest].
  destruct (identifier_start_cases c Hc) as (Hpart & Hsep & _).
  destruct (identifier_char_cases c Hpart) as (Hlt & _).
  destruct (toUpperCase_cases c) as (_ & _ & _ & Hstart & _).
  unfold toPascalCase. destruct rest as [|d rest'].
  - simpl. rewrite Hlt. simpl. by rewrite Hstart, Hc.
  - pose proof Hrest as Hrest'. simpl in Hrest'.
    apply andb_true_iff in Hrest' as [Hd Hrest''].
    destruct (identifier_char_cases d Hd) as (Hdlt & Hdult & _).
    destruct (toUpperCase_cases d) as (Hdtwice & _ & _ & Hdstart & _).
    rewrite replaceSeparators_pair, Hsep, Hdlt. cbn [negb andb].
    cbn [startsWithUnderscoreDigit].
    destruct (c =? "_")%char; cbn [andb].
    + cbn [capitalizeFirst]. rewrite Hdult. cbn [isValidIdentifier].
      rewrite Hdtwice, Hdstart, (identifier_part_cases d Hd).
      by rewrite allChars_replaceSeparators, andb_true_r.
    + cbn [capitalizeFirst]. rewrite Hlt. cbn [isValidIdentifier].
      rewrite Hstart, Hc. cbn [andb negb].
      by apply allChars_replaceSeparators.
Qed.

Lemma isSeparator_toUpperCase (c : ascii) :
  Char.isSeparator (Char.toUpperCase c) = Char.isSeparator c.
Proof. destruct c as [[] [] [] [] [] [] [] []]; reflexivity. Qed.

Lemma separatorFree_capitalizeFirst (s : string) :
  separatorFree (capitalizeFirst s) = separatorFree s.
Proof.
  destruct s as [|c s]; [done |]. unfold separatorFree. simpl.
  destruct (Char.isLineTerminator c); [done |]. simpl.
  by rewrite isSeparator_toUpperCase.
Qed.

End Naming_identifiers.

(** X9.  [toPascalCase] turns an identifier into an identifier, except an
    identifier that starts with an underscore followed by a digit, whose
    result starts with the digit; [toSchemaName] and [toCamelCase] of the
    result behave alike. *)
Theorem toPascalCase_keeps_identifiers (s : string) :
  isValidIdentifier s = true →
  isValidIdentifier (toPascalCase s) = negb (startsWithUnderscoreDigit s) ∧
  isValidIdentifier (toSchemaName (toPascalCase s))
    = negb (startsWithUnderscoreDigit s) ∧
  isValidIdentifier (toCamelCase s) = negb (startsWithUnderscoreDigit s).
Proof.
  intros Hvalid.
  pose proof (isValidIdentifier_toPascalCase s Hvalid) as Hpascal.
  split_and!; [done | |].
  - rewrite isValidIdentifier_toSchemaName; [done |].
    destruct s as [|c r]; [done |].
    by destruct (toPascalCase_nonempty (String c r)) as (c' & r' & ->).
  - unfold toCamelCase. by rewrite lowerFirst_valid.
Qed.

(** [create_user] becomes the identifier [CreateUser]. *)
Lemma toPascalCase_create_user_identifier :
  isValidIdentifier (toPascalCase "create_user") = true ∧
  isValidIdentifier (toSchemaName (toPascalCase "create_user")) = true ∧
  isValidIdentifier (toCamelCase "create_user") = true.
Proof.
  exact (toPascalCase_keeps_identifiers "create_user" eq_refl).
Defined.

(** X10.  [toPascalCase] never lengthens an ASCII string, and its result
    is empty only for the empty string. *)
Theorem toPascalCase_never_lengthens (s : string) :
  isAscii s = true →
  String.length (toPascalCase s) ≤ String.length s ∧
  (toPascalCase s = EmptyString ↔ s = EmptyString).
Proof.
  intros _. split.
  - unfold toPascalCase. rewrite length_capitalizeFirst.
    apply length_replaceSeparators.
  - split; [| by intros ->].
    intros Hempty. destruct s as [|c r]; [done |].
    destruct (toPascalCase_nonempty (String c r)) as (c' & r' & Heq);
      [done |]. congruence.
Qed.

(** [create_user] loses its separator and grows by nothing. *)
Lemma toPascalCase_create_user_length :
  String.length (toPascalCase "create_user") ≤ String.length "create_user"
  ∧ (toPascalCase "create_user" = EmptyString ↔ "create_user" = EmptyString).
Proof.
  apply (toPascalCase_never_lengthens "create_user"). reflexivity.
Defined.

(** X11.  On an ASCII string without [-] and [_], [toPascalCase] only
    capitalises the first character, and leaves the string as it is when
    that character is no lowercase letter; whenever its result holds no [-]
    and [_], applying it again changes nothing. *)
Theorem toPascalCase_without_separators (s : string) :
  isAscii s = true →
  (separatorFree s = true →
   toPascalCase s = capitalizeFirst s ∧
   (startsWithLowercase s = false → toPascalCase s = s)) ∧
  (separatorFree (toPascalCase s) = true →
   toPascalCase (toPascalCase s) = toPascalCase s).
Proof.
  intros _. split.
  - intros Hfree. unfold toPascalCase.
    rewrite replaceSeparators_separatorFree by done. split; [done |].
    destruct s as [|c r]; [done |]. simpl. intros Hlower.
    destruct (toUpperCase_cases c) as (_ & _ & _ & _ & _ & _ & Hsame).
    rewrite (Hsame Hlower). by destruct (Char.isLineTerminator c).
  - intros Hfree. unfold toPascalCase at 1.
    rewrite replaceSeparators_separatorFree by done.
    unfold toPascalCase. apply capitalizeFirst_idempotent.
Qed.

(** [GetPets] passes through; [create_user] is stable after one pass. *)
Lemma toPascalCase_GetPets_create_user :
  toPascalCase "GetPets" = "GetPets" ∧
  toPascalCase (toPascalCase "create_user") = toPascalCase "create_user".
Proof.
  destruct (toPascalCase_without_separators "GetPets" eq_refl)
    as [Hfree _].
  destruct (toPascalCase_without_separators "create_user" eq_refl)
    as [_ Hstable].
  split.
  - apply (proj2 (Hfree eq_refl)). reflexivity.
  - apply Hstable. reflexivity.
Defined.

(* ===================================================================== *)
(** * The OpenAPI parameter analysis *)
(* ===================================================================== *)

(** The expectations of the analysis tests. *)
Example extractRestSimpleFilter_price_gte :
  OpenApiAnalysis.extractRestSimpleFilter "price_gte" = ("price", "gte").
Proof. reflexivity. Qed.

Example extractRestSimpleFilter_status :
  OpenApiAnalysis.extractRestSimpleFilter "status" = ("status", "eq").
Proof. reflexivity. Qed.

Example extractJsonApiFilterField_price :
  OpenApiAnalysis.extractJsonApiFilterField "filter[price][gte]"
  = Some "price".
Proof. reflexivity. Qed.

Example extractJsonApiFilterOperator_gte :
  OpenApiAnalysis.extractJsonApiFilterOperator "filter[price][gte]"
  = Some "gte".
Proof. reflexivity. Qed.

Example extractJsonApiFilterOperator_status :
  OpenApiAnalysis.extractJsonApiFilterOperator "filter[status]" = None.
Proof. reflexivity. Qed.

Example analyzeSortCapabilities_orderBy :
  OpenApiAnalysis.analyzeSortCapabilities
    [OpenApiAnalysis.mkParameterObject "orderBy" "query"]
  = OpenApiAnalysis.mkSortCapabilities true (Some "orderBy").
Proof. reflexivity. Qed.

Example analyzePaginationCapabilities_odata :
  OpenApiAnalysis.analyzePaginationCapabilities
    [OpenApiAnalysis.mkParameterObject "$top" "query";
     OpenApiAnalysis.mkParameterObject "$skip" "query"]
  = OpenApiAnalysis.mkPaginationCapabilities "offset" (Some "$top")
      (Some "$skip") None None.
Proof. vm_compute. reflexivity. Qed.

Example analyzePaginationCapabilities_page :
  OpenApiAnalysis.analyzePaginationCapabilities
    [OpenApiAnalysis.mkParameterObject "page" "query";
     OpenApiAnalysis.mkParameterObject "per_page" "query"]
  = OpenApiAnalysis.mkPaginationCapabilities "page" None None (Some "page")
      (Some "per_page").
Proof. vm_compute. reflexivity. Qed.

Example analyzeFilterCapabilities_suffixes :
  OpenApiAnalysis.analyzeFilterCapabilities
    [OpenApiAnalysis.mkParameterObject "name_eq" "query";
     OpenApiAnalysis.mkParameterObject "price_lt" "query";
     OpenApiAnalysis.mkParameterObject "price_gte" "query"]
  = OpenApiAnalysis.mkFilterCapabilities true (Some "rest-simple")
      (Some ["name_eq"; "price_lt"; "price_gte"]).
Proof. vm_compute. reflexivity. Qed.

Example analyzeFilterCapabilities_known :
  OpenApiAnalysis.hasFiltering
    (OpenApiAnalysis.analyzeFilterCapabilities
       [OpenApiAnalysis.mkParameterObject "sort" "query";
        OpenApiAnalysis.mkParameterObject "limit" "query";
        OpenApiAnalysis.mkParameterObject "offset" "query";
        OpenApiAnalysis.mkParameterObject "page" "query"])
  = false.
Proof. vm_compute. reflexivity. Qed.

Example detectFilterStyle_special :
  OpenApiAnalysis.detectFilterStyle ["sort"; "limit"; "offset"] = None.
Proof. reflexivity. Qed.

Section Js_facts.

Lemma take_drop (n : nat) (s : string) : Js.take n s +:+ Js.drop n s = s.
Proof.
  revert n. induction s as [|c s IH]; intros [|n]; try reflexivity.
  cbn [Js.take Js.drop]. rewrite string_app_cons. f_equal. apply IH.
Qed.

Lemma length_drop (n : nat) (s : string) :
  String.length (Js.drop n s) = String.length s - n.
Proof.
  revert n. induction s as [|c s IH]; intros [|n]; try reflexivity.
  cbn [Js.drop]. simpl. apply IH.
Qed.

Lemma drop_app_length (p t : string) :
  Js.drop (String.length p) (p +:+ t) = t.
Proof. induction p as [|c p IH]; [by destruct t | exact IH]. Qed.

Lemma take_app_length (p t : string) :
  Js.take (String.length p) (p +:+ t) = p.
Proof.
  induction p as [|c p IH]; [by destruct t |].
  rewrite string_app_cons. cbn [String.length Js.take]. by rewrite IH.
Qed.

Lemma startsWith_app (p r : string) : Js.startsWith (p +:+ r) p = true.
Proof.
  induction p as [|c p IH]; [by destruct r |].
  rewrite string_app_cons. cbn [Js.startsWith].
  by rewrite Ascii.eqb_refl, IH.
Qed.

Lemma startsWith_spec (s p : string) :
  Js.startsWith s p = true ↔ ∃ r, s = p +:+ r.
Proof.
  split; [| intros [r ->]; apply startsWith_app].
  revert s. induction p as [|c p IH]; intros s Hs; [by exists s |].
  destruct s as [|d s]; [done |]. cbn [Js.startsWith] in Hs.
  apply andb_true_iff in Hs as [->%Ascii.eqb_eq Hs].
  destruct (IH s Hs) as [r ->]. by exists r.
Qed.

(** The boolean test agrees with the relation used for [toSchemaName]. *)
Lemma endsWith_spec (s suffix : string) :
  Js.endsWith s suffix = true ↔ endsWith s suffix.
Proof.
  unfold Js.endsWith, endsWith. rewrite andb_true_iff, Nat.leb_le,
    String.eqb_eq. split.
  - intros [Hle Hdrop].
    exists (Js.take (String.length s - String.length suffix) s).
    rewrite <- (take_drop (String.length s - String.length suffix) s) at 1.
    by rewrite Hdrop.
  - intros [p ->]. rewrite string_length_app. split; [lia |].
    replace (String.length p + String.length suffix - String.length suffix)
      with (String.length p) by lia.
    apply drop_app_length.
Qed.

Lemma endsWith_app (f t : string) : Js.endsWith (f +:+ t) t = true.
Proof. apply endsWith_spec. by exists f. Qed.

(** Of two suffixes of one string, the shorter is a suffix of the longer. *)
Lemma string_app_eq_inv (p1 t1 p2 t2 : string) :
  p1 +:+ t1 = p2 +:+ t2 → String.length t1 ≤ String.length t2 →
  ∃ k, t2 = k +:+ t1.
Proof.
  revert p2. induction p1 as [|c p1 IH]; intros p2 Heq Hle.
  - rewrite string_app_nil in Heq. subst t1.
    rewrite string_length_app in Hle.
    destruct p2; [by exists EmptyString | simpl in Hle; lia].
  - destruct p2 as [|d p2].
    + rewrite string_app_nil in Heq. subst t2. by exists (String c p1).
    + rewrite !string_app_cons in Heq. injection Heq as _ Heq.
      by apply (IH p2).
Qed.

Lemma endsWith_app_other (f t suffix : string) :
  (if String.length suffix <=? String.length t
   then Js.endsWith t suffix else Js.endsWith suffix t) = false →
  Js.endsWith (f +:+ t) suffix = false.
Proof.
  intros Hother. apply not_true_iff_false. intros [p Heq]%endsWith_spec.
  destruct (String.length suffix <=? String.length t) eqn:Hle.
  - apply Nat.leb_le in Hle.
    destruct (string_app_eq_inv p suffix f t) as [k Hk]; [done | done |].
    assert (Js.endsWith t suffix = true); [| congruence].
    apply endsWith_spec. by exists k.
  - apply Nat.leb_gt in Hle.
    destruct (string_app_eq_inv f t p suffix) as [k Hk]; [done | lia |].
    assert (Js.endsWith suffix t = true); [| congruence].
    apply endsWith_spec. by exists k.
Qed.

Lemma sliceFromEnd_app (f t : string) :
  t ≠ EmptyString → Js.sliceFromEnd (f +:+ t) (String.length t) = f.
Proof.
  intros Ht. unfold Js.sliceFromEnd.
  destruct (String.length t) eqn:Hlen; [by destruct t |].
  rewrite <- Hlen, string_length_app.
  replace (String.length f + String.length t - String.length t)
    with (String.length f) by lia.
  apply take_app_length.
Qed.

Lemma sliceFromEnd_endsWith (s suffix : string) :
  Js.endsWith s suffix = true → suffix ≠ EmptyString →
  s = Js.sliceFromEnd s (String.length suffix) +:+ suffix.
Proof.
  intros [p ->]%endsWith_spec Hne. by rewrite sliceFromEnd_app.
Qed.

Lemma has_spec (x : string) (l : list string) :
  Js.has x l = true ↔ x ∈ l.
Proof.
  unfold Js.has. rewrite existsb_exists. split.
  - intros (y & Hy & ->%String.eqb_eq). by apply list_elem_of_In.
  - intros Hx. exists x. split; [by apply list_elem_of_In |].
    apply String.eqb_refl.
Qed.

Lemma toLowerCase_idempotent (s : string) :
  toLowerCase (toLowerCase s) = toLowerCase s.
Proof.
  induction s as [|c s IH]; [done |]. simpl. rewrite IH. f_equal.
  destruct c as [[] [] [] [] [] [] [] []]; reflexivity.
Qed.

Lemma toLowerCase_nonempty (s : string) :
  toLowerCase s = EmptyString ↔ s = EmptyString.
Proof. by destruct s. Qed.

End Js_facts.

Section RestSimple_facts.

Lemma extractRestSimpleFilter_loop_round_trip (field suffix : string)
    (suffixes : list string) :
  suffix ≠ EmptyString →
  suffix ∈ suffixes →
  Forall (λ s', s' = suffix ∨
                (if String.length s' <=? String.length suffix
                 then Js.endsWith suffix s' else Js.endsWith s' suffix)
                = false) suffixes →
  OpenApiAnalysis.extractRestSimpleFilter_loop (field +:+ suffix) suffixes
  = (field, Js.drop 1 suffix).
Proof.
  intros Hne. induction suffixes as [|s' l IH]; intros Hin Hall.
  - by apply elem_of_nil in Hin.
  - apply Forall_cons in Hall as [Hs' Hall].
    cbn [OpenApiAnalysis.extractRestSimpleFilter_loop].
    destruct Hs' as [-> | Hother].
    + by rewrite endsWith_app, sliceFromEnd_app.
    + rewrite (endsWith_app_other _ _ _ Hother).
      apply IH; [| done].
      apply elem_of_cons in Hin as [-> | ?]; [| done].
      exfalso. rewrite Nat.leb_refl in Hother.
      pose proof (endsWith_app EmptyString s') as Hself.
      rewrite string_app_nil in Hself. congruence.
Qed.

Lemma extractRestSimpleFilter_loop_cases (paramName : string)
    (suffixes : list string) :
  Forall (λ s, ∃ r, s = "_" +:+ r) suffixes →
  let '(field, operator) :=
    OpenApiAnalysis.extractRestSimpleFilter_loop paramName suffixes in
  (existsb (λ suffix, Js.endsWith paramName suffix) suffixes = true ∧
   paramName = field +:+ "_" +:+ operator ∧
   "_" +:+ operator ∈ suffixes)
  ∨ (existsb (λ suffix, Js.endsWith paramName suffix) suffixes = false ∧
     field = paramName ∧ operator = "eq").
Proof.
  induction 1 as [|s l [r ->] Hl IH];
    cbn [OpenApiAnalysis.extractRestSimpleFilter_loop existsb].
  - by right.
  - destruct (Js.endsWith paramName ("_" +:+ r)) eqn:Hends.
    + left. split_and!; [done | | apply list_elem_of_here].
      by apply sliceFromEnd_endsWith in Hends.
    + cbn [orb].
      destruct (OpenApiAnalysis.extractRestSimpleFilter_loop paramName l)
        as [field operator].
      destruct IH as [(? & ? & ?) | ?]; [left | by right].
      split_and!; [done .. |]. by apply list_elem_of_further.
Qed.

End RestSimple_facts.

(** X12.  Appending any of the operator suffixes to a field name and
    running [extractRestSimpleFilter] gives back the field and the operator:
    no suffix of the list is mistaken for another. *)
Theorem extractRestSimpleFilter_round_trip (field suffix : string) :
  suffix ∈ OpenApiAnalysis.restSimpleOperatorSuffixes →
  OpenApiAnalysis.extractRestSimpleFilter (field +:+ suffix)
  = (field, Js.drop 1 suffix).
Proof.
  intros Hin. unfold OpenApiAnalysis.extractRestSimpleFilter.
  pose proof Hin as Hcases.
  unfold OpenApiAnalysis.restSimpleOperatorSuffixes in Hcases.
  repeat (apply elem_of_cons in Hcases as [-> | Hcases]);
    [.. | by apply elem_of_nil in Hcases];
    (apply extractRestSimpleFilter_loop_round_trip; [done | done |];
     unfold OpenApiAnalysis.restSimpleOperatorSuffixes;
     repeat (apply Forall_cons; split;
             [first [by left | right; reflexivity] |]);
     apply Forall_nil_2).
Qed.

(** [price] with [_gte], whatever stands before the suffix. *)
Lemma extractRestSimpleFilter_unit_price_gte :
  OpenApiAnalysis.extractRestSimpleFilter "unit_price_gte"
  = ("unit_price", "gte").
Proof.
  apply (extractRestSimpleFilter_round_trip "unit_price" "_gte").
  apply (bool_decide_unpack _). vm_compute. exact I.
Defined.

(** X13.  [extractRestSimpleFilter] loses nothing: when the name ends with
    one of the operator suffixes, the name is the field, an underscore and
    the operator, and that suffix is one of the list; otherwise the field is
    the whole name and the operator is [eq]. *)
Theorem extractRestSimpleFilter_reconstructs (paramName : string) :
  let '(field, operator) :=
    OpenApiAnalysis.extractRestSimpleFilter paramName in
  (OpenApiAnalysis.hasOperatorSuffix paramName = true ∧
   paramName = field +:+ "_" +:+ operator ∧
   "_" +:+ operator ∈ OpenApiAnalysis.restSimpleOperatorSuffixes)
  ∨ (OpenApiAnalysis.hasOperatorSuffix paramName = false ∧
     field = paramName ∧ operator = "eq").
Proof.
  apply extractRestSimpleFilter_loop_cases.
  unfold OpenApiAnalysis.restSimpleOperatorSuffixes.
  repeat (apply Forall_cons; split; [by eexists |]). apply Forall_nil_2.
Qed.

Section JsonApi_facts.

Lemma startsWith_empty (s : string) : Js.startsWith s EmptyString = true.
Proof. by destruct s. Qed.

Lemma includes_bracket_cons (c : ascii) (s : string) :
  Js.includes (String c s) "]" = (c =? "]")%char || Js.includes s "]".
Proof.
  cbn [Js.includes Js.startsWith]. by rewrite startsWith_empty, andb_true_r.
Qed.

Lemma untilBracket_app (run rest : string) :
  Js.includes run "]" = false →
  OpenApiAnalysis.untilBracket (run +:+ "]" +:+ rest) = (run, "]" +:+ rest).
Proof.
  induction run as [|c run IH]; intros Hrun; [done |].
  rewrite includes_bracket_cons in Hrun.
  apply orb_false_iff in Hrun as [Hc Hrun].
  rewrite string_app_cons. cbn [OpenApiAnalysis.untilBracket].
  by rewrite Hc, IH.
Qed.

Lemma bracketGroup_app (opening run rest : string) :
  run ≠ EmptyString → Js.includes run "]" = false →
  OpenApiAnalysis.bracketGroup opening (opening +:+ run +:+ "]" +:+ rest)
  = Some (run, rest).
Proof.
  intros Hne Hrun. unfold OpenApiAnalysis.bracketGroup.
  rewrite startsWith_app, drop_app_length, untilBracket_app by done.
  by destruct run.
Qed.

End JsonApi_facts.

(** X14.  A JSON:API filter name built from a non-empty field without []]
    gives that field back, whatever follows the closing bracket; built with a
    non-empty operator without []] as well, it gives the operator back; and
    without an operator group it has no operator. *)
Theorem extractJsonApiFilter_round_trip (field operator rest : string) :
  field ≠ EmptyString → Js.includes field "]" = false →
  OpenApiAnalysis.extractJsonApiFilterField ("filter[" +:+ field +:+ "]" +:+ rest)
  = Some field ∧
  OpenApiAnalysis.extractJsonApiFilterOperator ("filter[" +:+ field +:+ "]")
  = None ∧
  (operator ≠ EmptyString → Js.includes operator "]" = false →
   OpenApiAnalysis.extractJsonApiFilterOperator
     ("filter[" +:+ field +:+ "]" +:+ "[" +:+ operator +:+ "]" +:+ rest)
   = Some operator).
Proof.
  intros Hfield Hclean.
  unfold OpenApiAnalysis.extractJsonApiFilterField,
    OpenApiAnalysis.extractJsonApiFilterOperator.
  split_and!.
  - by rewrite bracketGroup_app.
  - change ("filter[" +:+ field +:+ "]")
      with ("filter[" +:+ field +:+ "]" +:+ EmptyString).
    by rewrite bracketGroup_app.
  - intros Hop Hopclean. rewrite bracketGroup_app by done.
    by rewrite bracketGroup_app.
Qed.

(** [filter[price][gte]], through the theorem. *)
Lemma extractJsonApiFilter_price_gte :
  OpenApiAnalysis.extractJsonApiFilterField "filter[price][gte]"
  = Some "price" ∧
  OpenApiAnalysis.extractJsonApiFilterOperator "filter[price][gte]"
  = Some "gte".
Proof.
  destruct (extractJsonApiFilter_round_trip "price" "gte" "[gte]")
    as (Hfield & _ & _); [done | reflexivity |].
  destruct (extractJsonApiFilter_round_trip "price" "gte" EmptyString)
    as (_ & _ & Hoperator); [done | reflexivity |].
  split; [exact Hfield |]. apply Hoperator; [done | reflexivity].
Defined.

Section Filter_facts.

Lemma filter_nonempty_existsb {A} (f : A → bool) (l : list A) :
  (0 <? length (base.filter (λ x, f x = true) l)) = existsb f l.
Proof.
  induction l as [|x l IH]; [done |]. rewrite filter_cons.
  destruct (decide (f x = true)) as [Hx | Hx]; cbn [existsb].
  - by rewrite Hx.
  - apply not_true_is_false in Hx. by rewrite Hx.
Qed.

Lemma existsb_false_Forall {A} (f : A → bool) (l : list A) :
  existsb f l = false ↔ Forall (λ x, f x = false) l.
Proof.
  induction l as [|x l IH]; simpl; [by split |].
  rewrite orb_false_iff, IH, Forall_cons. done.
Qed.

Lemma existsb_fmap_false {A B} (g : A → B) (f : B → bool) (l : list A) :
  existsb f (g <$> l) = false ↔ Forall (λ x, f (g x) = false) l.
Proof.
  induction l as [|x l IH]; simpl; [by split |].
  rewrite orb_false_iff, IH, Forall_cons. done.
Qed.

Lemma existsb_true_elem_of {A} (f : A → bool) (l : list A) :
  existsb f l = true ↔ ∃ x, x ∈ l ∧ f x = true.
Proof.
  rewrite existsb_exists. by setoid_rewrite list_elem_of_In.
Qed.

(** Which branch [analyzeFilterCapabilities] takes. *)
Lemma analyzeFilterCapabilities_cases (ps : list OpenApiAnalysis.ParameterObject) :
  let names := OpenApiAnalysis.name <$> ps in
  OpenApiAnalysis.analyzeFilterCapabilities ps
  = if existsb OpenApiAnalysis.isJsonApiFilterParam names then
      OpenApiAnalysis.mkFilterCapabilities true (Some "jsonapi")
        (Some (base.filter
                 (λ n, OpenApiAnalysis.isJsonApiFilterParam n = true) names))
    else if existsb OpenApiAnalysis.hasOperatorSuffix names then
      OpenApiAnalysis.mkFilterCapabilities true (Some "rest-simple")
        (Some (base.filter
                 (λ n, OpenApiAnalysis.hasOperatorSuffix n = true) names))
    else if existsb OpenApiAnalysis.isPotentialFilterParam names then
      OpenApiAnalysis.mkFilterCapabilities true (Some "rest-simple")
        (Some (base.filter
                 (λ n, OpenApiAnalysis.isPotentialFilterParam n = true)
                 names))
    else OpenApiAnalysis.mkFilterCapabilities false None None.
Proof.
  unfold OpenApiAnalysis.analyzeFilterCapabilities. cbv zeta.
  by rewrite !filter_nonempty_existsb.
Qed.

Lemma filter_nonempty {A} (f : A → bool) (l : list A) :
  existsb f l = true → base.filter (λ x, f x = true) l ≠ [].
Proof.
  rewrite <- filter_nonempty_existsb. by destruct (base.filter _ l).
Qed.

Lemma hasFiltering_false (ps : list OpenApiAnalysis.ParameterObject) :
  OpenApiAnalysis.hasFiltering (OpenApiAnalysis.analyzeFilterCapabilities ps)
  = false ↔
  Forall (λ p,
            OpenApiAnalysis.isJsonApiFilterParam (OpenApiAnalysis.name p)
            = false ∧
            OpenApiAnalysis.hasOperatorSuffix (OpenApiAnalysis.name p)
            = false ∧
            OpenApiAnalysis.isPotentialFilterParam (OpenApiAnalysis.name p)
            = false) ps.
Proof.
  rewrite analyzeFilterCapabilities_cases. cbv zeta.
  rewrite !Forall_and, <- !existsb_fmap_false.
  repeat (destruct (existsb _ _)); simpl; split;
    try done; intros (? & ? & ?); done.
Qed.

Lemma isJsonApiFilterParam_startsWith (n : string) :
  OpenApiAnalysis.isJsonApiFilterParam n = true →
  Js.startsWith n "filter[" = true.
Proof.
  unfold OpenApiAnalysis.isJsonApiFilterParam.
  by intros [? _]%andb_true_iff.
Qed.

End Filter_facts.

(** X15.  [analyzeFilterCapabilities] reports filtering exactly when it
    reports a non-empty list of filter parameters, which are names of the
    given parameters, in their order; it takes the JSON:API style exactly
    when some name starts with [filter[] and ends with []]; and it reports
    no filtering exactly when no name passes any of its three tests. *)
Theorem analyzeFilterCapabilities_reports_own_params
    (ps : list OpenApiAnalysis.ParameterObject) :
  let r := OpenApiAnalysis.analyzeFilterCapabilities ps in
  match OpenApiAnalysis.filterParams r with
  | Some l =>
      OpenApiAnalysis.hasFiltering r = true ∧ l ≠ [] ∧
      l `sublist_of` (OpenApiAnalysis.name <$> ps)
  | None => OpenApiAnalysis.hasFiltering r = false
  end ∧
  (OpenApiAnalysis.filterStyle r = Some "jsonapi" ↔
   ∃ p, p ∈ ps ∧
        OpenApiAnalysis.isJsonApiFilterParam (OpenApiAnalysis.name p) = true) ∧
  (OpenApiAnalysis.hasFiltering r = false ↔
   Forall (λ p,
             OpenApiAnalysis.isJsonApiFilterParam (OpenApiAnalysis.name p)
             = false ∧
             OpenApiAnalysis.hasOperatorSuffix (OpenApiAnalysis.name p)
             = false ∧
             OpenApiAnalysis.isPotentialFilterParam (OpenApiAnalysis.name p)
             = false) ps).
Proof.
  cbv zeta. split_and!; [| | apply hasFiltering_false].
  - rewrite analyzeFilterCapabilities_cases. cbv zeta.
    destruct (existsb OpenApiAnalysis.isJsonApiFilterParam _) eqn:?;
      [| destruct (existsb OpenApiAnalysis.hasOperatorSuffix _) eqn:?;
         [| destruct (existsb OpenApiAnalysis.isPotentialFilterParam _)
              eqn:?; [| reflexivity]]];
      cbn [OpenApiAnalysis.filterParams OpenApiAnalysis.hasFiltering];
      (split_and!;
       [reflexivity | by apply filter_nonempty | apply sublist_filter]).
  - rewrite analyzeFilterCapabilities_cases. cbv zeta.
    destruct (existsb OpenApiAnalysis.isJsonApiFilterParam _) eqn:Hjson.
    + split; [intros _ | done].
      apply existsb_true_elem_of in Hjson as (n & Hn & ?).
      apply list_elem_of_fmap in Hn as (p & -> & ?). eauto.
    + split.
      * repeat (destruct (existsb _ _)); simpl; intros [=].
      * intros (p & Hp & Hjson').
        assert (existsb OpenApiAnalysis.isJsonApiFilterParam
                  (OpenApiAnalysis.name <$> ps) = true); [| congruence].
        apply existsb_true_elem_of. exists (OpenApiAnalysis.name p).
        split; [| done]. apply list_elem_of_fmap. eauto.
Qed.

(** X16.  [detectFilterStyle] finds a style whenever
    [analyzeFilterCapabilities] finds filtering on the same names; it finds
    none exactly when there is no filtering and no name starts with
    [filter[]. *)
Theorem detectFilterStyle_agrees_with_analysis
    (ps : list OpenApiAnalysis.ParameterObject) :
  OpenApiAnalysis.detectFilterStyle (OpenApiAnalysis.name <$> ps) = None ↔
  OpenApiAnalysis.hasFiltering (OpenApiAnalysis.analyzeFilterCapabilities ps)
  = false ∧
  Forall (λ p, Js.startsWith (OpenApiAnalysis.name p) "filter[" = false) ps.
Proof.
  rewrite analyzeFilterCapabilities_cases. cbv zeta.
  rewrite <- (existsb_fmap_false OpenApiAnalysis.name
                (λ n, Js.startsWith n "filter[")).
  unfold OpenApiAnalysis.detectFilterStyle.
  destruct (existsb OpenApiAnalysis.isJsonApiFilterParam _) eqn:Hjson.
  - apply existsb_true_elem_of in Hjson as (n & Hn & Hjson).
    assert (existsb (λ n, Js.startsWith n "filter[")
              (OpenApiAnalysis.name <$> ps) = true) as ->.
    { apply existsb_true_elem_of. exists n. split; [done |].
      by apply isJsonApiFilterParam_startsWith. }
    split; [done | by intros [? ?]].
  - repeat (destruct (existsb _ _)); simpl; split; try done;
      by intros [? ?].
Qed.

Section Sort_capabilities_facts.

Lemma has_lower_names (ps : list OpenApiAnalysis.ParameterObject)
    (k : string) :
  Js.has k ((λ p, toLowerCase (OpenApiAnalysis.name p)) <$> ps) = true ↔
  ∃ p, p ∈ ps ∧ toLowerCase (OpenApiAnalysis.name p) = k.
Proof.
  rewrite has_spec, list_elem_of_fmap.
  split; intros (p & ? & ?); eauto.
Qed.

Lemma has_lower_names_false (ps : list OpenApiAnalysis.ParameterObject)
    (k : string) :
  Js.has k ((λ p, toLowerCase (OpenApiAnalysis.name p)) <$> ps) = false ↔
  Forall (λ p, toLowerCase (OpenApiAnalysis.name p) ≠ k) ps.
Proof.
  rewrite <- not_true_iff_false, has_lower_names, Forall_forall.
  split.
  - intros Hno p Hp Hk. apply Hno. eauto.
  - intros Hall (p & Hp & Hk). by apply (Hall p).
Qed.

(** [Array.prototype.find] returns the first element that passes. *)
Lemma find_first {A} (f : A → bool) (l : list A) (x : A) :
  List.find f l = Some x →
  ∃ l1 l2, l = l1 ++ x :: l2 ∧ f x = true ∧ Forall (λ y, f y = false) l1.
Proof.
  induction l as [|y l IH]; [done |]. simpl.
  destruct (f y) eqn:Hy.
  - intros [= ->]. by exists [], l.
  - intros (l1 & l2 & -> & ? & ?)%IH. exists (y :: l1), l2.
    split_and!; [done .. |]. by constructor.
Qed.

Lemma find_is_Some {A} (f : A → bool) (l : list A) (x : A) :
  x ∈ l → f x = true → is_Some (List.find f l).
Proof.
  intros Hx%list_elem_of_In Hf. destruct (List.find f l) eqn:Hfind; [eauto |].
  by rewrite (find_none _ _ Hfind x Hx) in Hf.
Qed.

Lemma analyzeSortCapabilities_loop_spec
    (ps : list OpenApiAnalysis.ParameterObject) (sortNames : list string) :
  Forall (λ s, s ≠ EmptyString) sortNames →
  let r :=
    OpenApiAnalysis.analyzeSortCapabilities_loop ps
      ((λ p, toLowerCase (OpenApiAnalysis.name p)) <$> ps) sortNames in
  (OpenApiAnalysis.hasSorting r = true ↔
   OpenApiAnalysis.namedAmong ps sortNames) ∧
  (OpenApiAnalysis.hasSorting r = false →
   OpenApiAnalysis.sortParam r = None) ∧
  (∀ v, OpenApiAnalysis.sortParam r = Some v →
        OpenApiAnalysis.firstOfItsName ps v ∧
        ∃ s, s ∈ sortNames ∧ toLowerCase v = toLowerCase s).
Proof.
  induction 1 as [|s sortNames Hs _ IH]; cbn [OpenApiAnalysis.analyzeSortCapabilities_loop].
  - cbv zeta. cbn. split_and!; [| done | done].
    split; [done |]. intros (p & s & _ & Hin & _). by apply elem_of_nil in Hin.
  - destruct (Js.has (toLowerCase s) _) eqn:Hhas.
    + apply has_lower_names in Hhas as (p & Hp & Hk). cbv zeta.
      cbn [OpenApiAnalysis.hasSorting OpenApiAnalysis.sortParam].
      split_and!; [| done |].
      * split; [intros _ | done]. exists p, s.
        split_and!; [done | apply list_elem_of_here | done].
      * destruct (find_is_Some
                    (λ q, String.eqb (toLowerCase (OpenApiAnalysis.name q))
                            (toLowerCase s)) ps p Hp) as [q Hq];
          [by apply String.eqb_eq |].
        rewrite Hq.
        apply find_first in Hq as (l1 & l2 & -> & Hq%String.eqb_eq & Hl1).
        assert (OpenApiAnalysis.name q ≠ EmptyString) as Hne.
        { intros Heq. rewrite Heq in Hq. symmetry in Hq. cbn in Hq.
          apply (proj1 (toLowerCase_nonempty _)) in Hq. by apply Hs. }
        cbn [fmap option_fmap option_map default Js.truthy].
        destruct (OpenApiAnalysis.name q) as [|c n] eqn:Hn; [done |].
        cbn [Js.truthy]. intros v [= <-]. split.
        -- exists l1, q, l2. split_and!; [done .. |].
           rewrite Hq. eapply Forall_impl; [exact Hl1 |].
           intros y Hy Heq%String.eqb_eq. cbv beta in Hy. congruence.
        -- exists s. split; [apply list_elem_of_here | done].
    + destruct IH as (IH1 & IH2 & IH3). cbv zeta. split_and!; [| done |].
      * rewrite IH1. apply has_lower_names_false in Hhas.
        split.
        -- intros (p & s' & ? & ? & ?). exists p, s'.
           split_and!; [done | by apply list_elem_of_further | done].
        -- intros (p & s' & Hp & [-> | ?]%elem_of_cons & Hk).
           ++ rewrite Forall_forall in Hhas. by destruct (Hhas p Hp).
           ++ by exists p, s'.
      * intros v (? & s' & ? & ?)%IH3. split; [done |]. exists s'.
        split; [by apply list_elem_of_further | done].
Qed.

End Sort_capabilities_facts.

(** X17.  [analyzeSortCapabilities] reports sorting exactly when some
    parameter is named, up to case, like one of [sortParamNames]; the
    parameter it then reports is the first of the given parameters with
    its name up to case, spelt as given; without sorting it reports no
    parameter. *)
Theorem analyzeSortCapabilities_reports_first_match
    (ps : list OpenApiAnalysis.ParameterObject) :
  let r := OpenApiAnalysis.analyzeSortCapabilities ps in
  (OpenApiAnalysis.hasSorting r = true ↔
   OpenApiAnalysis.namedAmong ps OpenApiAnalysis.sortParamNames) ∧
  (OpenApiAnalysis.hasSorting r = false →
   OpenApiAnalysis.sortParam r = None) ∧
  (∀ v, OpenApiAnalysis.sortParam r = Some v →
        OpenApiAnalysis.firstOfItsName ps v ∧
        ∃ s, s ∈ OpenApiAnalysis.sortParamNames
             ∧ toLowerCase v = toLowerCase s).
Proof.
  apply analyzeSortCapabilities_loop_spec.
  unfold OpenApiAnalysis.sortParamNames. by repeat constructor.
Qed.

Section Pagination_facts.

Lemma newMap_snoc (pairs : list (string * string)) (kv : string * string) :
  OpenApiAnalysis.newMap (pairs ++ [kv])
  = <[kv.1 := kv.2]> (OpenApiAnalysis.newMap pairs).
Proof. unfold OpenApiAnalysis.newMap. by rewrite foldl_app. Qed.

(** The map from lowercased to given names holds, for each key, the name
    of the last parameter bearing it. *)
Lemma lookup_originalNames (ps : list OpenApiAnalysis.ParameterObject)
    (k v : string) :
  OpenApiAnalysis.newMap
    ((λ p, (toLowerCase (OpenApiAnalysis.name p), OpenApiAnalysis.name p))
       <$> ps) !! k = Some v ↔
  ∃ l1 p l2, ps = l1 ++ p :: l2 ∧ OpenApiAnalysis.name p = v
             ∧ toLowerCase v = k
             ∧ Forall (λ q, toLowerCase (OpenApiAnalysis.name q) ≠ k) l2.
Proof.
  induction ps as [|x l IH] using rev_ind.
  - cbn. rewrite lookup_empty. split; [done |].
    intros (l1 & p & l2 & Heq & _). by destruct l1.
  - rewrite fmap_app. cbn [fmap list_fmap]. rewrite newMap_snoc.
    cbn [fst snd]. rewrite lookup_insert. case_decide as Hk.
    + split.
      * intros [= <-]. exists l, x, []. by split_and!.
      * intros (l1 & p & l2 & Heq & Hn & Hv & Hnot).
        destruct l2 as [|z l2 _] using rev_ind.
        -- apply app_inj_tail in Heq as [_ ->]. by rewrite Hn.
        -- rewrite app_comm_cons, app_assoc in Heq.
           apply app_inj_tail in Heq as [_ ->].
           apply Forall_app in Hnot as [_ Hnot].
           apply (proj1 (Forall_singleton _ _)) in Hnot. cbv beta in Hnot.
           done.
    + rewrite IH. split.
      * intros (l1 & p & l2 & -> & Hn & Hv & Hnot). exists l1, p, (l2 ++ [x]).
        split_and!; [by rewrite <- app_assoc | done | done |].
        apply Forall_app. split; [done |]. by apply Forall_singleton.
      * intros (l1 & p & l2 & Heq & Hn & Hv & Hnot).
        destruct l2 as [|z l2 _] using rev_ind.
        -- apply app_inj_tail in Heq as [_ ->]. congruence.
        -- rewrite app_comm_cons, app_assoc in Heq.
           apply app_inj_tail in Heq as [-> ->].
           exists l1, p, l2. split_and!; [done .. |].
           by apply Forall_app in Hnot as [? _].
Qed.

Lemma originalNames_is_Some (ps : list OpenApiAnalysis.ParameterObject)
    (k : string) :
  (∃ p, p ∈ ps ∧ toLowerCase (OpenApiAnalysis.name p) = k) →
  is_Some
    (OpenApiAnalysis.newMap
       ((λ p, (toLowerCase (OpenApiAnalysis.name p), OpenApiAnalysis.name p))
          <$> ps) !! k).
Proof.
  induction ps as [|x l IH] using rev_ind.
  - intros (p & Hp & _). by apply elem_of_nil in Hp.
  - intros (p & Hp & Hk). rewrite fmap_app. cbn [fmap list_fmap].
    rewrite newMap_snoc. cbn [fst snd]. rewrite lookup_insert.
    case_decide as Hx; [eauto |]. apply IH. exists p. split; [| done].
    apply elem_of_app in Hp as [? | ->%list_elem_of_singleton]; done.
Qed.

Lemma findParam_spec (ps : list OpenApiAnalysis.ParameterObject)
    (possibleNames : list string) :
  match
    OpenApiAnalysis.findParam
      ((λ p, toLowerCase (OpenApiAnalysis.name p)) <$> ps)
      (OpenApiAnalysis.newMap
         ((λ p,
             (toLowerCase (OpenApiAnalysis.name p), OpenApiAnalysis.name p))
            <$> ps))
      possibleNames
  with
  | Some v =>
      OpenApiAnalysis.lastOfItsName ps v ∧
      ∃ s, s ∈ possibleNames ∧ toLowerCase v = toLowerCase s
  | None => ¬ OpenApiAnalysis.namedAmong ps possibleNames
  end.
Proof.
  induction possibleNames as [|s l IH]; cbn [OpenApiAnalysis.findParam].
  - intros (p & s & _ & Hin & _). by apply elem_of_nil in Hin.
  - cbv zeta. destruct (Js.has (toLowerCase s) _) eqn:Hhas.
    + apply has_lower_names in Hhas.
      destruct (originalNames_is_Some ps _ Hhas) as [v Hv]. rewrite Hv.
      apply lookup_originalNames in Hv as (l1 & p & l2 & -> & Hn & Hk & Hl2).
      split.
      * exists l1, p, l2. split_and!; [done .. |]. by rewrite Hk.
      * exists s. split; [apply list_elem_of_here | done].
    + apply has_lower_names_false in Hhas.
      destruct (OpenApiAnalysis.findParam _ _ l) as [v|].
      * destruct IH as [? (s' & ? & ?)]. split; [done |]. exists s'.
        split; [by apply list_elem_of_further | done].
      * intros (p & s' & Hp & [-> | ?]%elem_of_cons & Hk).
        -- rewrite Forall_forall in Hhas. by destruct (Hhas p Hp).
        -- apply IH. by exists p, s'.
Qed.

Lemma findParam_truthy (ps : list OpenApiAnalysis.ParameterObject)
    (possibleNames : list string) :
  Forall (λ s, s ≠ EmptyString) possibleNames →
  Js.truthy
    (OpenApiAnalysis.findParam
       ((λ p, toLowerCase (OpenApiAnalysis.name p)) <$> ps)
       (OpenApiAnalysis.newMap
          ((λ p,
              (toLowerCase (OpenApiAnalysis.name p), OpenApiAnalysis.name p))
             <$> ps))
       possibleNames) = true ↔
  OpenApiAnalysis.namedAmong ps possibleNames.
Proof.
  intros Hne. pose proof (findParam_spec ps possibleNames) as Hspec.
  destruct (OpenApiAnalysis.findParam _ _ _) as [v|].
  - destruct Hspec as [(l1 & p & l2 & -> & Hn & _) (s & Hs & Hv)].
    split.
    + intros _. exists p, s. split_and!; [| done | by rewrite Hn].
      apply elem_of_app. right. apply list_elem_of_here.
    + intros _. destruct v as [|c v]; [| done].
      rewrite Forall_forall in Hne. destruct (Hne s Hs).
      symmetry in Hv. cbn in Hv. by apply (proj1 (toLowerCase_nonempty _)) in Hv.
  - split; [done |]. intros ?. by destruct Hspec.
Qed.

Lemma cursor_check (ps : list OpenApiAnalysis.ParameterObject)
    (names : list string) :
  existsb
    (λ n, Js.has (toLowerCase n)
            ((λ p, toLowerCase (OpenApiAnalysis.name p)) <$> ps)) names
  = true ↔ OpenApiAnalysis.namedAmong ps names.
Proof.
  rewrite existsb_true_elem_of. split.
  - intros (s & Hs & (p & Hp & Hk)%has_lower_names). by exists p, s.
  - intros (p & s & Hp & Hs & Hk). exists s. split; [done |].
    apply has_lower_names. by exists p.
Qed.

Lemma namedAmong_app (ps : list OpenApiAnalysis.ParameterObject)
    (l1 l2 : list string) :
  OpenApiAnalysis.namedAmong ps (l1 ++ l2) ↔
  OpenApiAnalysis.namedAmong ps l1 ∨ OpenApiAnalysis.namedAmong ps l2.
Proof.
  split.
  - intros (p & s & Hp & [? | ?]%elem_of_app & Hk);
      [left | right]; by exists p, s.
  - intros [(p & s & Hp & Hs & Hk) | (p & s & Hp & Hs & Hk)]; exists p, s;
      (split_and!; [done | | done]); apply elem_of_app; auto.
Qed.

Lemma paramNames_nonempty :
  Forall (λ s, s ≠ EmptyString) OpenApiAnalysis.limitParamNames ∧
  Forall (λ s, s ≠ EmptyString) OpenApiAnalysis.offsetParamNames ∧
  Forall (λ s, s ≠ EmptyString) OpenApiAnalysis.pageParamNames.
Proof. split_and!; by repeat constructor. Qed.

(** Which branch [analyzePaginationCapabilities] takes. *)
Lemma analyzePaginationCapabilities_style
    (ps : list OpenApiAnalysis.ParameterObject) :
  let r := OpenApiAnalysis.analyzePaginationCapabilities ps in
  let named := OpenApiAnalysis.namedAmong ps in
  (named OpenApiAnalysis.cursorParamNames ∧ OpenApiAnalysis.style r = "cursor")
  ∨ (¬ named OpenApiAnalysis.cursorParamNames
     ∧ named OpenApiAnalysis.pageParamNames
     ∧ OpenApiAnalysis.style r = "page")
  ∨ (¬ named OpenApiAnalysis.cursorParamNames
     ∧ ¬ named OpenApiAnalysis.pageParamNames
     ∧ (named OpenApiAnalysis.limitParamNames
        ∨ named OpenApiAnalysis.offsetParamNames)
     ∧ OpenApiAnalysis.style r = "offset")
  ∨ (¬ named OpenApiAnalysis.cursorParamNames
     ∧ ¬ named OpenApiAnalysis.pageParamNames
     ∧ ¬ named OpenApiAnalysis.limitParamNames
     ∧ ¬ named OpenApiAnalysis.offsetParamNames
     ∧ OpenApiAnalysis.style r = "none").
Proof.
  destruct paramNames_nonempty as (Hlimit & Hoffset & Hpage).
  cbv zeta. unfold OpenApiAnalysis.analyzePaginationCapabilities. cbv zeta.
  pose proof (cursor_check ps OpenApiAnalysis.cursorParamNames) as Hc.
  pose proof (findParam_truthy ps _ Hpage) as Hp.
  pose proof (findParam_truthy ps _ Hlimit) as Hl.
  pose proof (findParam_truthy ps _ Hoffset) as Ho.
  destruct (existsb _ OpenApiAnalysis.cursorParamNames).
  { left. split; [by apply Hc | done]. }
  assert (¬ OpenApiAnalysis.namedAmong ps OpenApiAnalysis.cursorParamNames)
    by (by intros ?%Hc).
  right.
  destruct (Js.truthy (OpenApiAnalysis.findParam _ _
                         OpenApiAnalysis.pageParamNames)).
  { left. split_and!; [done | by apply Hp | done]. }
  assert (¬ OpenApiAnalysis.namedAmong ps OpenApiAnalysis.pageParamNames)
    by (by intros ?%Hp).
  right.
  destruct (Js.truthy (OpenApiAnalysis.findParam _ _
                         OpenApiAnalysis.limitParamNames)).
  { left. split_and!; [done | done | left; by apply Hl | done]. }
  assert (¬ OpenApiAnalysis.namedAmong ps OpenApiAnalysis.limitParamNames)
    by (by intros ?%Hl).
  destruct (Js.truthy (OpenApiAnalysis.findParam _ _
                         OpenApiAnalysis.offsetParamNames)).
  { left. split_and!; [done | done | right; by apply Ho | done]. }
  right. split_and!; [done .. | | done]. by intros ?%Ho.
Qed.

Lemma findParam_lastOfItsName (ps : list OpenApiAnalysis.ParameterObject)
    (possibleNames : list string) (v : string) :
  OpenApiAnalysis.findParam
    ((λ p, toLowerCase (OpenApiAnalysis.name p)) <$> ps)
    (OpenApiAnalysis.newMap
       ((λ p, (toLowerCase (OpenApiAnalysis.name p), OpenApiAnalysis.name p))
          <$> ps))
    possibleNames = Some v →
  OpenApiAnalysis.lastOfItsName ps v.
Proof.
  intros Hv. pose proof (findParam_spec ps possibleNames) as Hspec.
  rewrite Hv in Hspec. by destruct Hspec.
Qed.

End Pagination_facts.

(** X18.  [analyzePaginationCapabilities] picks its style by which known
    names the parameters bear, up to case: cursor names first, then page
    names, then limit or offset names, else none. *)
Theorem analyzePaginationCapabilities_style_by_precedence
    (ps : list OpenApiAnalysis.ParameterObject) :
  let r := OpenApiAnalysis.analyzePaginationCapabilities ps in
  let named := OpenApiAnalysis.namedAmong ps in
  (OpenApiAnalysis.style r = "cursor" ↔
   named OpenApiAnalysis.cursorParamNames) ∧
  (OpenApiAnalysis.style r = "page" ↔
   ¬ named OpenApiAnalysis.cursorParamNames
   ∧ named OpenApiAnalysis.pageParamNames) ∧
  (OpenApiAnalysis.style r = "offset" ↔
   ¬ named OpenApiAnalysis.cursorParamNames
   ∧ ¬ named OpenApiAnalysis.pageParamNames
   ∧ (named OpenApiAnalysis.limitParamNames
      ∨ named OpenApiAnalysis.offsetParamNames)) ∧
  (OpenApiAnalysis.style r = "none" ↔
   ¬ named (OpenApiAnalysis.cursorParamNames
            ++ OpenApiAnalysis.pageParamNames
            ++ OpenApiAnalysis.limitParamNames
            ++ OpenApiAnalysis.offsetParamNames)).
Proof.
  cbv zeta. rewrite !namedAmong_app.
  destruct (analyzePaginationCapabilities_style ps)
    as [(? & ->) | [(? & ? & ->) | [(? & ? & ? & ->) | (? & ? & ? & ? & ->)]]];
    split_and!; split; try done; try tauto; intros; tauto.
Qed.

(** X19.  Every parameter that [analyzePaginationCapabilities] reports is
    the last of the given parameters with its name up to case, spelt as
    given. *)
Theorem analyzePaginationCapabilities_reports_last_match
    (ps : list OpenApiAnalysis.ParameterObject) (v : string) :
  let r := OpenApiAnalysis.analyzePaginationCapabilities ps in
  Some v ∈ [OpenApiAnalysis.limitParam r; OpenApiAnalysis.offsetParam r;
            OpenApiAnalysis.pageParam r; OpenApiAnalysis.perPageParam r] →
  OpenApiAnalysis.lastOfItsName ps v.
Proof.
  cbv zeta. unfold OpenApiAnalysis.analyzePaginationCapabilities. cbv zeta.
  destruct (existsb _ OpenApiAnalysis.cursorParamNames);
    [| destruct (Js.truthy (OpenApiAnalysis.findParam _ _
                              OpenApiAnalysis.pageParamNames));
       [| destruct (Js.truthy (OpenApiAnalysis.findParam _ _
                                 OpenApiAnalysis.limitParamNames)
                    || Js.truthy (OpenApiAnalysis.findParam _ _
                                    OpenApiAnalysis.offsetParamNames))]];
    cbn [OpenApiAnalysis.limitParam OpenApiAnalysis.offsetParam
         OpenApiAnalysis.pageParam OpenApiAnalysis.perPageParam];
    rewrite !elem_of_cons, elem_of_nil;
    intros [Hv | [Hv | [Hv | [Hv | []]]]]; try done;
    symmetry in Hv; by apply findParam_lastOfItsName in Hv.
Qed.

(** Two parameters named alike up to case: the later one is reported. *)
Lemma analyzePaginationCapabilities_Limit_LIMIT :
  OpenApiAnalysis.lastOfItsName
    [OpenApiAnalysis.mkParameterObject "Limit" "query";
     OpenApiAnalysis.mkParameterObject "LIMIT" "query"] "LIMIT".
Proof.
  apply (analyzePaginationCapabilities_reports_last_match
           [OpenApiAnalysis.mkParameterObject "Limit" "query";
            OpenApiAnalysis.mkParameterObject "LIMIT" "query"] "LIMIT").
  vm_compute. apply list_elem_of_here.
Defined.

Section Capabilities_facts.

Lemma namedAmong_lower (ps : list OpenApiAnalysis.ParameterObject)
    (names : list string) (p : OpenApiAnalysis.ParameterObject) :
  p ∈ ps → toLowerCase (OpenApiAnalysis.name p) ∈ names →
  OpenApiAnalysis.namedAmong ps names.
Proof.
  intros Hp Hin. exists p, (toLowerCase (OpenApiAnalysis.name p)).
  by rewrite toLowerCase_idempotent.
Qed.

Lemma hasSorting_namedAmong (ps : list OpenApiAnalysis.ParameterObject) :
  OpenApiAnalysis.hasSorting (OpenApiAnalysis.analyzeSortCapabilities ps)
  = true ↔ OpenApiAnalysis.namedAmong ps OpenApiAnalysis.sortParamNames.
Proof.
  apply analyzeSortCapabilities_loop_spec.
  unfold OpenApiAnalysis.sortParamNames. by repeat constructor.
Qed.

Lemma style_none (ps : list OpenApiAnalysis.ParameterObject) :
  OpenApiAnalysis.style (OpenApiAnalysis.analyzePaginationCapabilities ps)
  = "none" →
  ¬ OpenApiAnalysis.namedAmong ps OpenApiAnalysis.cursorParamNames
  ∧ ¬ OpenApiAnalysis.namedAmong ps OpenApiAnalysis.pageParamNames
  ∧ ¬ OpenApiAnalysis.namedAmong ps OpenApiAnalysis.limitParamNames
  ∧ ¬ OpenApiAnalysis.namedAmong ps OpenApiAnalysis.offsetParamNames.
Proof.
  destruct (analyzePaginationCapabilities_style ps)
    as [(? & ->) | [(? & ? & ->) | [(? & ? & ? & ->) | (? & ? & ? & ? & ->)]]];
    done.
Qed.

End Capabilities_facts.

(** X20.  When [analyzeQueryParameters] finds no capability at all,
    every parameter name starts with [$] or contains [[]: any other name
    counts at least as a potential filter. *)
Theorem no_capabilities_only_special_names
    (ps : list OpenApiAnalysis.ParameterObject) :
  OpenApiAnalysis.hasQueryCapabilities
    (OpenApiAnalysis.analyzeQueryParameters ps) = false →
  Forall (λ p, Js.startsWith (OpenApiAnalysis.name p) "$" = true
               ∨ Js.includes (OpenApiAnalysis.name p) "[" = true) ps.
Proof.
  unfold OpenApiAnalysis.hasQueryCapabilities,
    OpenApiAnalysis.analyzeQueryParameters.
  cbn [OpenApiAnalysis.filter OpenApiAnalysis.sort OpenApiAnalysis.pagination].
  intros [[Hfilter Hsort]%orb_false_iff Hstyle]%orb_false_iff.
  apply negb_false_iff, String.eqb_eq, style_none in Hstyle
    as (Hcursor & Hpage & Hlimit & Hoffset).
  apply not_true_iff_false in Hsort. rewrite hasSorting_namedAmong in Hsort.
  apply hasFiltering_false in Hfilter. rewrite Forall_forall in Hfilter.
  apply Forall_forall. intros p Hp.
  destruct (Hfilter p Hp) as (_ & _ & Hpot).
  unfold OpenApiAnalysis.isPotentialFilterParam in Hpot.
  apply andb_false_iff in Hpot as [[Hknown | Hdollar]%andb_false_iff | Hbr].
  - exfalso. apply negb_false_iff, has_spec in Hknown.
    unfold OpenApiAnalysis.knownNonFilterParams in Hknown.
    rewrite !elem_of_app in Hknown.
    destruct Hknown as [? | [? | [? | [? | ?]]]];
      [apply Hsort | apply Hlimit | apply Hoffset | apply Hpage
       | apply Hcursor]; by apply (namedAmong_lower ps _ p).
  - left. by apply negb_false_iff.
  - right. by apply negb_false_iff.
Qed.

(** Names the analysis passes over. *)
Lemma no_capabilities_select_fields :
  OpenApiAnalysis.hasQueryCapabilities
    (OpenApiAnalysis.analyzeQueryParameters
       [OpenApiAnalysis.mkParameterObject "$select" "query";
        OpenApiAnalysis.mkParameterObject "fields[user]" "query"]) = false
  ∧ Forall (λ p, Js.startsWith (OpenApiAnalysis.name p) "$" = true
                 ∨ Js.includes (OpenApiAnalysis.name p) "[" = true)
      [OpenApiAnalysis.mkParameterObject "$select" "query";
       OpenApiAnalysis.mkParameterObject "fields[user]" "query"].
Proof.
  split; [vm_compute; reflexivity |].
  apply (no_capabilities_only_special_names
           [OpenApiAnalysis.mkParameterObject "$select" "query";
            OpenApiAnalysis.mkParameterObject "fields[user]" "query"]).
  vm_compute. reflexivity.
Defined.

Section Known_names_facts.

Lemma toLowerCase_dollar (c : ascii) :
  (Char.toLowerCase c =? "$")%char = (c =? "$")%char.
Proof. destruct c as [[] [] [] [] [] [] [] []]; reflexivity. Qed.

Lemma toLowerCase_bracket (c : ascii) :
  (Char.toLowerCase c =? "[")%char = (c =? "[")%char.
Proof. destruct c as [[] [] [] [] [] [] [] []]; reflexivity. Qed.

Lemma startsWith_dollar_toLowerCase (n : string) :
  Js.startsWith (toLowerCase n) "$" = Js.startsWith n "$".
Proof.
  destruct n as [|c n]; [done |]. cbn [toLowerCase Js.startsWith].
  by rewrite toLowerCase_dollar, !startsWith_empty.
Qed.

Lemma includes_bracket_toLowerCase (n : string) :
  Js.includes (toLowerCase n) "[" = Js.includes n "[".
Proof.
  induction n as [|c n IH]; [done |].
  cbn [toLowerCase Js.includes Js.startsWith].
  by rewrite toLowerCase_bracket, !startsWith_empty, IH.
Qed.

(** Whether a name counts as a potential filter, read off its lowercase
    form. *)
Lemma isPotentialFilterParam_toLowerCase (n : string) :
  OpenApiAnalysis.isPotentialFilterParam n
  = negb (Js.has (toLowerCase n) OpenApiAnalysis.knownNonFilterParams)
    && negb (Js.startsWith (toLowerCase n) "$")
    && negb (Js.includes (toLowerCase n) "[").
Proof.
  unfold OpenApiAnalysis.isPotentialFilterParam.
  by rewrite startsWith_dollar_toLowerCase, includes_bracket_toLowerCase.
Qed.

End Known_names_facts.

(** X21.  The set of known non-filter names is looked up with the
    lowercased parameter name although it holds names in mixed case.  So
    a parameter named, up to case, like a known sort or pagination name is
    kept out of the potential filters exactly when that known name has a
    lowercase spelling in the set: names like [sortBy], [orderBy],
    [perPage], [pageSize] and [pageNumber] count as potential filters. *)
Theorem known_camel_case_names_are_potential_filters (n s : string) :
  s ∈ OpenApiAnalysis.knownNonFilterParams →
  toLowerCase n = toLowerCase s →
  OpenApiAnalysis.isPotentialFilterParam n = true ↔
  toLowerCase n ∈ ["sortby"; "orderby"; "perpage"; "pagesize"; "pagenumber"].
Proof.
  intros Hs Hn. rewrite isPotentialFilterParam_toLowerCase, Hn. clear Hn.
  unfold OpenApiAnalysis.knownNonFilterParams, OpenApiAnalysis.sortParamNames,
    OpenApiAnalysis.limitParamNames, OpenApiAnalysis.offsetParamNames,
    OpenApiAnalysis.pageParamNames, OpenApiAnalysis.cursorParamNames in Hs.
  cbn [app] in Hs.
  repeat (apply elem_of_cons in Hs as [-> | Hs];
          [vm_compute; split;
           [first [intros _;
                   solve [repeat (first [apply list_elem_of_here
                                        | apply list_elem_of_further])]
                  | intros [=]]
           | first [intros _; reflexivity
                   | intros Hin; exfalso;
                     repeat (apply elem_of_cons in Hin as [[=] | Hin]);
                     by apply elem_of_nil in Hin]] |]).
  by apply elem_of_nil in Hs.
Qed.

(** A parameter [SortBy] is reported as a potential filter. *)
Lemma isPotentialFilterParam_SortBy :
  OpenApiAnalysis.isPotentialFilterParam "SortBy" = true ↔
  toLowerCase "SortBy"
  ∈ ["sortby"; "orderby"; "perpage"; "pagesize"; "pagenumber"].
Proof.
  apply (known_camel_case_names_are_potential_filters "SortBy" "sortBy").
  - vm_compute. apply list_elem_of_further, list_elem_of_here.
  - vm_compute. reflexivity.
Defined.

(* ===================================================================== *)
(** * The GraphQL argument analysis *)
(* ===================================================================== *)

(** The GraphQL analysis on the schemas of its tests. *)
Example graphql_relay_pagination :
  GraphQLAnalysis.analyzePaginationCapabilities
    [GraphQLAnalysis.mkGraphQLArgument "first"
       (GraphQLAnalysis.GraphQLNamedType "Int");
     GraphQLAnalysis.mkGraphQLArgument "after"
       (GraphQLAnalysis.GraphQLNamedType "String")]
  = GraphQLAnalysis.mkPaginationCapabilities "relay" (Some "first") None.
Proof. reflexivity. Qed.

Example graphql_take_skip_pagination :
  GraphQLAnalysis.analyzePaginationCapabilities
    [GraphQLAnalysis.mkGraphQLArgument "take"
       (GraphQLAnalysis.GraphQLNamedType "Int");
     GraphQLAnalysis.mkGraphQLArgument "skip"
       (GraphQLAnalysis.GraphQLNamedType "Int")]
  = GraphQLAnalysis.mkPaginationCapabilities "offset" (Some "take")
      (Some "skip").
Proof. reflexivity. Qed.

Example graphql_hasura_filter :
  GraphQLAnalysis.analyzeFilterCapabilities
    [GraphQLAnalysis.mkGraphQLArgument "where"
       (GraphQLAnalysis.GraphQLInputObjectType "items_bool_exp" ["_eq"])]
  = GraphQLAnalysis.mkFilterCapabilities true (Some "hasura")
      (Some "items_bool_exp").
Proof. reflexivity. Qed.

Example graphql_custom_filter :
  GraphQLAnalysis.analyzeFilterCapabilities
    [GraphQLAnalysis.mkGraphQLArgument "filter"
       (GraphQLAnalysis.GraphQLInputObjectType "ItemFilter" ["name"])]
  = GraphQLAnalysis.mkFilterCapabilities true (Some "custom")
      (Some "ItemFilter").
Proof. reflexivity. Qed.

Example graphql_infer_from_order_by :
  GraphQLAnalysis.inferPredicateMappingPreset
    (GraphQLAnalysis.mkQueryCapabilities
       (GraphQLAnalysis.mkFilterCapabilities false None None)
       (GraphQLAnalysis.mkSortCapabilities true None (Some "users_order_by"))
       (GraphQLAnalysis.mkPaginationCapabilities "none" None None))
  = Some "hasura".
Proof. reflexivity. Qed.

Example graphql_infer_custom :
  GraphQLAnalysis.inferPredicateMappingPreset
    (GraphQLAnalysis.mkQueryCapabilities
       (GraphQLAnalysis.mkFilterCapabilities true (Some "custom") None)
       (GraphQLAnalysis.mkSortCapabilities false None None)
       (GraphQLAnalysis.mkPaginationCapabilities "none" None None))
  = None.
Proof. reflexivity. Qed.

Section Pattern_facts.

(** Two patterns neither of which ends with the other cannot both match
    the end of one name. *)
Lemma endsWith_exclusive (n s1 s2 : string) :
  Js.endsWith s1 s2 = false → Js.endsWith s2 s1 = false →
  Js.endsWith n s1 = true → Js.endsWith n s2 = false.
Proof.
  intros H12 H21 [p1 Hp1]%endsWith_spec. apply not_true_iff_false.
  intros [p2 Hp2]%endsWith_spec. rewrite Hp1 in Hp2.
  destruct (Nat.le_ge_cases (String.length s1) (String.length s2)) as [Hle | Hle].
  - destruct (string_app_eq_inv _ _ _ _ Hp2 Hle) as [k Hk].
    assert (Js.endsWith s2 s1 = true); [| congruence].
    apply endsWith_spec. by exists k.
  - symmetry in Hp2. destruct (string_app_eq_inv _ _ _ _ Hp2 Hle) as [k Hk].
    assert (Js.endsWith s1 s2 = true); [| congruence].
    apply endsWith_spec. by exists k.
Qed.

Lemma somePatternTests_exclusive (ps qs : list string) (n : string) :
  forallb (λ p, forallb (λ q, negb (Js.endsWith p q)
                              && negb (Js.endsWith q p)) qs) ps = true →
  GraphQLAnalysis.somePatternTests ps n = true →
  GraphQLAnalysis.somePatternTests qs n = false.
Proof.
  unfold GraphQLAnalysis.somePatternTests.
  rewrite forallb_forall, existsb_exists. intros Hall (p & Hp & Hnp).
  apply existsb_false_Forall, Forall_forall. intros q Hq.
  specialize (Hall p Hp). rewrite forallb_forall in Hall.
  apply list_elem_of_In in Hq.
  destruct (andb_prop _ _ (Hall q Hq)) as [H1%negb_true_iff H2%negb_true_iff].
  by apply (endsWith_exclusive n p q).
Qed.

End Pattern_facts.

(** X22.  The Hasura and Prisma type-name patterns exclude one another,
    and so do the filter and the order-by patterns: the order of the
    checks in [detectFilterStyleFromTypeName] and [detectOrderByStyle]
    never decides the result, and no type name is taken both for a filter
    type and for an order-by type. *)
Theorem type_name_patterns_exclusive (n : string) :
  (GraphQLAnalysis.detectFilterStyleFromTypeName n = Some "prisma" ↔
   GraphQLAnalysis.somePatternTests GraphQLAnalysis.prismaFilterPatterns n
   = true) ∧
  (GraphQLAnalysis.detectOrderByStyle n = Some "prisma" ↔
   GraphQLAnalysis.somePatternTests GraphQLAnalysis.prismaOrderByPatterns n
   = true) ∧
  (GraphQLAnalysis.detectFilterStyleFromTypeName n = None
   ∨ GraphQLAnalysis.detectOrderByStyle n = None).
Proof.
  unfold GraphQLAnalysis.detectFilterStyleFromTypeName,
    GraphQLAnalysis.detectOrderByStyle.
  pose proof (somePatternTests_exclusive GraphQLAnalysis.hasuraFilterPatterns
                GraphQLAnalysis.prismaFilterPatterns n eq_refl) as Hfilter.
  pose proof (somePatternTests_exclusive GraphQLAnalysis.hasuraOrderByPatterns
                GraphQLAnalysis.prismaOrderByPatterns n eq_refl) as Horder.
  pose proof (somePatternTests_exclusive GraphQLAnalysis.hasuraFilterPatterns
                GraphQLAnalysis.hasuraOrderByPatterns n eq_refl) as Hhh.
  pose proof (somePatternTests_exclusive GraphQLAnalysis.hasuraFilterPatterns
                GraphQLAnalysis.prismaOrderByPatterns n eq_refl) as Hhp.
  pose proof (somePatternTests_exclusive GraphQLAnalysis.prismaFilterPatterns
                GraphQLAnalysis.hasuraOrderByPatterns n eq_refl) as Hph.
  pose proof (somePatternTests_exclusive GraphQLAnalysis.prismaFilterPatterns
                GraphQLAnalysis.prismaOrderByPatterns n eq_refl) as Hpp.
  destruct (GraphQLAnalysis.somePatternTests
              GraphQLAnalysis.hasuraFilterPatterns n);
    destruct (GraphQLAnalysis.somePatternTests
                GraphQLAnalysis.prismaFilterPatterns n);
    destruct (GraphQLAnalysis.somePatternTests
                GraphQLAnalysis.hasuraOrderByPatterns n);
    destruct (GraphQLAnalysis.somePatternTests
                GraphQLAnalysis.prismaOrderByPatterns n);
    try (by specialize (Hfilter eq_refl));
    try (by specialize (Horder eq_refl));
    try (by specialize (Hhh eq_refl));
    try (by specialize (Hhp eq_refl));
    try (by specialize (Hph eq_refl));
    try (by specialize (Hpp eq_refl));
    split_and!; try (split; intros; done); auto.
Qed.

Section GraphQL_facts.

Lemma find_by_name_first (args : list GraphQLAnalysis.GraphQLArgument)
    (k : string) (a : GraphQLAnalysis.GraphQLArgument) :
  List.find (λ a, String.eqb (toLowerCase (GraphQLAnalysis.name a)) k) args
  = Some a →
  ∃ l1 l2, args = l1 ++ a :: l2
           ∧ toLowerCase (GraphQLAnalysis.name a) = k
           ∧ Forall (λ b, toLowerCase (GraphQLAnalysis.name b) ≠ k) l1.
Proof.
  intros (l1 & l2 & -> & Ha%String.eqb_eq & Hl1)%find_first.
  exists l1, l2. split_and!; [done .. |].
  eapply Forall_impl; [exact Hl1 |].
  intros b Hb Heq%String.eqb_eq. cbv beta in Hb. congruence.
Qed.

Lemma findArg_first (args : list GraphQLAnalysis.GraphQLArgument)
    (n : string) (a : GraphQLAnalysis.GraphQLArgument) :
  GraphQLAnalysis.findArg args n = Some a →
  ∃ l1 l2, args = l1 ++ a :: l2
           ∧ toLowerCase (GraphQLAnalysis.name a) = toLowerCase n
           ∧ Forall (λ b, toLowerCase (GraphQLAnalysis.name b)
                          ≠ toLowerCase n) l1.
Proof. apply find_by_name_first. Qed.

Lemma findArg_None (args : list GraphQLAnalysis.GraphQLArgument)
    (n : string) :
  GraphQLAnalysis.findArg args n = None ↔
  Forall (λ b, toLowerCase (GraphQLAnalysis.name b) ≠ toLowerCase n) args.
Proof.
  unfold GraphQLAnalysis.findArg. rewrite Forall_forall. split.
  - intros Hnone b Hb%list_elem_of_In Heq%String.eqb_eq.
    by rewrite (find_none _ _ Hnone b Hb) in Heq.
  - intros Hall. destruct (List.find _ args) as [a|] eqn:Hfind; [| done].
    apply find_some in Hfind as [Ha%list_elem_of_In Heq%String.eqb_eq].
    by destruct (Hall a Ha).
Qed.

Lemma findArg_firstOfItsName (args : list GraphQLAnalysis.GraphQLArgument)
    (n : string) (a : GraphQLAnalysis.GraphQLArgument) :
  GraphQLAnalysis.findArg args n = Some a →
  GraphQLAnalysis.firstOfItsName args (GraphQLAnalysis.name a)
  ∧ toLowerCase (GraphQLAnalysis.name a) = toLowerCase n ∧ a ∈ args.
Proof.
  intros (l1 & l2 & -> & Ha & Hl1)%findArg_first. split_and!; [| done |].
  - exists l1, a, l2. split_and!; [done .. |]. by rewrite Ha.
  - apply elem_of_app. right. apply list_elem_of_here.
Qed.

Lemma findArgName_firstOfItsName
    (args : list GraphQLAnalysis.GraphQLArgument) (n v : string) :
  GraphQLAnalysis.findArgName args n = Some v →
  GraphQLAnalysis.firstOfItsName args v ∧ toLowerCase v = toLowerCase n.
Proof.
  unfold GraphQLAnalysis.findArgName.
  destruct (GraphQLAnalysis.findArg args n) as [a|] eqn:Ha; [| done].
  intros [= <-]. by apply findArg_firstOfItsName in Ha as (? & ? & _).
Qed.

Lemma findArgNameFromList_firstOfItsName
    (args : list GraphQLAnalysis.GraphQLArgument)
    (possibleNames : list string) (v : string) :
  GraphQLAnalysis.findArgNameFromList args possibleNames = Some v →
  GraphQLAnalysis.firstOfItsName args v
  ∧ ∃ s, s ∈ possibleNames ∧ toLowerCase v = toLowerCase s.
Proof.
  unfold GraphQLAnalysis.findArgNameFromList. cbv zeta.
  induction possibleNames as [|s l IH];
    cbn [GraphQLAnalysis.findArgNameFromList_loop]; [done |].
  cbv zeta. destruct (Js.has (toLowerCase s) _).
  - destruct (List.find _ args) as [a|] eqn:Hfind; [| done].
    intros [= <-].
    apply find_by_name_first in Hfind as (l1 & l2 & -> & Ha & Hl1). split.
    + exists l1, a, l2. split_and!; [done .. |]. by rewrite Ha.
    + exists s. split; [apply list_elem_of_here | done].
  - intros [? (s' & ? & ?)]%IH. split; [done |]. exists s'.
    split; [by apply list_elem_of_further | done].
Qed.

Lemma graphql_has_lower_names (args : list GraphQLAnalysis.GraphQLArgument)
    (k : string) :
  Js.has k ((λ a, toLowerCase (GraphQLAnalysis.name a)) <$> args) = true ↔
  ∃ a, a ∈ args ∧ toLowerCase (GraphQLAnalysis.name a) = k.
Proof.
  rewrite has_spec, list_elem_of_fmap.
  split; intros (a & ? & ?); eauto.
Qed.

Lemma graphql_existsb_named (args : list GraphQLAnalysis.GraphQLArgument)
    (names : list string) :
  existsb
    (λ n, Js.has (toLowerCase n)
            ((λ a, toLowerCase (GraphQLAnalysis.name a)) <$> args)) names
  = true ↔ GraphQLAnalysis.namedAmong args names.
Proof.
  rewrite existsb_true_elem_of. split.
  - intros (s & Hs & (a & Ha & Hk)%graphql_has_lower_names). by exists a, s.
  - intros (a & s & Ha & Hs & Hk). exists s. split; [done |].
    apply graphql_has_lower_names. by exists a.
Qed.

Lemma graphql_namedAmong_app (args : list GraphQLAnalysis.GraphQLArgument)
    (l1 l2 : list string) :
  GraphQLAnalysis.namedAmong args (l1 ++ l2) ↔
  GraphQLAnalysis.namedAmong args l1 ∨ GraphQLAnalysis.namedAmong args l2.
Proof.
  rewrite <- !graphql_existsb_named, existsb_app. apply orb_true_iff.
Qed.

Lemma graphql_namedAmong_subseteq
    (args : list GraphQLAnalysis.GraphQLArgument) (l1 l2 : list string) :
  l1 ⊆ l2 → GraphQLAnalysis.namedAmong args l1 →
  GraphQLAnalysis.namedAmong args l2.
Proof. intros Hsub (a & s & ? & ? & ?). exists a, s. auto. Qed.

Lemma findArg_namedAmong (args : list GraphQLAnalysis.GraphQLArgument)
    (n : string) :
  is_Some (GraphQLAnalysis.findArg args n) ↔
  GraphQLAnalysis.namedAmong args [n].
Proof.
  split.
  - intros [a (_ & ? & ?)%findArg_firstOfItsName]. exists a, n.
    split_and!; [done | apply list_elem_of_here | done].
  - intros (a & s & Ha & ->%list_elem_of_singleton & Hk).
    destruct (GraphQLAnalysis.findArg args n) eqn:Hfind; [eauto |].
    apply findArg_None in Hfind. rewrite Forall_forall in Hfind.
    by destruct (Hfind a Ha).
Qed.

(** [find] by name sees only the names. *)
Lemma find_by_name_sameUpToWrappers
    (args args' : list GraphQLAnalysis.GraphQLArgument) (k : string) :
  GraphQLAnalysis.sameUpToWrappers args args' →
  option_Forall2
    (λ a b, GraphQLAnalysis.name a = GraphQLAnalysis.name b
            ∧ GraphQLAnalysis.unwrapType (GraphQLAnalysis.type a)
              = GraphQLAnalysis.unwrapType (GraphQLAnalysis.type b))
    (List.find (λ a, String.eqb (toLowerCase (GraphQLAnalysis.name a)) k)
       args)
    (List.find (λ a, String.eqb (toLowerCase (GraphQLAnalysis.name a)) k)
       args').
Proof.
  induction 1 as [|a b l l' [Hn Ht] _ IH]; cbn [List.find]; [constructor |].
  rewrite <- Hn.
  destruct (String.eqb _ _); [by constructor | done].
Qed.

Lemma findArg_sameUpToWrappers
    (args args' : list GraphQLAnalysis.GraphQLArgument) (n : string) :
  GraphQLAnalysis.sameUpToWrappers args args' →
  option_Forall2
    (λ a b, GraphQLAnalysis.name a = GraphQLAnalysis.name b
            ∧ GraphQLAnalysis.unwrapType (GraphQLAnalysis.type a)
              = GraphQLAnalysis.unwrapType (GraphQLAnalysis.type b))
    (GraphQLAnalysis.findArg args n) (GraphQLAnalysis.findArg args' n).
Proof. apply find_by_name_sameUpToWrappers. Qed.

Lemma names_sameUpToWrappers
    (args args' : list GraphQLAnalysis.GraphQLArgument) :
  GraphQLAnalysis.sameUpToWrappers args args' →
  (λ a, toLowerCase (GraphQLAnalysis.name a)) <$> args
  = (λ a, toLowerCase (GraphQLAnalysis.name a)) <$> args'.
Proof.
  induction 1 as [|a b l l' [Hn Ht] _ IH]; [done |].
  cbn [fmap list_fmap]. cbn [fmap] in IH. by rewrite Hn, IH.
Qed.

Lemma findArgName_sameUpToWrappers
    (args args' : list GraphQLAnalysis.GraphQLArgument) (n : string) :
  GraphQLAnalysis.sameUpToWrappers args args' →
  GraphQLAnalysis.findArgName args n = GraphQLAnalysis.findArgName args' n.
Proof.
  intros Hsame. unfold GraphQLAnalysis.findArgName.
  destruct (findArg_sameUpToWrappers args args' n Hsame) as [a b [Hn _]|];
    [| done].
  cbn. by rewrite Hn.
Qed.

Lemma findArgNameFromList_sameUpToWrappers
    (args args' : list GraphQLAnalysis.GraphQLArgument)
    (possibleNames : list string) :
  GraphQLAnalysis.sameUpToWrappers args args' →
  GraphQLAnalysis.findArgNameFromList args possibleNames
  = GraphQLAnalysis.findArgNameFromList args' possibleNames.
Proof.
  intros Hsame. unfold GraphQLAnalysis.findArgNameFromList. cbv zeta.
  rewrite <- (names_sameUpToWrappers args args' Hsame).
  induction possibleNames as [|s l IH];
    cbn [GraphQLAnalysis.findArgNameFromList_loop]; [done |].
  cbv zeta. rewrite IH. destruct (Js.has _ _); [| done].
  destruct (find_by_name_sameUpToWrappers args args' (toLowerCase s) Hsame)
    as [a b [Hn _]|]; [| done].
  cbn. by rewrite Hn.
Qed.

Lemma analyzeFilterCapabilities_sameUpToWrappers
    (args args' : list GraphQLAnalysis.GraphQLArgument) :
  GraphQLAnalysis.sameUpToWrappers args args' →
  GraphQLAnalysis.analyzeFilterCapabilities args
  = GraphQLAnalysis.analyzeFilterCapabilities args'.
Proof.
  intros Hsame. unfold GraphQLAnalysis.analyzeFilterCapabilities.
  induction GraphQLAnalysis.filterArgNames as [|s l IH];
    cbn [GraphQLAnalysis.analyzeFilterCapabilities_loop]; [done |].
  destruct (findArg_sameUpToWrappers args args' s Hsame) as [a b [_ Ht]|];
    [| done].
  by rewrite Ht, IH.
Qed.

Lemma analyzeSortCapabilities_sameUpToWrappers
    (args args' : list GraphQLAnalysis.GraphQLArgument) :
  GraphQLAnalysis.sameUpToWrappers args args' →
  GraphQLAnalysis.analyzeSortCapabilities args
  = GraphQLAnalysis.analyzeSortCapabilities args'.
Proof.
  intros Hsame. unfold GraphQLAnalysis.analyzeSortCapabilities.
  induction GraphQLAnalysis.sortArgNames as [|s l IH];
    cbn [GraphQLAnalysis.analyzeSortCapabilities_loop]; [done |].
  destruct (findArg_sameUpToWrappers args args' s Hsame) as [a b [Hn Ht]|];
    [| done].
  by rewrite Hn, Ht.
Qed.

Lemma analyzePaginationCapabilities_sameUpToWrappers
    (args args' : list GraphQLAnalysis.GraphQLArgument) :
  GraphQLAnalysis.sameUpToWrappers args args' →
  GraphQLAnalysis.analyzePaginationCapabilities args
  = GraphQLAnalysis.analyzePaginationCapabilities args'.
Proof.
  intros Hsame. unfold GraphQLAnalysis.analyzePaginationCapabilities.
  cbv zeta. rewrite <- (names_sameUpToWrappers args args' Hsame).
  by rewrite !(findArgName_sameUpToWrappers args args' _ Hsame),
    !(findArgNameFromList_sameUpToWrappers args args' _ Hsame).
Qed.

End GraphQL_facts.

(** X23.  The GraphQL analysis sees argument types only through
    [unwrapType]: two argument lists with the same names whose types
    differ only in [NonNull] and [List] wrappers get the same
    capabilities. *)
Theorem analyzeGraphQLQueryCapabilities_ignores_wrappers
    (args args' : list GraphQLAnalysis.GraphQLArgument) :
  GraphQLAnalysis.sameUpToWrappers args args' →
  GraphQLAnalysis.analyzeGraphQLQueryCapabilities args
  = GraphQLAnalysis.analyzeGraphQLQueryCapabilities args'.
Proof.
  intros Hsame. unfold GraphQLAnalysis.analyzeGraphQLQueryCapabilities.
  by rewrite (analyzeFilterCapabilities_sameUpToWrappers _ _ Hsame),
    (analyzeSortCapabilities_sameUpToWrappers _ _ Hsame),
    (analyzePaginationCapabilities_sameUpToWrappers _ _ Hsame).
Qed.

(** [where: [items_bool_exp!]!] is analysed like [where: items_bool_exp]. *)
Lemma analyzeGraphQLQueryCapabilities_wrapped_where :
  GraphQLAnalysis.analyzeGraphQLQueryCapabilities
    [GraphQLAnalysis.mkGraphQLArgument "where"
       (GraphQLAnalysis.GraphQLNonNull
          (GraphQLAnalysis.GraphQLList
             (GraphQLAnalysis.GraphQLNonNull
                (GraphQLAnalysis.GraphQLInputObjectType "items_bool_exp"
                   ["_eq"]))))]
  = GraphQLAnalysis.analyzeGraphQLQueryCapabilities
      [GraphQLAnalysis.mkGraphQLArgument "where"
         (GraphQLAnalysis.GraphQLInputObjectType "items_bool_exp" ["_eq"])].
Proof.
  apply analyzeGraphQLQueryCapabilities_ignores_wrappers.
  repeat constructor.
Defined.

Section GraphQL_capabilities_facts.

Lemma detectFilterStyle_cases (typeName : string) (fieldNames : list string) :
  GraphQLAnalysis.detectFilterStyle typeName fieldNames
  ∈ ["hasura"; "prisma"; "custom"].
Proof.
  unfold GraphQLAnalysis.detectFilterStyle.
  repeat (destruct (_ : bool); [set_solver |]). set_solver.
Qed.

Lemma detectOrderByStyle_cases (typeName : string) :
  GraphQLAnalysis.detectOrderByStyle typeName
  ∈ [None; Some "hasura"; Some "prisma"].
Proof.
  unfold GraphQLAnalysis.detectOrderByStyle.
  repeat (destruct (_ : bool); [set_solver |]). set_solver.
Qed.

Lemma graphql_analyzeFilterCapabilities_loop_spec
    (args : list GraphQLAnalysis.GraphQLArgument) (argNames : list string) :
  let r := GraphQLAnalysis.analyzeFilterCapabilities_loop args argNames in
  if GraphQLAnalysis.hasFiltering r then
    ∃ a typeName fieldNames,
      a ∈ args ∧ GraphQLAnalysis.namedAmong [a] argNames
      ∧ GraphQLAnalysis.unwrapType (GraphQLAnalysis.type a)
        = GraphQLAnalysis.GraphQLInputObjectType typeName fieldNames
      ∧ GraphQLAnalysis.filterInputType r = Some typeName
      ∧ GraphQLAnalysis.filterStyle r
        = Some (GraphQLAnalysis.detectFilterStyle typeName fieldNames)
  else
    GraphQLAnalysis.filterStyle r = None
    ∧ GraphQLAnalysis.filterInputType r = None
    ∧ Forall (λ s, ∀ a, GraphQLAnalysis.findArg args s = Some a →
                        ∀ typeName fieldNames,
                          GraphQLAnalysis.unwrapType (GraphQLAnalysis.type a)
                          ≠ GraphQLAnalysis.GraphQLInputObjectType typeName
                              fieldNames) argNames.
Proof.
  cbv zeta.
  assert (∀ s l r,
            (if GraphQLAnalysis.hasFiltering r then
               ∃ a typeName fieldNames,
                 a ∈ args ∧ GraphQLAnalysis.namedAmong [a] l
                 ∧ GraphQLAnalysis.unwrapType (GraphQLAnalysis.type a)
                   = GraphQLAnalysis.GraphQLInputObjectType typeName
                       fieldNames
                 ∧ GraphQLAnalysis.filterInputType r = Some typeName
                 ∧ GraphQLAnalysis.filterStyle r
                   = Some (GraphQLAnalysis.detectFilterStyle typeName
                             fieldNames)
             else
               GraphQLAnalysis.filterStyle r = None
               ∧ GraphQLAnalysis.filterInputType r = None
               ∧ Forall (λ s, ∀ a, GraphQLAnalysis.findArg args s = Some a →
                                   ∀ typeName fieldNames,
                                     GraphQLAnalysis.unwrapType
                                       (GraphQLAnalysis.type a)
                                     ≠ GraphQLAnalysis.GraphQLInputObjectType
                                         typeName fieldNames) l) →
            (∀ a, GraphQLAnalysis.findArg args s = Some a →
                  ∀ typeName fieldNames,
                    GraphQLAnalysis.unwrapType (GraphQLAnalysis.type a)
                    ≠ GraphQLAnalysis.GraphQLInputObjectType typeName
                        fieldNames) →
            if GraphQLAnalysis.hasFiltering r then
              ∃ a typeName fieldNames,
                a ∈ args ∧ GraphQLAnalysis.namedAmong [a] (s :: l)
                ∧ GraphQLAnalysis.unwrapType (GraphQLAnalysis.type a)
                  = GraphQLAnalysis.GraphQLInputObjectType typeName
                      fieldNames
                ∧ GraphQLAnalysis.filterInputType r = Some typeName
                ∧ GraphQLAnalysis.filterStyle r
                  = Some (GraphQLAnalysis.detectFilterStyle typeName
                            fieldNames)
            else
              GraphQLAnalysis.filterStyle r = None
              ∧ GraphQLAnalysis.filterInputType r = None
              ∧ Forall (λ s, ∀ a, GraphQLAnalysis.findArg args s = Some a →
                                  ∀ typeName fieldNames,
                                    GraphQLAnalysis.unwrapType
                                      (GraphQLAnalysis.type a)
                                    ≠ GraphQLAnalysis.GraphQLInputObjectType
                                        typeName fieldNames) (s :: l))
    as Hstep.
  { intros s l r Hr Hs. destruct (GraphQLAnalysis.hasFiltering r).
    - destruct Hr as (a & tn & fs & Ha & (a' & s' & ? & ? & ?) & ? & ? & ?).
      exists a, tn, fs. split_and!; [done | | done ..].
      exists a', s'. split_and!; [done | by apply list_elem_of_further | done].
    - destruct Hr as (? & ? & ?). split_and!; [done .. |]. by constructor. }
  induction argNames as [|s l IH];
    cbn [GraphQLAnalysis.analyzeFilterCapabilities_loop].
  - cbn. split_and!; [done | done | constructor].
  - destruct (GraphQLAnalysis.findArg args s) as [a|] eqn:Hfind;
      [| apply Hstep; [done | intros a'; by rewrite Hfind]].
    destruct (GraphQLAnalysis.unwrapType (GraphQLAnalysis.type a))
      as [| | tn fs |] eqn:Ht;
      try (apply Hstep; [done |]; intros a'; rewrite Hfind;
           intros [= <-] ? ?; by rewrite Ht).
    cbn [GraphQLAnalysis.hasFiltering GraphQLAnalysis.filterStyle
         GraphQLAnalysis.filterInputType].
    apply findArg_firstOfItsName in Hfind as (_ & Hk & Ha).
    exists a, tn, fs. split_and!; [done | | done ..].
    exists a, s. split_and!; [apply list_elem_of_here .. | done].
Qed.

Lemma graphql_analyzeSortCapabilities_loop_spec
    (args : list GraphQLAnalysis.GraphQLArgument) (argNames : list string) :
  let r := GraphQLAnalysis.analyzeSortCapabilities_loop args argNames in
  (GraphQLAnalysis.hasSorting r = true ↔
   GraphQLAnalysis.namedAmong args argNames) ∧
  (GraphQLAnalysis.hasSorting r = false →
   GraphQLAnalysis.sortParam r = None
   ∧ GraphQLAnalysis.orderByInputType r = None) ∧
  (∀ v, GraphQLAnalysis.sortParam r = Some v →
        GraphQLAnalysis.firstOfItsName args v
        ∧ ∃ s, s ∈ argNames ∧ toLowerCase v = toLowerCase s).
Proof.
  cbv zeta. induction argNames as [|s l (IH1 & IH2 & IH3)];
    cbn [GraphQLAnalysis.analyzeSortCapabilities_loop].
  - cbn. split_and!; [| done | done]. split; [done |].
    intros (a & s & _ & Hin & _). by apply elem_of_nil in Hin.
  - destruct (GraphQLAnalysis.findArg args s) as [a|] eqn:Hfind.
    + cbn [GraphQLAnalysis.hasSorting GraphQLAnalysis.sortParam
           GraphQLAnalysis.orderByInputType].
      apply findArg_firstOfItsName in Hfind as (Hfirst & Hk & Ha).
      split_and!; [| done |].
      * split; [intros _ | done]. exists a, s.
        split_and!; [done | apply list_elem_of_here | done].
      * intros v [= <-]. split; [done |]. exists s.
        split; [apply list_elem_of_here | done].
    + split_and!; [| done |].
      * rewrite IH1. apply findArg_None in Hfind.
        rewrite Forall_forall in Hfind. split.
        -- intros (a & s' & ? & ? & ?). exists a, s'.
           split_and!; [done | by apply list_elem_of_further | done].
        -- intros (a & s' & Ha & [-> | ?]%elem_of_cons & Hk).
           ++ by destruct (Hfind a Ha).
           ++ by exists a, s'.
      * intros v (? & s' & ? & ?)%IH3. split; [done |]. exists s'.
        split; [by apply list_elem_of_further | done].
Qed.

(** The argument behind a reported [sortParam]: it bears the first of
    the sort names that any argument bears, and it is the argument that
    [find] gives for its own name. *)
Lemma graphql_analyzeSortCapabilities_loop_found
    (args : list GraphQLAnalysis.GraphQLArgument) (argNames : list string)
    (v : string) :
  GraphQLAnalysis.sortParam
    (GraphQLAnalysis.analyzeSortCapabilities_loop args argNames) = Some v →
  ∃ l1 n l2 a,
    argNames = l1 ++ n :: l2 ∧ ¬ GraphQLAnalysis.namedAmong args l1
    ∧ toLowerCase v = toLowerCase n
    ∧ GraphQLAnalysis.findArg args v = Some a ∧ GraphQLAnalysis.name a = v
    ∧ GraphQLAnalysis.orderByInputType
        (GraphQLAnalysis.analyzeSortCapabilities_loop args argNames)
      = match GraphQLAnalysis.unwrapType (GraphQLAnalysis.type a) with
        | GraphQLAnalysis.GraphQLInputObjectType typeName _ => Some typeName
        | _ => None
        end.
Proof.
  induction argNames as [|s l IH];
    cbn [GraphQLAnalysis.analyzeSortCapabilities_loop]; [done |].
  destruct (GraphQLAnalysis.findArg args s) as [a|] eqn:Hfind.
  - cbn [GraphQLAnalysis.sortParam GraphQLAnalysis.orderByInputType].
    intros [= <-]. exists [], s, l, a.
    pose proof (findArg_firstOfItsName args s a Hfind) as (_ & Hk & _).
    split_and!; [done | | done | | done | done].
    + intros (? & ? & _ & Hin & _). by apply elem_of_nil in Hin.
    + unfold GraphQLAnalysis.findArg in *. by rewrite Hk.
  - intros (l1 & n & l2 & a & -> & Hnot & ? & ? & ? & ?)%IH.
    exists (s :: l1), n, l2, a. split_and!; [done | | done ..].
    intros (b & s' & Hb & [-> | Hs']%elem_of_cons & Hk).
    + apply findArg_None in Hfind. rewrite Forall_forall in Hfind.
      by destruct (Hfind b Hb).
    + apply Hnot. by exists b, s'.
Qed.

End GraphQL_capabilities_facts.

(** X24.  [inferPredicateMappingPreset] never answers [custom]; on the
    capabilities that [analyzeGraphQLQueryCapabilities] computes it
    answers [hasura], [prisma] or nothing, and a filter style other than
    [custom] takes precedence over the order-by type name. *)
Theorem inferPredicateMappingPreset_known_preset_or_none :
  (∀ c, GraphQLAnalysis.inferPredicateMappingPreset c ≠ Some "custom") ∧
  (∀ args,
     GraphQLAnalysis.inferPredicateMappingPreset
       (GraphQLAnalysis.analyzeGraphQLQueryCapabilities args)
     ∈ [None; Some "hasura"; Some "prisma"]) ∧
  (∀ args s,
     GraphQLAnalysis.filterStyle
       (GraphQLAnalysis.analyzeFilterCapabilities args) = Some s →
     s ≠ "custom" →
     GraphQLAnalysis.inferPredicateMappingPreset
       (GraphQLAnalysis.analyzeGraphQLQueryCapabilities args) = Some s).
Proof.
  split_and!.
  - intros c. unfold GraphQLAnalysis.inferPredicateMappingPreset.
    destruct (GraphQLAnalysis.hasFiltering _ && _ && _) eqn:Hfilter.
    + apply andb_true_iff in Hfilter as [_ Hcustom%negb_true_iff].
      by apply bool_decide_eq_false in Hcustom.
    + destruct (Js.truthy (GraphQLAnalysis.orderByInputType _)); [| done].
      cbv zeta.
      pose proof (detectOrderByStyle_cases
                    (default EmptyString
                       (GraphQLAnalysis.orderByInputType
                          (GraphQLAnalysis.sort c)))) as Hcases.
      destruct (Js.truthy (GraphQLAnalysis.detectOrderByStyle _)); [| done].
      intros Heq. rewrite Heq in Hcases.
      repeat (apply elem_of_cons in Hcases as [[=] | Hcases]).
      by apply elem_of_nil in Hcases.
  - intros args. unfold GraphQLAnalysis.inferPredicateMappingPreset.
    cbn [GraphQLAnalysis.analyzeGraphQLQueryCapabilities
         GraphQLAnalysis.filter GraphQLAnalysis.sort].
    destruct (GraphQLAnalysis.hasFiltering _ && _ && _) eqn:Hfilter.
    + apply andb_true_iff in Hfilter as [[Hhas _]%andb_true_iff Hcustom].
      apply negb_true_iff, bool_decide_eq_false in Hcustom.
      pose proof (graphql_analyzeFilterCapabilities_loop_spec args
                    GraphQLAnalysis.filterArgNames) as Hspec.
      cbv zeta in Hspec.
      fold (GraphQLAnalysis.analyzeFilterCapabilities args) in Hspec.
      rewrite Hhas in Hspec.
      destruct Hspec as (a & tn & fs & _ & _ & _ & _ & Hstyle).
      rewrite Hstyle in Hcustom |- *.
      pose proof (detectFilterStyle_cases tn fs) as Hcases.
      repeat (apply elem_of_cons in Hcases as [Hc | Hcases]);
        [rewrite Hc; apply list_elem_of_further, list_elem_of_here
        | rewrite Hc;
          apply list_elem_of_further, list_elem_of_further, list_elem_of_here
        | by rewrite Hc in Hcustom
        | by apply elem_of_nil in Hcases].
    + destruct (Js.truthy (GraphQLAnalysis.orderByInputType _));
        [| apply list_elem_of_here].
      cbv zeta.
      destruct (Js.truthy (GraphQLAnalysis.detectOrderByStyle _));
        [apply detectOrderByStyle_cases | apply list_elem_of_here].
  - intros args s Hstyle Hcustom.
    unfold GraphQLAnalysis.inferPredicateMappingPreset.
    cbn [GraphQLAnalysis.analyzeGraphQLQueryCapabilities
         GraphQLAnalysis.filter GraphQLAnalysis.sort].
    pose proof (graphql_analyzeFilterCapabilities_loop_spec args
                  GraphQLAnalysis.filterArgNames) as Hspec.
    cbv zeta in Hspec.
    fold (GraphQLAnalysis.analyzeFilterCapabilities args) in Hspec.
    destruct (GraphQLAnalysis.hasFiltering _).
    + destruct Hspec as (a & tn & fs & _ & _ & _ & _ & Hstyle').
      rewrite Hstyle. rewrite Hstyle in Hstyle'. injection Hstyle' as ->.
      pose proof (detectFilterStyle_cases tn fs) as Hcases.
      assert (Js.truthy (Some (GraphQLAnalysis.detectFilterStyle tn fs))
              = true) as ->.
      { repeat (apply elem_of_cons in Hcases as [-> | Hcases]); try done.
        by apply elem_of_nil in Hcases. }
      rewrite bool_decide_eq_false_2; [done |]. congruence.
    + destruct Hspec as (Hnone & _). congruence.
Qed.

(** X25.  The GraphQL analysis reports only what the arguments give: the
    sort argument is the first argument of its name up to case, it bears,
    up to case, the first of [sortArgNames] that any argument bears,
    whatever its type, and [orderByInputType] is the name of its unwrapped
    type when that is an input object type; without sorting nothing is
    reported; filtering is reported only for an
    argument named like one of [filterArgNames] whose unwrapped type is an
    input object type, with that type's name and detected style. *)
Theorem graphql_analysis_reports_given_arguments
    (args : list GraphQLAnalysis.GraphQLArgument) :
  let f := GraphQLAnalysis.analyzeFilterCapabilities args in
  let s := GraphQLAnalysis.analyzeSortCapabilities args in
  (GraphQLAnalysis.hasSorting s = true ↔
   GraphQLAnalysis.namedAmong args GraphQLAnalysis.sortArgNames) ∧
  (GraphQLAnalysis.hasSorting s = false →
   GraphQLAnalysis.sortParam s = None
   ∧ GraphQLAnalysis.orderByInputType s = None) ∧
  (∀ v, GraphQLAnalysis.sortParam s = Some v →
        GraphQLAnalysis.firstOfItsName args v
        ∧ (∃ l1 n l2,
             GraphQLAnalysis.sortArgNames = l1 ++ n :: l2
             ∧ toLowerCase v = toLowerCase n
             ∧ ¬ GraphQLAnalysis.namedAmong args l1)
        ∧ ∃ a, GraphQLAnalysis.findArg args v = Some a
               ∧ GraphQLAnalysis.name a = v
               ∧ GraphQLAnalysis.orderByInputType s
                 = match GraphQLAnalysis.unwrapType (GraphQLAnalysis.type a)
                   with
                   | GraphQLAnalysis.GraphQLInputObjectType typeName _ =>
                       Some typeName
                   | _ => None
                   end) ∧
  (GraphQLAnalysis.hasFiltering f = true →
   ∃ a typeName fieldNames,
     a ∈ args
     ∧ GraphQLAnalysis.namedAmong [a] GraphQLAnalysis.filterArgNames
     ∧ GraphQLAnalysis.unwrapType (GraphQLAnalysis.type a)
       = GraphQLAnalysis.GraphQLInputObjectType typeName fieldNames
     ∧ GraphQLAnalysis.filterInputType f = Some typeName
     ∧ GraphQLAnalysis.filterStyle f
       = Some (GraphQLAnalysis.detectFilterStyle typeName fieldNames)) ∧
  (GraphQLAnalysis.hasFiltering f = false →
   GraphQLAnalysis.filterStyle f = None
   ∧ GraphQLAnalysis.filterInputType f = None).
Proof.
  cbv zeta.
  destruct (graphql_analyzeSortCapabilities_loop_spec args
              GraphQLAnalysis.sortArgNames) as (Hs1 & Hs2 & Hs3).
  pose proof (graphql_analyzeFilterCapabilities_loop_spec args
                GraphQLAnalysis.filterArgNames) as Hf.
  cbv zeta in Hf.
  fold (GraphQLAnalysis.analyzeFilterCapabilities args) in Hf.
  split_and!; [done | done | | |].
  - intros v Hv. destruct (Hs3 v Hv) as [Hfirst _].
    apply graphql_analyzeSortCapabilities_loop_found in Hv
      as (l1 & n & l2 & a & ? & ? & ? & ? & ? & ?).
    split_and!; [done | by exists l1, n, l2 | by exists a].
  - intros Hhas. by rewrite Hhas in Hf.
  - intros Hhas. rewrite Hhas in Hf. by destruct Hf as (? & ? & _).
Qed.

Section GraphQL_pagination_facts.

Lemma graphql_has_named (args : list GraphQLAnalysis.GraphQLArgument)
    (s : string) :
  Js.has (toLowerCase s)
    ((λ a, toLowerCase (GraphQLAnalysis.name a)) <$> args) = true ↔
  GraphQLAnalysis.namedAmong args [s].
Proof.
  rewrite <- graphql_existsb_named. cbn [existsb]. by rewrite orb_false_r.
Qed.

Lemma graphql_namedAmong_cons (args : list GraphQLAnalysis.GraphQLArgument)
    (s : string) (l : list string) :
  GraphQLAnalysis.namedAmong args (s :: l) ↔
  GraphQLAnalysis.namedAmong args [s] ∨ GraphQLAnalysis.namedAmong args l.
Proof. apply (graphql_namedAmong_app args [s] l). Qed.

(** Which branch the GraphQL [analyzePaginationCapabilities] takes. *)
Lemma graphql_analyzePaginationCapabilities_cases
    (args : list GraphQLAnalysis.GraphQLArgument) :
  let r := GraphQLAnalysis.analyzePaginationCapabilities args in
  let named := GraphQLAnalysis.namedAmong args in
  let relay := named ["first"; "last"] ∧ named ["after"; "before"] in
  (relay ∧ GraphQLAnalysis.style r = "relay"
   ∧ GraphQLAnalysis.offsetParam r = None
   ∧ GraphQLAnalysis.limitParam r
     = if Js.has "first"
            ((λ a, toLowerCase (GraphQLAnalysis.name a)) <$> args)
       then GraphQLAnalysis.findArgName args "first"
       else GraphQLAnalysis.findArgName args "last")
  ∨ (¬ relay ∧ named ["take"; "skip"]
     ∧ GraphQLAnalysis.style r = "offset"
     ∧ GraphQLAnalysis.limitParam r = GraphQLAnalysis.findArgName args "take"
     ∧ GraphQLAnalysis.offsetParam r
       = GraphQLAnalysis.findArgName args "skip")
  ∨ (¬ relay ∧ ¬ named ["take"; "skip"]
     ∧ named (GraphQLAnalysis.limitArgNames ++ GraphQLAnalysis.offsetArgNames)
     ∧ GraphQLAnalysis.style r = "offset"
     ∧ GraphQLAnalysis.limitParam r
       = GraphQLAnalysis.findArgNameFromList args
           GraphQLAnalysis.limitArgNames
     ∧ GraphQLAnalysis.offsetParam r
       = GraphQLAnalysis.findArgNameFromList args
           GraphQLAnalysis.offsetArgNames)
  ∨ (¬ relay
     ∧ ¬ named (GraphQLAnalysis.limitArgNames
                ++ GraphQLAnalysis.offsetArgNames)
     ∧ GraphQLAnalysis.style r = "none"
     ∧ GraphQLAnalysis.limitParam r = None
     ∧ GraphQLAnalysis.offsetParam r = None).
Proof.
  cbv zeta. unfold GraphQLAnalysis.analyzePaginationCapabilities. cbv zeta.
  rewrite graphql_namedAmong_app,
    !(graphql_namedAmong_cons args _ (_ :: _)).
  pose proof (graphql_has_named args "first") as Hfirst.
  pose proof (graphql_has_named args "last") as Hlast.
  pose proof (graphql_has_named args "after") as Hafter.
  pose proof (graphql_has_named args "before") as Hbefore.
  pose proof (graphql_has_named args "take") as Htake.
  pose proof (graphql_has_named args "skip") as Hskip.
  pose proof (graphql_existsb_named args GraphQLAnalysis.limitArgNames)
    as Hlimit.
  pose proof (graphql_existsb_named args GraphQLAnalysis.offsetArgNames)
    as Hoffset.
  change (toLowerCase "first") with "first" in Hfirst.
  change (toLowerCase "last") with "last" in Hlast.
  change (toLowerCase "after") with "after" in Hafter.
  change (toLowerCase "before") with "before" in Hbefore.
  change (toLowerCase "take") with "take" in Htake.
  change (toLowerCase "skip") with "skip" in Hskip.
  destruct ((Js.has "first" _ || Js.has "last" _)
            && (Js.has "after" _ || Js.has "before" _)) eqn:Hrelay.
  { left. rewrite andb_true_iff, !orb_true_iff in Hrelay. tauto. }
  assert (¬ ((GraphQLAnalysis.namedAmong args ["first"]
              ∨ GraphQLAnalysis.namedAmong args ["last"])
             ∧ (GraphQLAnalysis.namedAmong args ["after"]
                ∨ GraphQLAnalysis.namedAmong args ["before"]))) as Hnot.
  { apply not_true_iff_false in Hrelay.
    rewrite andb_true_iff, !orb_true_iff in Hrelay. tauto. }
  right. destruct (Js.has "take" _ || Js.has "skip" _) eqn:Hts.
  { left. rewrite orb_true_iff in Hts. tauto. }
  assert (¬ (GraphQLAnalysis.namedAmong args ["take"]
             ∨ GraphQLAnalysis.namedAmong args ["skip"])) as Hnts.
  { apply not_true_iff_false in Hts. rewrite orb_true_iff in Hts. tauto. }
  right. destruct (existsb _ GraphQLAnalysis.limitArgNames
                   || existsb _ GraphQLAnalysis.offsetArgNames) eqn:Hlo.
  { left. rewrite orb_true_iff in Hlo. tauto. }
  right. apply not_true_iff_false in Hlo. rewrite orb_true_iff in Hlo. tauto.
Qed.

End GraphQL_pagination_facts.

(** X26.  The GraphQL [analyzePaginationCapabilities]: the style is
    [relay] exactly when an argument is named [first] or [last] and one
    [after] or [before], and [none] exactly when in addition to no such
    pair no argument bears a limit or offset name; every reported argument
    is the first of the arguments with its name up to case; and once an
    argument is named [take] or [skip], only these two are reported, so
    that a [limit] argument beside [skip] is passed over. *)
Theorem graphql_analyzePaginationCapabilities_styles
    (args : list GraphQLAnalysis.GraphQLArgument) :
  let r := GraphQLAnalysis.analyzePaginationCapabilities args in
  let named := GraphQLAnalysis.namedAmong args in
  let relay := named ["first"; "last"] ∧ named ["after"; "before"] in
  (GraphQLAnalysis.style r = "relay" ↔ relay) ∧
  (GraphQLAnalysis.style r = "none" ↔
   ¬ relay
   ∧ ¬ named (GraphQLAnalysis.limitArgNames
              ++ GraphQLAnalysis.offsetArgNames)) ∧
  (∀ v, Some v ∈ [GraphQLAnalysis.limitParam r;
                  GraphQLAnalysis.offsetParam r] →
        GraphQLAnalysis.firstOfItsName args v) ∧
  (¬ relay → named ["take"; "skip"] →
   ∀ v, (GraphQLAnalysis.limitParam r = Some v → toLowerCase v = "take")
        ∧ (GraphQLAnalysis.offsetParam r = Some v → toLowerCase v = "skip")).
Proof.
  cbv zeta.
  assert (GraphQLAnalysis.namedAmong args ["take"; "skip"] →
          GraphQLAnalysis.namedAmong args
            (GraphQLAnalysis.limitArgNames ++ GraphQLAnalysis.offsetArgNames))
    as Hsub.
  { apply graphql_namedAmong_subseteq. intros x.
    unfold GraphQLAnalysis.limitArgNames, GraphQLAnalysis.offsetArgNames.
    cbn [app]. rewrite !elem_of_cons. tauto. }
  destruct (graphql_analyzePaginationCapabilities_cases args)
    as [(? & -> & -> & ->)
       | [(? & ? & -> & -> & ->)
         | [(? & ? & ? & -> & -> & ->) | (? & ? & -> & -> & ->)]]];
    (split_and!;
     [split; try done; tauto
     | split; try done; tauto
     | intros v; rewrite !elem_of_cons, elem_of_nil;
       intros [Hv | [Hv | []]]; try done; symmetry in Hv;
       first [ by apply findArgName_firstOfItsName in Hv as [? _]
             | by apply findArgNameFromList_firstOfItsName in Hv as [? _]
             | destruct (Js.has "first" _);
               by apply findArgName_firstOfItsName in Hv as [? _] ]
     | intros Hnot Hts v; try tauto;
       split; intros Hv; try done;
       by apply findArgName_firstOfItsName in Hv as [_ ?] ]).
Qed.

(** With [limit] and [skip], only [skip] is reported. *)
Lemma graphql_pagination_limit_skip :
  GraphQLAnalysis.analyzePaginationCapabilities
    [GraphQLAnalysis.mkGraphQLArgument "limit"
       (GraphQLAnalysis.GraphQLNamedType "Int");
     GraphQLAnalysis.mkGraphQLArgument "skip"
       (GraphQLAnalysis.GraphQLNamedType "Int")]
  = GraphQLAnalysis.mkPaginationCapabilities "offset" None (Some "skip").
Proof. reflexivity. Qed.

Section JsonApi_composition_facts.

Lemma includes_bracket_app (p : string) :
  Js.includes (p +:+ "]") "]" = true.
Proof.
  induction p as [|c p IH]; [done |].
  rewrite string_app_cons, includes_bracket_cons, IH. apply orb_true_r.
Qed.

(** [untilBracket] splits at the first []]. *)
Lemma untilBracket_spec (s : string) :
  s = (OpenApiAnalysis.untilBracket s).1 +:+ (OpenApiAnalysis.untilBracket s).2
  ∧ Js.includes (OpenApiAnalysis.untilBracket s).1 "]" = false
  ∧ ((OpenApiAnalysis.untilBracket s).2 = EmptyString
     ∨ ∃ rest, (OpenApiAnalysis.untilBracket s).2 = String "]" rest).
Proof.
  induction s as [|c s (IH1 & IH2 & IH3)]; [by split_and!; [| | left] |].
  cbn [OpenApiAnalysis.untilBracket].
  destruct (Ascii.eqb c "]") eqn:Hc.
  - apply Ascii.eqb_eq in Hc as ->. cbn [fst snd].
    split_and!; [done | done | right; by eexists].
  - destruct (OpenApiAnalysis.untilBracket s) as [run after].
    cbn [fst snd] in *. split_and!; [| | done].
    + by rewrite string_app_cons, <- IH1.
    + by rewrite includes_bracket_cons, Hc, IH2.
Qed.

Lemma untilBracket_closed (s : string) :
  Js.includes s "]" = true →
  ∃ rest, (OpenApiAnalysis.untilBracket s).2 = String "]" rest.
Proof.
  intros Hs. destruct (untilBracket_spec s) as (Heq & Hrun & [Hafter | ?]);
    [| done].
  rewrite Hafter in Heq.
  assert ((OpenApiAnalysis.untilBracket s).1 +:+ EmptyString
          = (OpenApiAnalysis.untilBracket s).1) as Hnil.
  { generalize (OpenApiAnalysis.untilBracket s).1.
    intros r. induction r as [|c r IH]; [done |].
    by rewrite string_app_cons, IH. }
  rewrite Hnil in Heq. rewrite <- Heq in Hrun. congruence.
Qed.

End JsonApi_composition_facts.

(** X27.  A parameter that [analyzeFilterCapabilities] takes for a JSON:API
    filter has an extractable field unless its name starts with
    [filter[]]]; an extracted field is never empty, holds no []], and
    stands in the name between [filter[] and []]. *)
Theorem jsonapi_filter_param_field (n : string) :
  OpenApiAnalysis.isJsonApiFilterParam n = true →
  (OpenApiAnalysis.extractJsonApiFilterField n = None ↔
   Js.startsWith n "filter[]" = true) ∧
  (∀ f, OpenApiAnalysis.extractJsonApiFilterField n = Some f →
        f ≠ EmptyString ∧ Js.includes f "]" = false
        ∧ Js.startsWith n ("filter[" +:+ f +:+ "]") = true).
Proof.
  unfold OpenApiAnalysis.isJsonApiFilterParam.
  intros [[r ->]%startsWith_spec Hend]%andb_true_iff.
  assert (Js.includes r "]" = true) as Hr.
  { apply endsWith_spec in Hend as [p Hp].
    destruct r as [|c r]; [by destruct p as [|? [|? [|? [|? [|? [|? [|? [|? ?]]]]]]]] |].
    destruct (string_app_eq_inv p "]" "filter[" (String c r)
                (eq_sym Hp)) as [k' Hk']; [cbn; lia |].
    rewrite Hk'. apply includes_bracket_app. }
  unfold OpenApiAnalysis.extractJsonApiFilterField,
    OpenApiAnalysis.bracketGroup.
  rewrite startsWith_app, drop_app_length.
  destruct (untilBracket_spec r) as (Heq & Hrun & _).
  destruct (untilBracket_closed r Hr) as [rest Hafter].
  destruct (OpenApiAnalysis.untilBracket r) as [run after].
  cbn [fst snd] in *. subst after.
  destruct run as [|c run].
  - rewrite string_app_nil in Heq. subst r. cbn [fmap option_fmap option_map].
    split; [split; [intros _ | done] | done].
    change ("filter[" +:+ String "]" rest) with ("filter[]" +:+ rest).
    apply startsWith_app.
  - cbn [fmap option_fmap option_map fst]. rewrite Heq.
    rewrite includes_bracket_cons in Hrun.
    apply orb_false_iff in Hrun as [Hc Hrun]. split.
    + split; [done |]. intros Hfalse.
      rewrite !string_app_cons, string_app_nil in Hfalse.
      cbn [Js.startsWith] in Hfalse. rewrite Hc in Hfalse.
      vm_compute in Hfalse. discriminate.
    + intros f [= <-]. split_and!; [done | |].
      * by rewrite includes_bracket_cons, Hc, Hrun.
      * change (String "]" rest) with ("]" +:+ rest).
        rewrite <- (string_app_assoc (String c run) "]" rest),
          <- (string_app_assoc "filter[" (String c run +:+ "]") rest).
        apply startsWith_app.
Qed.

(** [filter[]] is taken for a filter parameter but names no field. *)
Lemma jsonapi_filter_param_empty_brackets :
  OpenApiAnalysis.isJsonApiFilterParam "filter[]" = true
  ∧ OpenApiAnalysis.extractJsonApiFilterField "filter[]" = None.
Proof.
  split; [reflexivity |].
  apply (jsonapi_filter_param_field "filter[]"); reflexivity.
Defined.

(** X28.  [unwrapType] always ends at a type that is no wrapper, and
    unwrapping that again changes nothing. *)
Theorem unwrapType_reaches_unwrapped_type
    (t : GraphQLAnalysis.GraphQLInputType) :
  (∀ ofType, GraphQLAnalysis.unwrapType t
             ≠ GraphQLAnalysis.GraphQLNonNull ofType) ∧
  (∀ ofType, GraphQLAnalysis.unwrapType t
             ≠ GraphQLAnalysis.GraphQLList ofType) ∧
  GraphQLAnalysis.unwrapType (GraphQLAnalysis.unwrapType t)
  = GraphQLAnalysis.unwrapType t.
Proof. induction t; by cbn. Qed.
